(** * Grant advisor: grant-data synchronisation and funder matching

    A shallow embedding of the synchronisation route
    ([syncGrantsForFunders]), the 360Giving client's [RateLimiter] and the
    matching pipeline with its match cache ([generateCacheKey],
    [checkCache], [saveToCache], [invalidateCacheBeforeSync],
    [parseMatchingResponse], [matchFunders]), followed by the properties
    established about them.  The model further covers the organisation
    phase and the two route handlers ([syncOrganisations], [POST],
    [GET]), the freshness indicator, [getFunderDetails], and the calls
    and pagination helpers of the 360Giving client.

    Conventions.  JavaScript strings are Rocq strings (exact for ASCII
    text); numbers that the code only compares or counts are integers,
    but for the cap on grants, which is the number that [parseInt] read,
    [NaN] included; timestamps are integers (milliseconds), and the
    arithmetic of the local calendar is a function of the environment.
    A field of a JSON payload is absent, null or a value where the code
    tells them apart.  An asynchronous function is a function of the
    store it runs against; a rejected promise is an error value, and a
    call of the store either succeeds, answers with an error or
    rejects. *)

From Stdlib Require Import ZArith List String Ascii Lia Bool Arith.
From Stdlib Require Import Permutation Sorted DecimalString DecimalZ QArith.
Import ListNotations.
Local Open Scope Z_scope.

(* ================================================================== *)
(** * Part I: the model *)
(* ================================================================== *)

(** ** JavaScript built-ins used by the code *)

Module JS.

(** [Array.prototype.sort(cmp)]: the sort is stable (ECMAScript 2019), so
    for a consistent comparator its result is the one of a stable
    insertion sort: an element stays in front of the later elements that
    do not compare strictly before it. *)
Fixpoint insert {A} (cmp : A -> A -> Z) (x : A) (l : list A) : list A :=
  match l with
  | [] => [x]
  | y :: l' => if cmp x y <=? 0 then x :: l else y :: insert cmp x l'
  end.

Definition sort {A} (cmp : A -> A -> Z) (l : list A) : list A :=
  fold_right (insert cmp) [] l.

(** The default comparator of [sort()] on strings: code-unit order.  A
    string is its sequence of bytes here, which is the sequence of its
    code units for ASCII text, as organisation identifiers and
    classification codes are; on other text the order of the bytes of
    UTF-8 is the order of the code points, which differs from the order
    of the code units only between a character beyond U+FFFF and one
    from U+E000 to U+FFFF. *)
Definition string_cmp (a b : string) : Z :=
  match String.compare a b with
  | Lt => -1
  | Eq => 0
  | Gt => 1
  end.

Definition sort_strings (l : list string) : list string := sort string_cmp l.

(** [Array.prototype.join] *)
Definition join (sep : string) (l : list string) : string := String.concat sep l.

(** [s || d] on strings: the empty string is falsy. *)
Definition str_or (s d : string) : string :=
  if String.eqb s EmptyString then d else s.

(** [String.prototype.substring(0, n)] *)
Definition substring0 (n : nat) (s : string) : string := String.substring 0 n s.

(** [Array.prototype.slice(0, n)] *)
Definition slice0 {A} (n : nat) (l : list A) : list A := firstn n l.

(** [Array.prototype.find] *)
Definition find {A} (p : A -> bool) (l : list A) : option A := List.find p l.

(** First index at which [pat] occurs in [s] ([String.prototype.indexOf]). *)
Fixpoint indexOf (fuel : nat) (pat s : string) : option nat :=
  if String.prefix pat s then Some 0%nat
  else match fuel, s with
       | S f, String _ s' => option_map S (indexOf f pat s')
       | _, _ => None
       end.

Fixpoint drop (n : nat) (s : string) : string :=
  match n, s with
  | S k, String _ s' => drop k s'
  | _, _ => s
  end.

(** A field of a JSON object: missing, [null], or a value. *)
Inductive field (A : Type) : Type :=
  | Undefined
  | Null
  | Value (a : A).
Arguments Undefined {A}.
Arguments Null {A}.
Arguments Value {A} _.

(** The value of a field that has one. *)
Definition value {A} (f : field A) : option A :=
  match f with
  | Value a => Some a
  | _ => None
  end.

(** A number that [parseInt] returned: an integer, or [NaN]. *)
Inductive number : Type :=
  | NaN
  | Int (z : Z).

(** [n >= m] for an integer [n]: no comparison with [NaN] holds. *)
Definition geq (n : Z) (m : number) : bool :=
  match m with
  | NaN => false
  | Int z => n >=? z
  end.

End JS.

(** ** SHA-256 (the sha256 hash of the crypto module, FIPS 180-4) *)

Module SHA256.

Definition w32 (x : Z) : Z := x mod 2 ^ 32.
Definition add32 (a b : Z) : Z := w32 (a + b).
Definition rotr (n x : Z) : Z := Z.lor (Z.shiftr x n) (w32 (Z.shiftl x (32 - n))).
Definition shr (n x : Z) : Z := Z.shiftr x n.
Definition not32 (x : Z) : Z := Z.lxor x 0xffffffff.

Definition Ch (x y z : Z) : Z := Z.lxor (Z.land x y) (Z.land (not32 x) z).
Definition Maj (x y z : Z) : Z :=
  Z.lxor (Z.lxor (Z.land x y) (Z.land x z)) (Z.land y z).
Definition Sigma0 (x : Z) : Z := Z.lxor (Z.lxor (rotr 2 x) (rotr 13 x)) (rotr 22 x).
Definition Sigma1 (x : Z) : Z := Z.lxor (Z.lxor (rotr 6 x) (rotr 11 x)) (rotr 25 x).
Definition sigma0 (x : Z) : Z := Z.lxor (Z.lxor (rotr 7 x) (rotr 18 x)) (shr 3 x).
Definition sigma1 (x : Z) : Z := Z.lxor (Z.lxor (rotr 17 x) (rotr 19 x)) (shr 10 x).

(** The round constants are the first 32 bits of the fractional parts of
    the cube roots of the first 64 primes, and the initial hash value
    those of the square roots of the first 8 primes; they are computed
    here rather than listed. *)
Definition is_prime (n : nat) : bool :=
  (1 <? n)%nat && forallb (fun d => negb (n mod d =? 0)%nat) (seq 2 (n - 2)).

Definition primes (count : nat) : list Z :=
  map Z.of_nat (firstn count (filter is_prime (seq 2 310))).

(** The integer cube root, one bit at a time from bit [bits - 1] down. *)
Fixpoint icbrt (bits : nat) (n r : Z) : Z :=
  match bits with
  | O => r
  | S b =>
      let r' := r + 2 ^ Z.of_nat b in
      icbrt b n (if r' * r' * r' <=? n then r' else r)
  end.

Definition K : list Z :=
  map (fun p => w32 (icbrt 40 (p * 2 ^ 96) 0)) (primes 64).

Definition H0 : list Z :=
  map (fun p => w32 (Z.sqrt (p * 2 ^ 64))) (primes 8).

Definition be_bytes (n : nat) (x : Z) : list Z :=
  map (fun i => (Z.shiftr x (8 * Z.of_nat i)) mod 256) (rev (seq 0 n)).

(** Padding: the byte 0x80, zero bytes up to 56 modulo 64, and the bit
    length as a 64-bit big-endian integer. *)
Definition pad (msg : list Z) : list Z :=
  let len := Z.of_nat (List.length msg) in
  let zeros := Z.to_nat ((55 - len) mod 64) in
  msg ++ [0x80] ++ repeat 0 zeros ++ be_bytes 8 (8 * len).

Fixpoint words (bs : list Z) : list Z :=
  match bs with
  | a :: b :: c :: d :: rest =>
      (Z.shiftl a 24 + Z.shiftl b 16 + Z.shiftl c 8 + d) :: words rest
  | _ => []
  end.

Fixpoint blocks (fuel : nat) (ws : list Z) : list (list Z) :=
  match fuel, ws with
  | S f, _ :: _ => firstn 16 ws :: blocks f (skipn 16 ws)
  | _, _ => []
  end.

(** The message schedule, most recent word first while it is extended. *)
Definition extend (rw : list Z) : list Z :=
  add32 (add32 (sigma1 (nth 1 rw 0)) (nth 6 rw 0))
        (add32 (sigma0 (nth 14 rw 0)) (nth 15 rw 0)) :: rw.

Definition schedule (block : list Z) : list Z :=
  rev (Nat.iter 48 extend (rev block)).

Definition round (s : list Z) (kw : Z * Z) : list Z :=
  match s with
  | [a; b; c; d; e; f; g; h] =>
      let t1 := add32 (add32 (add32 h (Sigma1 e)) (add32 (Ch e f g) (fst kw))) (snd kw) in
      let t2 := add32 (Sigma0 a) (Maj a b c) in
      [add32 t1 t2; a; b; c; add32 d t1; e; f; g]
  | _ => s
  end.

Definition compress (h : list Z) (block : list Z) : list Z :=
  map (fun p => add32 (fst p) (snd p))
      (combine h (fold_left round (combine K (schedule block)) h)).

Definition digest (msg : list Z) : list Z :=
  let ws := words (pad msg) in
  fold_left compress (blocks (List.length ws) ws) H0.

Definition hex_digit (d : Z) : ascii :=
  nth (Z.to_nat d) (list_ascii_of_string "0123456789abcdef") "0"%char.

Definition hex_word (w : Z) : list ascii :=
  map (fun i => hex_digit ((Z.shiftr w (4 * Z.of_nat i)) mod 16)) (rev (seq 0 8)).

Definition bytes_of_string (s : string) : list Z :=
  map (fun c => Z.of_nat (nat_of_ascii c)) (list_ascii_of_string s).

(** The hexadecimal digest of the bytes of [s]. *)
Definition hex (s : string) : string :=
  string_of_list_ascii (flat_map hex_word (digest (bytes_of_string s))).

End SHA256.

(** ** [JSON.stringify] on the values the cache key serialises *)

Module Json.

Local Open Scope string_scope.

#[local] Unset Elimination Schemes.
Inductive value : Type :=
  | Num (z : Z)
  | Str (s : string)
  | Obj (fields : list (string * value)).
#[local] Set Elimination Schemes.

Definition hex4 (n : nat) : string :=
  String (SHA256.hex_digit (Z.of_nat (n / 4096) mod 16))
   (String (SHA256.hex_digit (Z.of_nat (n / 256) mod 16))
     (String (SHA256.hex_digit (Z.of_nat (n / 16) mod 16))
       (String (SHA256.hex_digit (Z.of_nat n mod 16)) EmptyString))).

(** QuoteJSONString, one character. *)
Definition escape_char (c : ascii) : string :=
  let n := nat_of_ascii c in
  if Nat.eqb n 8 then "\b"
  else if Nat.eqb n 9 then "\t"
  else if Nat.eqb n 10 then "\n"
  else if Nat.eqb n 12 then "\f"
  else if Nat.eqb n 13 then "\r"
  else if Nat.eqb n 34 then String "\" (String c EmptyString)
  else if Nat.eqb n 92 then "\\"
  else if Nat.ltb n 32 then "\u" ++ hex4 n
  else String c EmptyString.

Fixpoint escape (s : string) : string :=
  match s with
  | EmptyString => EmptyString
  | String c s' => escape_char c ++ escape s'
  end.

Definition dquote : ascii := ascii_of_nat 34.

Definition quote (s : string) : string :=
  String dquote (escape s ++ String dquote EmptyString).

(** A number that is an integer, as [JSON.stringify] prints it: in
    decimal digits.  This holds of the integers below 10^21 in absolute
    value that a double holds exactly, as the registered numbers of
    charities are; from 10^21 on JavaScript prints an exponent. *)
Definition number (z : Z) : string := NilZero.string_of_int (Z.to_int z).

Fixpoint stringify (v : value) : string :=
  match v with
  | Num z => number z
  | Str s => quote s
  | Obj fields =>
      "{" ++ (fix members (fs : list (string * value)) : string :=
                match fs with
                | [] => EmptyString
                | [(k, x)] => quote k ++ ":" ++ stringify x
                | (k, x) :: rest => quote k ++ ":" ++ stringify x ++ "," ++ members rest
                end) fields ++ "}"
  end.

End Json.

(** ** The cache key ([generateCacheKey], [getIncomeBucket]) *)

Record Classification := {
  classification_code : string;
  classification_type : string;
  classification_desc : string
}.

Record Region := { region : string }.

(** The fields of [CharityProfile] that the matching code reads.
    [latest_income], [who_what_where] and [CharityAoORegion] may be absent
    at run time (the code guards them with [||] and [?.]). *)
Record CharityProfile := {
  reg_charity_number : Z;
  charity_name : string;
  latest_income : option Z;
  who_what_where : option (list Classification);
  CharityAoORegion : option (list Region)
}.

Module CacheKey.

Local Open Scope string_scope.

Definition getIncomeBucket (income : Z) : string :=
  if (income <? 10000)%Z then "micro"
  else if (income <? 100000)%Z then "small"
  else if (income <? 500000)%Z then "medium"
  else if (income <? 1000000)%Z then "large"
  else if (income <? 5000000)%Z then "major"
  else "national".

(** [charityProfile.latest_income || 0] *)
Definition income_or_0 (i : option Z) : Z :=
  match i with Some z => z | None => 0%Z end.

(** The codes of the classifications of type [ty], then sorted, joined
    with a comma, and defaulted to the empty string; an absent
    [who_what_where] gives the empty string. *)
Definition codes_of_type (ty : string) (w : list Classification) : list string :=
  map classification_code
      (filter (fun c => String.eqb (classification_type c) ty) w).

Definition joined_codes (ty : string) (www : option (list Classification)) : string :=
  match www with
  | None => EmptyString
  | Some w => JS.str_or (JS.join "," (JS.sort_strings (codes_of_type ty w))) EmptyString
  end.

Definition joined_regions (rs : option (list Region)) : string :=
  match rs with
  | None => EmptyString
  | Some r => JS.str_or (JS.join "," (JS.sort_strings (map region r))) EmptyString
  end.

Definition charityDetails (p : CharityProfile) : Json.value :=
  Json.Obj
    [("reg_charity_number", Json.Num (reg_charity_number p));
     ("income_bucket", Json.Str (getIncomeBucket (income_or_0 (latest_income p))));
     ("activities", Json.Str (joined_codes "What" (who_what_where p)));
     ("beneficiaries", Json.Str (joined_codes "Who" (who_what_where p)));
     ("regions", Json.Str (joined_regions (CharityAoORegion p)))].

Definition sortedFunderIds (funderOrgIds : list string) : string :=
  JS.join "," (JS.sort_strings funderOrgIds).

Definition dataToHash (p : CharityProfile) (funderOrgIds : list string) : string :=
  Json.stringify
    (Json.Obj [("charityDetails", charityDetails p);
               ("funderIds", Json.Str (sortedFunderIds funderOrgIds))]).

Definition generateCacheKey (p : CharityProfile) (funderOrgIds : list string) : string :=
  JS.substring0 32 (SHA256.hex (dataToHash p funderOrgIds)).

End CacheKey.


(** ** The rate limiter of the 360Giving client ([RateLimiter])

    The limiter runs on the single-threaded event loop, so its behaviour
    is a transition system over the events that reach it: a caller
    invokes [add], the thunk of a started unit settles, a pacing timer
    fires.  Every activation of [process] that passed the guard is
    suspended either at [await fn()] (field [running]) or at the
    [setTimeout] promise (field [timers], with the earliest time at which
    the timer may fire).  Units are numbered in submission order. *)

Module RateLimiter.

Definition RATE_LIMIT_DELAY : Z := 500.

Inductive outcome : Type :=
  | Fulfilled (v : Z)
  | Rejected (e : Z).

Inductive action : Type :=
  | Add                              (* a caller invokes add(fn) *)
  | Settle (u : nat) (o : outcome)   (* the thunk of unit u returns or throws *)
  | Timeout (deadline : Z).          (* the timer armed for deadline fires *)

Record state := {
  queue : list nat;             (* this.queue, by unit *)
  processing : bool;            (* this.processing *)
  running : list nat;           (* units whose thunk has been called and has not settled *)
  timers : list Z;              (* pending pacing timers *)
  clock : Z;                    (* time of the last event *)
  submitted : nat;              (* number of calls to add so far *)
  started : list (nat * Z);     (* log: unit and time at which its thunk was called *)
  settled : list (nat * outcome) (* log: promise of unit u resolved or rejected with o *)
}.

Definition init : state :=
  {| queue := []; processing := false; running := []; timers := [];
     clock := 0; submitted := 0; started := []; settled := [] |}.

(** [process()], up to its first [await]. *)
Definition process (now : Z) (s : state) : state :=
  if processing s then s
  else match queue s with
       | [] => s
       | u :: q =>
           {| queue := q; processing := true;
              running := u :: running s; timers := timers s;
              clock := clock s; submitted := submitted s;
              started := started s ++ [(u, now)]; settled := settled s |}
       end.

Fixpoint remove1 {A} (eqb : A -> A -> bool) (x : A) (l : list A) : list A :=
  match l with
  | [] => []
  | y :: l' => if eqb x y then l' else y :: remove1 eqb x l'
  end.

Definition mem {A} (eqb : A -> A -> bool) (x : A) (l : list A) : bool :=
  existsb (eqb x) l.

Definition set_clock (now : Z) (s : state) : state :=
  {| queue := queue s; processing := processing s; running := running s;
     timers := timers s; clock := now; submitted := submitted s;
     started := started s; settled := settled s |}.

(** One event at time [now].  [None]: the event cannot happen in this
    state (time does not go back, only a running thunk settles, only an
    armed timer fires, and not before its delay has elapsed). *)
Definition step (s : state) (ev : Z * action) : option state :=
  let (now, a) := ev in
  if now <? clock s then None
  else
    let s := set_clock now s in
    match a with
    | Add =>
        (* this.queue.push(wrapper); this.process() *)
        Some (process now
                {| queue := queue s ++ [submitted s]; processing := processing s;
                   running := running s; timers := timers s; clock := clock s;
                   submitted := S (submitted s);
                   started := started s; settled := settled s |})
    | Settle u o =>
        if mem Nat.eqb u (running s) then
          (* resolve(result) or reject(error); then process arms the timer *)
          Some {| queue := queue s; processing := processing s;
                  running := remove1 Nat.eqb u (running s);
                  timers := (now + RATE_LIMIT_DELAY) :: timers s;
                  clock := clock s; submitted := submitted s;
                  started := started s; settled := settled s ++ [(u, o)] |}
        else None
    | Timeout d =>
        if mem Z.eqb d (timers s) && (d <=? now) then
          (* this.processing = false; if (this.queue.length > 0) this.process() *)
          Some (process now
                  {| queue := queue s; processing := false;
                     running := running s;
                     timers := remove1 Z.eqb d (timers s);
                     clock := clock s; submitted := submitted s;
                     started := started s; settled := settled s |})
        else None
    end.

Fixpoint run (s : state) (evs : list (Z * action)) : option state :=
  match evs with
  | [] => Some s
  | ev :: rest =>
      match step s ev with
      | Some s' => run s' rest
      | None => None
      end
  end.

End RateLimiter.

(** ** The persistent store (tables organisations, grants, sync_logs and
    match_cache) and the replies of its client *)

Module Db.

Record FunderStats := { aggregate_grants : Z }.

Record Organisation := {
  org_id : string;
  name : string;
  is_funder : bool;
  is_recipient : bool;
  funder_stats : option FunderStats;
  recipient_stats : option FunderStats;
  last_grant_made_date : option string
}.

Record Grant := {
  grant_id : string;
  title : option string;
  description : option string;
  amount_awarded : option Z;
  currency : string;
  award_date : option string;
  funder_org_id : option string;
  recipient_org_id : option string
}.

Record SyncLog := {
  sync_type : string;
  status : string;
  completed_at : option Z
}.

Record ScoreBreakdown := {
  mission_alignment : Z;
  geographic_fit : Z;
  size_compatibility : Z;
  activity_level : Z;
  historical_precedent : Z
}.

Record SimilarCharityExample := {
  similar_name : string;
  grant_amount : Z;
  similar_award_date : string;
  grant_purpose : string
}.

Record FunderMatch := {
  funder : Organisation;
  match_score : Z;
  score_breakdown : ScoreBreakdown;
  reasoning : string;
  similar_charities_funded : list SimilarCharityExample
}.

Record MatchCacheEntry := {
  charity_number : Z;
  cache_key : string;
  cached_name : string;
  matches : list FunderMatch;
  funder_count : Z;
  last_sync_at : option Z;
  created_at : Z;
  expires_at : Z
}.

Record Store := {
  organisations : list Organisation;
  grants : list Grant;
  sync_logs : list SyncLog;
  match_cache : list MatchCacheEntry
}.

(** What a call to the store does besides its query: it succeeds, it
    returns an error in its reply, or it rejects (the request itself
    fails). *)
Inductive fault : Type :=
  | Succeeds
  | ReturnsError (message : string)
  | Throws (message : string).

(** The reply of the store's client: [{ data, error }]. *)
Record reply (A : Type) := { data : option A; error : option string }.
Arguments data {A} _.
Arguments error {A} _.

Definition set_organisations (st : Store) (os : list Organisation) : Store :=
  {| organisations := os; grants := grants st;
     sync_logs := sync_logs st; match_cache := match_cache st |}.

Definition set_grants (st : Store) (gs : list Grant) : Store :=
  {| organisations := organisations st; grants := gs;
     sync_logs := sync_logs st; match_cache := match_cache st |}.

Definition set_match_cache (st : Store) (c : list MatchCacheEntry) : Store :=
  {| organisations := organisations st; grants := grants st;
     sync_logs := sync_logs st; match_cache := c |}.

(** [upsert(row, { onConflict: grant_id })] *)
Fixpoint upsert_grant (row : Grant) (gs : list Grant) : list Grant :=
  match gs with
  | [] => [row]
  | g :: rest =>
      if String.eqb (grant_id g) (grant_id row) then row :: rest
      else g :: upsert_grant row rest
  end.

(** [update({ last_grant_made_date: d }).eq(org_id, id)] *)
Definition update_last_grant_made_date (id : string) (d : option string)
    (os : list Organisation) : list Organisation :=
  map (fun o =>
         if String.eqb (org_id o) id then
           {| org_id := org_id o; name := name o; is_funder := is_funder o;
              is_recipient := is_recipient o; funder_stats := funder_stats o;
              recipient_stats := recipient_stats o;
              last_grant_made_date := d |}
         else o) os.

End Db.

(** ** The responses of the 360Giving API *)

Module Api.

Record GrantPayload := {
  awardDate : JS.field string;
  title : option string;
  description : option string;
  amountAwarded : option Z;
  currency : option string
}.

Record OrgRef := { org_id : string }.

Record GrantData := {
  data : GrantPayload;
  recipients : option (list OrgRef);
  funders : option (list OrgRef);
  grant_id : string
}.

Record GrantsResponse := {
  count : Z;
  next : option string;
  results : list GrantData
}.

End Api.

(** ** The grant phase of the synchronisation ([syncGrantsForFunders]) *)

Module Sync.

(** [maxGrants] is the number [parseInt] read from the query, which is
    [NaN] for a value that is not numeric. *)
Record SyncOptions := {
  maxOrgs : Z;
  maxGrants : JS.number;
  offset : Z;
  incremental : bool;
  lastSyncDate : option string
}.

(** What the run meets outside the code: the JavaScript date parser
    ([None] for an invalid date), the remote API behind the rate limiter
    ([None]: the call rejects), and what the calls to the store do: the
    probe for an existing row and the upsert of a grant may go through,
    return an error or reject; for the update of the funder, whose reply
    the code does not read, the two failures are one. *)
Record Env := {
  Date_parse : string -> option Z;
  getGrantsMade : string -> option Api.GrantsResponse;
  funders_query : Db.fault;
  probe : string -> Db.fault;
  upsert : Db.Grant -> Db.fault;
  update_error : string -> bool
}.

(** The call does not go through: it returns an error, or it rejects. *)
Definition fails (f : Db.fault) : bool :=
  match f with
  | Db.Succeeds => false
  | _ => true
  end.

(** The call rejects: the [await] throws. *)
Definition rejects (f : Db.fault) : bool :=
  match f with
  | Db.Throws _ => true
  | _ => false
  end.

Definition probe_error (env : Env) (id : string) : bool := fails (probe env id).

Definition upsert_error (env : Env) (row : Db.Grant) : bool := fails (upsert env row).

(** How the loop disposed of a grant it reached.  The journal is not in
    the source: it records, next to the two counters, which branch each
    processed grant took; [Threw] marks the grant at which a call to the
    store rejected. *)
Inductive decision : Type :=
  | SkippedOlder
  | SkippedExisting
  | Upserted (row : Db.Grant)
  | UpsertFailed
  | Threw.

(** How the loop over a page ends: it runs to its end (or to the cap), or
    a rejection takes it to the [catch] of the funder. *)
Inductive page_end : Type :=
  | Finished
  | Abandoned.

Record Progress := {
  synced : Z;
  skipped : Z;
  store : Db.Store;
  journal : list (Api.GrantData * decision)
}.

(** A string is truthy unless it is absent or empty. *)
Definition truthy (s : option string) : bool :=
  match s with
  | Some x => negb (String.eqb x EmptyString)
  | None => false
  end.

(** [new Date(a) < new Date(b)]: false as soon as a date is invalid. *)
Definition date_lt (env : Env) (a b : string) : bool :=
  match Date_parse env a, Date_parse env b with
  | Some x, Some y => x <? y
  | _, _ => false
  end.

(** The guard of the incremental skip. *)
Definition older_than_last_sync (env : Env) (options : SyncOptions)
    (awardDate : JS.field string) : bool :=
  incremental options && truthy (lastSyncDate options) && truthy (JS.value awardDate) &&
  match JS.value awardDate, lastSyncDate options with
  | Some a, Some d => date_lt env a d
  | _, _ => false
  end.

(** The probe for an existing row: [select(grant_id).eq(grant_id, id).single()];
    only [data] of its reply is read. *)
Definition existing (env : Env) (st : Db.Store) (id : string) : bool :=
  if probe_error env id then false
  else match filter (fun g => String.eqb (Db.grant_id g) id) (Db.grants st) with
       | [_] => true
       | _ => false
       end.

(** [refs?.[0]?.org_id], falsy when absent or empty. *)
Definition first_org_id (refs : option (list Api.OrgRef)) : option string :=
  match refs with
  | Some (r :: _) => if String.eqb (Api.org_id r) EmptyString then None
                     else Some (Api.org_id r)
  | _ => None
  end.

Definition grant_row (funder : Db.Organisation) (g : Api.GrantData) : Db.Grant :=
  let grant := Api.data g in
  {| Db.grant_id := Api.grant_id g;
     Db.title := Api.title grant;
     Db.description := Api.description grant;
     Db.amount_awarded := Api.amountAwarded grant;
     Db.currency := match Api.currency grant with
                    | Some c => JS.str_or c "GBP"%string
                    | None => "GBP"%string
                    end;
     Db.award_date := JS.value (Api.awardDate grant);
     Db.funder_org_id := match first_org_id (Api.funders g) with
                         | Some id => Some id
                         | None => Some (Db.org_id funder)
                         end;
     Db.recipient_org_id := first_org_id (Api.recipients g) |}.

Definition record (st : Progress) (g : Api.GrantData) (d : decision)
    (synced' skipped' : Z) (store' : Db.Store) : Progress :=
  {| synced := synced'; skipped := skipped'; store := store';
     journal := (journal st ++ [(g, d)])%list |}.

(** The inner loop: [for (const grantData of grantsResponse.results)].
    It stands inside the [try] of the funder: a probe or an upsert that
    rejects ends it, with the rest of the page. *)
Fixpoint sync_page (env : Env) (options : SyncOptions) (funder : Db.Organisation)
    (results : list Api.GrantData) (st : Progress) : page_end * Progress :=
  match results with
  | [] => (Finished, st)
  | grantData :: rest =>
      if JS.geq (synced st) (maxGrants options) then (Finished, st)
      else if older_than_last_sync env options (Api.awardDate (Api.data grantData)) then
        sync_page env options funder rest
          (record st grantData SkippedOlder (synced st) (skipped st + 1) (store st))
      else if incremental options && rejects (probe env (Api.grant_id grantData)) then
        (Abandoned, record st grantData Threw (synced st) (skipped st) (store st))
      else if incremental options && existing env (store st) (Api.grant_id grantData) then
        sync_page env options funder rest
          (record st grantData SkippedExisting (synced st) (skipped st + 1) (store st))
      else
        let row := grant_row funder grantData in
        match upsert env row with
        | Db.Throws _ =>
            (Abandoned, record st grantData Threw (synced st) (skipped st) (store st))
        | Db.ReturnsError _ =>
            sync_page env options funder rest
              (record st grantData UpsertFailed (synced st) (skipped st) (store st))
        | Db.Succeeds =>
            sync_page env options funder rest
              (record st grantData (Upserted row) (synced st + 1) (skipped st)
                 (Db.set_grants (store st) (Db.upsert_grant row (Db.grants (store st)))))
        end
  end.

(** The update of [last_grant_made_date] after the page: the award date
    of [results[0]].  A date that is [null] is written as it is; a
    missing one leaves the update without a column to set. *)
Definition touch_funder (env : Env) (funder : Db.Organisation)
    (results : list Api.GrantData) (st : Progress) : Progress :=
  match results with
  | [] => st
  | latestGrant :: _ =>
      match Api.awardDate (Api.data latestGrant) with
      | JS.Undefined => st
      | date =>
          if update_error env (Db.org_id funder) then st
          else {| synced := synced st; skipped := skipped st;
                  store := Db.set_organisations (store st)
                             (Db.update_last_grant_made_date (Db.org_id funder)
                                (JS.value date) (Db.organisations (store st)));
                  journal := journal st |}
      end
  end.

(** The body of the outer loop for one funder, a [try] whose [catch]
    only logs: a rejected API call leaves the funder out, and a page
    that was abandoned is not followed by the update of the funder. *)
Definition sync_funder (env : Env) (options : SyncOptions) (funder : Db.Organisation)
    (st : Progress) : Progress :=
  match getGrantsMade env (Db.org_id funder) with
  | None => st
  | Some grantsResponse =>
      match sync_page env options funder (Api.results grantsResponse) st with
      | (Abandoned, st') => st'
      | (Finished, st') => touch_funder env funder (Api.results grantsResponse) st'
      end
  end.

Fixpoint sync_funders (env : Env) (options : SyncOptions)
    (funders : list Db.Organisation) (st : Progress) : Progress :=
  match funders with
  | [] => st
  | funder :: rest =>
      if JS.geq (synced st) (maxGrants options) then st
      else sync_funders env options rest (sync_funder env options funder st)
  end.

(** [select(...).eq(is_funder, true).limit(50)] *)
Definition select_funders (st : Db.Store) : list Db.Organisation :=
  firstn 50 (filter Db.is_funder (Db.organisations st)).

Definition start (st : Db.Store) : Progress :=
  {| synced := 0; skipped := 0; store := st; journal := [] |}.

(** [syncGrantsForFunders]: the counters, or the error it throws, and the
    state it leaves. *)
Definition syncGrantsForFunders (env : Env) (options : SyncOptions) (st : Db.Store)
    : (string + Z * Z) * Progress :=
  match funders_query env with
  | Db.Throws m => (inl m, start st)
  | Db.ReturnsError m => (inl ("Failed to fetch funders: " ++ m)%string, start st)
  | Db.Succeeds =>
      match select_funders st with
      | [] => (inr (0, 0), start st)
      | funders =>
          let final := sync_funders env options funders (start st) in
          (inr (synced final, skipped final), final)
      end
  end.

End Sync.

(** ** The matching pipeline and its cache *)

Module Matching.

Local Open Scope string_scope.

Definition CACHE_TTL_DAYS : Z := 7.
Definition DAY_MS : Z := 86400000.

Record FunderWithGrants := {
  funder : Db.Organisation;
  grants : list Db.Grant
}.

Record MatchResponseItem := {
  funder_org_id : string;
  match_score : Z;
  score_breakdown : Db.ScoreBreakdown;
  reasoning : string;
  similar_charities_funded : option (list Db.SimilarCharityExample)
}.

Record CacheResult := {
  hit : bool;
  matches : option (list Db.FunderMatch);
  cacheKey : option string;
  createdAt : option Z
}.

Inductive ContentBlock : Type :=
  | TextBlock (text : string)
  | OtherBlock (type : string).

(** What a call meets outside the code: the clock; the calendar of the
    process, [plus_days t n] being the instant that
    [d.setDate(d.getDate() + n)] gives for the date [d] of instant [t]
    ([n] days later at the same local time, which is not [n] times 24
    hours when the offset of the time zone changes in between); the
    store's faults, the order of the timestamp column, the scoring
    service ([inl]: the request rejects), [JSON.parse] at the type the
    code casts its result to ([None]: it throws), and the text of the
    prompt, which no property below depends on. *)
Record Env := {
  now : Z;
  plus_days : Z -> Z -> Z;
  funders_query : Db.fault;
  cache_read : Db.fault;
  grants_query : string -> Db.fault;
  last_sync_query : Db.fault;
  cache_write : Db.fault;
  cache_delete : Db.fault;
  timestamp : string -> Z;
  claude : string -> string + list ContentBlock;
  JSON_parse : string -> option (list MatchResponseItem);
  buildMatchingPrompt : CharityProfile -> list FunderWithGrants -> string
}.

(** *** The monad of an asynchronous function over the store

    A computation reads and writes the store, may throw an error (a
    message), and leaves a trace of the calls it makes outside. *)

Inductive effect : Type :=
  | PromptBuilt (prompt : string)
  | ScoringCalled (prompt : string).

Record World := { db : Db.Store; trace : list effect }.

Inductive result (A : Type) : Type :=
  | Ok (a : A)
  | Err (message : string).
Arguments Ok {A} _.
Arguments Err {A} _.

Definition M (A : Type) : Type := World -> result A * World.

Definition ret {A} (a : A) : M A := fun w => (Ok a, w).

Definition throw {A} (message : string) : M A := fun w => (Err message, w).

Definition bind {A B} (c : M A) (k : A -> M B) : M B :=
  fun w => match c w with
           | (Ok a, w') => k a w'
           | (Err m, w') => (Err m, w')
           end.

Definition try_catch {A} (c : M A) (handler : string -> M A) : M A :=
  fun w => match c w with
           | (Ok a, w') => (Ok a, w')
           | (Err m, w') => handler m w'
           end.

Definition emit (e : effect) : M unit :=
  fun w => (Ok tt, {| db := db w; trace := (trace w ++ [e])%list |}).

Definition get_db : M Db.Store := fun w => (Ok (db w), w).

Definition put_db (st : Db.Store) : M unit :=
  fun w => (Ok tt, {| db := st; trace := trace w |}).

Notation "x <- c ;; k" := (bind c (fun x => k))
  (at level 61, c at next level, right associativity).
Notation "c ;;; k" := (bind c (fun _ => k))
  (at level 61, right associativity).

Fixpoint mapM {A B} (f : A -> M B) (l : list A) : M (list B) :=
  match l with
  | [] => ret []
  | a :: rest => b <- f a ;; bs <- mapM f rest ;; ret (b :: bs)
  end.

(** A read of the store under a fault. *)
Definition select {A} (f : Db.fault) (rows : Db.Store -> option A) : M (Db.reply A) :=
  match f with
  | Db.Succeeds => st <- get_db ;; ret {| Db.data := rows st; Db.error := None |}
  | Db.ReturnsError m => ret {| Db.data := None; Db.error := Some m |}
  | Db.Throws m => throw m
  end.

(** [.single()]: exactly one row, else an error. *)
Definition single {A} (rows : list A) : option A :=
  match rows with
  | [r] => Some r
  | _ => None
  end.

(** *** The cache *)

Definition cache_rows (st : Db.Store) (charityNumber : Z) (key : string) (t : Z)
    : list Db.MatchCacheEntry :=
  filter (fun e => (Db.charity_number e =? charityNumber)%Z
                   && String.eqb (Db.cache_key e) key
                   && (t <? Db.expires_at e)%Z)
         (Db.match_cache st).

Definition miss (key : string) : CacheResult :=
  {| hit := false; matches := None; cacheKey := Some key; createdAt := None |}.

Definition checkCache (env : Env) (charityNumber : Z) (key : string) : M CacheResult :=
  try_catch
    (r <- select (cache_read env)
            (fun st => single (cache_rows st charityNumber key (now env))) ;;
     match Db.error r, Db.data r with
     | None, Some row =>
         ret {| hit := true; matches := Some (Db.matches row);
                cacheKey := Some key; createdAt := Some (Db.created_at row) |}
     | _, _ => ret (miss key)
     end)
    (fun _ => ret (miss key)).

(** The latest completed synchronisation:
    [eq(status, completed).order(completed_at, descending).limit(1).single()];
    a descending order puts rows without a value first. *)
Definition is_completed (l : Db.SyncLog) : bool := String.eqb (Db.status l) "completed".

Definition later (a b : option Z) : option Z :=
  match a, b with
  | None, _ => None
  | _, None => None
  | Some x, Some y => Some (Z.max x y)
  end.

(** The [completed_at] of the row the query returns, if there is one. *)
Definition last_completed (logs : list Db.SyncLog) : option (option Z) :=
  match map Db.completed_at (filter is_completed logs) with
  | [] => None
  | t :: rest => Some (fold_left later rest t)
  end.

(** The upsert on [(charity_number, cache_key)]; [cache_key] alone is
    unique too, so a row of another charity under the same key makes the
    upsert fail. *)
Definition same_entry (a b : Db.MatchCacheEntry) : bool :=
  (Db.charity_number a =? Db.charity_number b)%Z
  && String.eqb (Db.cache_key a) (Db.cache_key b).

Definition key_taken (row : Db.MatchCacheEntry) (c : list Db.MatchCacheEntry) : bool :=
  existsb (fun e => String.eqb (Db.cache_key e) (Db.cache_key row)
                    && negb (Db.charity_number e =? Db.charity_number row)%Z) c.

Fixpoint upsert_entry (row : Db.MatchCacheEntry) (c : list Db.MatchCacheEntry)
    : list Db.MatchCacheEntry :=
  match c with
  | [] => [row]
  | e :: rest => if same_entry e row then row :: rest else e :: upsert_entry row rest
  end.

Definition saveToCache (env : Env) (p : CharityProfile) (key : string)
    (ms : list Db.FunderMatch) : M unit :=
  try_catch
    (lastSync <- select (last_sync_query env)
                   (fun st => last_completed (Db.sync_logs st)) ;;
     let expiresAt := plus_days env (now env) CACHE_TTL_DAYS in
     let row :=
       {| Db.charity_number := reg_charity_number p;
          Db.cache_key := key;
          Db.cached_name := charity_name p;
          Db.matches := ms;
          Db.funder_count := Z.of_nat (List.length ms);
          Db.last_sync_at := match Db.data lastSync with
                             | Some completed_at => completed_at
                             | None => None
                             end;
          Db.created_at := now env;
          Db.expires_at := expiresAt |} in
     match cache_write env with
     | Db.Throws m => throw m
     | Db.ReturnsError _ => ret tt
     | Db.Succeeds =>
         st <- get_db ;;
         if key_taken row (Db.match_cache st) then ret tt
         else put_db (Db.set_match_cache st (upsert_entry row (Db.match_cache st)))
     end)
    (fun _ => ret tt).

(** [delete().lt(last_sync_at, syncDate).select(id)]: a row without
    [last_sync_at] does not satisfy the filter. *)
Definition stale (syncDate : Z) (e : Db.MatchCacheEntry) : bool :=
  match Db.last_sync_at e with
  | Some t => (t <? syncDate)%Z
  | None => false
  end.

Definition invalidateCacheBeforeSync (env : Env) (syncDate : Z) : M Z :=
  try_catch
    (match cache_delete env with
     | Db.Throws m => throw m
     | Db.ReturnsError _ => ret 0%Z
     | Db.Succeeds =>
         st <- get_db ;;
         let deleted := filter (stale syncDate) (Db.match_cache st) in
         put_db (Db.set_match_cache st
                   (filter (fun e => negb (stale syncDate e)) (Db.match_cache st))) ;;;
         ret (Z.of_nat (List.length deleted))
     end)
    (fun _ => ret 0%Z).

(** *** Parsing the reply of the scoring service *)

Definition nl : string := String (ascii_of_nat 10) EmptyString.
Definition fence_open : string := "```json" ++ nl.
Definition fence_close : string := nl ++ "```".

(** The first match of the code-fence pattern, with its lazy group. *)
Definition fenced (responseText : string) : option string :=
  match JS.indexOf (String.length responseText) fence_open responseText with
  | None => None
  | Some i =>
      let rest := JS.drop (i + String.length fence_open) responseText in
      match JS.indexOf (String.length rest) fence_close rest with
      | None => None
      | Some j => Some (String.substring 0 j rest)
      end
  end.

Definition PARSE_ERROR : string := "Failed to parse AI matching response".

Definition to_match (fundersWithGrants : list FunderWithGrants) (m : MatchResponseItem)
    : option Db.FunderMatch :=
  match JS.find (fun f => String.eqb (Db.org_id (funder f)) (funder_org_id m))
                fundersWithGrants with
  | None => None
  | Some funderData =>
      Some {| Db.funder :=
                {| Db.org_id := Db.org_id (funder funderData);
                   Db.name := Db.name (funder funderData);
                   Db.is_funder := true;
                   Db.is_recipient := Db.is_recipient (funder funderData) || false;
                   Db.funder_stats := Db.funder_stats (funder funderData);
                   Db.recipient_stats := Db.recipient_stats (funder funderData);
                   Db.last_grant_made_date := None |};
              Db.match_score := match_score m;
              Db.score_breakdown := score_breakdown m;
              Db.reasoning := reasoning m;
              Db.similar_charities_funded :=
                match similar_charities_funded m with
                | Some l => l
                | None => []
                end |}
  end.

(** [parsedMatches.map(...)], where the callback may throw. *)
Fixpoint map_or_throw {A B} (f : A -> option B) (l : list A) : option (list B) :=
  match l with
  | [] => Some []
  | a :: rest =>
      match f a with
      | None => None
      | Some b => option_map (cons b) (map_or_throw f rest)
      end
  end.

Definition parseMatchingResponse (env : Env) (responseText : string)
    (fundersWithGrants : list FunderWithGrants) : result (list Db.FunderMatch) :=
  let jsonText := match fenced responseText with
                  | Some inner => inner
                  | None => responseText
                  end in
  match JSON_parse env jsonText with
  | None => Err PARSE_ERROR
  | Some parsedMatches =>
      match map_or_throw (to_match fundersWithGrants) parsedMatches with
      | None => Err PARSE_ERROR
      | Some l => Ok l
      end
  end.

(** *** [matchFunders] *)

(** Step 1: the funders, by descending number of grants, at most 50. *)
Definition grants_made (o : Db.Organisation) : option Z :=
  option_map Db.aggregate_grants (Db.funder_stats o).

Definition desc_nulls_first (a b : option Z) : Z :=
  match a, b with
  | None, None => 0
  | None, Some _ => -1
  | Some _, None => 1
  | Some x, Some y => y - x
  end.

Definition select_funders (st : Db.Store) : list Db.Organisation :=
  firstn 50
    (JS.sort (fun a b => desc_nulls_first (grants_made a) (grants_made b))
       (filter Db.is_funder (Db.organisations st))).

(** Step 4: the ten most recent grants of a funder. *)
Definition select_grants (env : Env) (id : string) (st : Db.Store) : list Db.Grant :=
  firstn 10
    (JS.sort (fun a b => desc_nulls_first (option_map (timestamp env) (Db.award_date a))
                                          (option_map (timestamp env) (Db.award_date b)))
       (filter (fun g => match Db.funder_org_id g with
                         | Some f => String.eqb f id
                         | None => false
                         end) (Db.grants st))).

Definition fetch_sample (env : Env) (f : Db.Organisation) : M FunderWithGrants :=
  r <- select (grants_query env (Db.org_id f))
         (fun st => Some (select_grants env (Db.org_id f) st)) ;;
  match Db.error r, Db.data r with
  | Some _, _ => ret {| funder := f; grants := [] |}
  | None, Some gs => ret {| funder := f; grants := gs |}
  | None, None => ret {| funder := f; grants := [] |}
  end.

Definition first_text (content : list ContentBlock) : option string :=
  match JS.find (fun b => match b with TextBlock _ => true | OtherBlock _ => false end)
                content with
  | Some (TextBlock t) => Some t
  | _ => None
  end.

Definition by_score_desc (a b : Db.FunderMatch) : Z :=
  (Db.match_score b - Db.match_score a)%Z.

Definition lift {A} (r : result A) : M A :=
  match r with
  | Ok a => ret a
  | Err m => throw m
  end.

Definition matchFunders (env : Env) (charityProfile : CharityProfile)
    (forceRefresh : bool) : M (list Db.FunderMatch) :=
  r <- select (funders_query env) (fun st => Some (select_funders st)) ;;
  match Db.error r, Db.data r with
  | Some m, _ => throw ("Failed to fetch funders: " ++ m)
  | None, None => throw "No funders found in database"
  | None, Some [] => throw "No funders found in database"
  | None, Some funders =>
      let funderOrgIds := map Db.org_id funders in
      let key := CacheKey.generateCacheKey charityProfile funderOrgIds in
      cached <- (if forceRefresh then ret None
                 else c <- checkCache env (reg_charity_number charityProfile) key ;;
                      ret (if hit c then matches c else None)) ;;
      match cached with
      | Some ms => ret ms
      | None =>
          fundersWithGrants <- mapM (fetch_sample env) funders ;;
          let userPrompt := buildMatchingPrompt env charityProfile fundersWithGrants in
          emit (PromptBuilt userPrompt) ;;;
          emit (ScoringCalled userPrompt) ;;;
          match claude env userPrompt with
          | inl m => throw m
          | inr content =>
              match first_text content with
              | None => throw "No text content in AI response"
              | Some text =>
                  ms <- lift (parseMatchingResponse env text fundersWithGrants) ;;
                  let sortedMatches := JS.slice0 20 (JS.sort by_score_desc ms) in
                  saveToCache env charityProfile key sortedMatches ;;;
                  ret sortedMatches
              end
          end
      end
  end.

End Matching.

(** ** Vocabulary of the properties *)

(** The relation a comparator induces: [x] may stay in front of [y]. *)
Definition before {A} (cmp : A -> A -> Z) (x y : A) : Prop := cmp x y <= 0.

(** A descending sort on a rank, as the comparator [(a, b) => rank b - rank a]. *)
Definition desc {A} (rank : A -> Z) (a b : A) : Z := rank b - rank a.

(** The elements of rank [k], in the order of the list. *)
Definition of_rank {A} (rank : A -> Z) (k : Z) (l : list A) : list A :=
  filter (fun a => rank a =? k) l.

Module KeyFacts.

(** The head of a string that [Json.escape] produced, read back: the
    character it stands for and the rest; nothing at a closing quote. *)
Definition hex_value (c : ascii) : option nat :=
  let n := nat_of_ascii c in
  if (48 <=? n)%nat && (n <=? 57)%nat then Some (n - 48)%nat
  else if (97 <=? n)%nat && (n <=? 102)%nat then Some (n - 87)%nat
  else None.

Definition unescape1 (s : string) : option (ascii * string) :=
  match s with
  | EmptyString => None
  | String c r =>
      if Nat.eqb (nat_of_ascii c) 34 then None
      else if Nat.eqb (nat_of_ascii c) 92 then
        match r with
        | EmptyString => None
        | String d r' =>
            match nat_of_ascii d with
            | 98%nat => Some (ascii_of_nat 8, r')
            | 116%nat => Some (ascii_of_nat 9, r')
            | 110%nat => Some (ascii_of_nat 10, r')
            | 102%nat => Some (ascii_of_nat 12, r')
            | 114%nat => Some (ascii_of_nat 13, r')
            | 34%nat => Some (ascii_of_nat 34, r')
            | 92%nat => Some (ascii_of_nat 92, r')
            | 117%nat =>
                match r' with
                | String h3 (String h2 (String h1 (String h0 r''))) =>
                    match hex_value h3, hex_value h2, hex_value h1, hex_value h0 with
                    | Some a, Some b, Some c, Some d =>
                        Some (ascii_of_nat (4096 * a + 256 * b + 16 * c + d), r'')
                    | _, _, _, _ => None
                    end
                | _ => None
                end
            | _ => None
            end
        end
      else Some (c, r)
  end.

Fixpoint has_comma (s : string) : bool :=
  match s with
  | EmptyString => false
  | String c r => Nat.eqb (nat_of_ascii c) 44 || has_comma r
  end.

(** A classification code that the comma-joined list keeps apart from
    its neighbours: not empty, no comma. *)
Definition clean (s : string) : bool :=
  negb (String.eqb s EmptyString) && negb (has_comma s).

Definition clean_codes (w : list Classification) : Prop :=
  Forall (fun c => clean (classification_code c) = true) w.

Definition same_set (l1 l2 : list string) : Prop :=
  forall c, In c l1 <-> In c l2.

(** The What and the Who codes of two classification lists are the same
    sets. *)
Definition same_codes (w1 w2 : list Classification) : Prop :=
  same_set (CacheKey.codes_of_type "What" w1) (CacheKey.codes_of_type "What" w2) /\
  same_set (CacheKey.codes_of_type "Who" w1) (CacheKey.codes_of_type "Who" w2).

Definition with_income (p : CharityProfile) (i : option Z) : CharityProfile :=
  {| reg_charity_number := reg_charity_number p; charity_name := charity_name p;
     latest_income := i; who_what_where := who_what_where p;
     CharityAoORegion := CharityAoORegion p |}.

Definition with_classifications (p : CharityProfile) (w : list Classification)
    : CharityProfile :=
  {| reg_charity_number := reg_charity_number p; charity_name := charity_name p;
     latest_income := latest_income p; who_what_where := Some w;
     CharityAoORegion := CharityAoORegion p |}.

End KeyFacts.

(** Sample data for the concrete cases. *)
Module Samples.

Local Open Scope string_scope.

Definition what (code : string) : Classification :=
  {| classification_code := code; classification_type := "What";
     classification_desc := "activity" |}.

Definition who (code : string) : Classification :=
  {| classification_code := code; classification_type := "Who";
     classification_desc := "beneficiaries" |}.

Definition charity : CharityProfile :=
  {| reg_charity_number := 1234567%Z;
     charity_name := "Riverside Youth Trust";
     latest_income := Some 52000%Z;
     who_what_where := Some [what "102"; who "201"; what "101"];
     CharityAoORegion := Some [ {| region := "London" |} ] |}.

Definition funder_ids : list string := ["GB-CHC-2002"; "GB-CHC-1001"].

End Samples.

(** Vocabulary of the rate limiter's properties. *)
Module LimiterFacts.

Import RateLimiter.

(** Consecutive entries of the start log are at least the delay apart. *)
Fixpoint paced (l : list (nat * Z)) : Prop :=
  match l with
  | a :: (b :: _) as rest => snd a + RATE_LIMIT_DELAY <= snd b /\ paced rest
  | _ => True
  end.

(** The last start, if any, is at least [delta] before [bound]. *)
Definition last_start_before (delta bound : Z) (s : state) : Prop :=
  forall l u t, started s = (l ++ [(u, t)])%list -> t + delta <= bound.

(** The outcomes of the thunks, in the order in which they settle. *)
Definition settlements (evs : list (Z * action)) : list (nat * outcome) :=
  flat_map (fun ev => match snd ev with
                      | Settle u o => [(u, o)]
                      | _ => []
                      end) evs.

(** Where the one activation of [process] stands. *)
Definition phase (s : state) : Prop :=
  if processing s then
    (running s = [List.length (settled s)] /\ timers s = [] /\
     List.length (started s) = S (List.length (settled s)))
    \/
    (exists d, running s = [] /\ timers s = [d] /\
               List.length (settled s) = List.length (started s) /\
               last_start_before RATE_LIMIT_DELAY d s)
  else
    running s = [] /\ timers s = [] /\ queue s = [] /\
    List.length (settled s) = List.length (started s) /\
    last_start_before RATE_LIMIT_DELAY (clock s) s.

Definition inv (s : state) : Prop :=
  map fst (started s) = seq 0 (List.length (started s)) /\
  queue s = seq (List.length (started s)) (submitted s - List.length (started s)) /\
  (List.length (started s) <= submitted s)%nat /\
  map fst (settled s) = seq 0 (List.length (settled s)) /\
  paced (started s) /\
  last_start_before 0 (clock s) s /\
  phase s.

End LimiterFacts.

(** Vocabulary of the synchronisation's properties. *)
Module SyncFacts.

Import Sync.


Definition is_skip (d : decision) : bool :=
  match d with
  | SkippedOlder | SkippedExisting => true
  | _ => false
  end.

Definition is_upsert (d : decision) : bool :=
  match d with
  | Upserted _ => true
  | _ => false
  end.

Definition count (p : decision -> bool) (j : list (Api.GrantData * decision)) : Z :=
  Z.of_nat (List.length (filter (fun e => p (snd e)) j)).

Definition upserted_rows (j : list (Api.GrantData * decision)) : list Db.Grant :=
  flat_map (fun e => match snd e with
                     | Upserted row => [row]
                     | _ => []
                     end) j.

(** The grants table after the rows of [rows] were upserted in turn. *)
Definition upsert_all (rows : list Db.Grant) (gs : list Db.Grant) : list Db.Grant :=
  fold_left (fun acc row => Db.upsert_grant row acc) rows gs.

(** What a stretch of the run added to the state: the journal entries
    [j], with the counters and the grants table moving accordingly, and
    the incremental skip disposing of the older grants, and of them only. *)
Definition advanced (env : Env) (options : SyncOptions) (st st' : Progress)
    (j : list (Api.GrantData * decision)) : Prop :=
  journal st' = (journal st ++ j)%list /\
  synced st' = synced st + count is_upsert j /\
  skipped st' = skipped st + count is_skip j /\
  Db.grants (store st') = upsert_all (upserted_rows j) (Db.grants (store st)) /\
  (forall g d, In (g, d) j ->
     (older_than_last_sync env options (Api.awardDate (Api.data g)) = true
      <-> d = SkippedOlder)).

(** The [last_grant_made_date] of the organisation [id], if it is there. *)
Definition last_grant_made_date_of (id : string) (st : Db.Store) : option (option string) :=
  option_map Db.last_grant_made_date
    (List.find (fun o => String.eqb (Db.org_id o) id) (Db.organisations st)).

End SyncFacts.

Module SyncSamples.

Local Open Scope string_scope.

(** A date parser for the samples: the digits of an ISO date read as one
    number, anything else being an invalid date. *)
Fixpoint digits (s : string) (acc : Z) : option Z :=
  match s with
  | EmptyString => Some acc
  | String c r =>
      let n := nat_of_ascii c in
      if Nat.eqb n 45 then digits r acc
      else if (48 <=? n)%nat && (n <=? 57)%nat
           then digits r (10 * acc + Z.of_nat (n - 48))%Z
           else None
  end.

Definition iso_date (s : string) : option Z :=
  if String.eqb s EmptyString then None else digits s 0%Z.

Definition grant (id date : string) : Api.GrantData :=
  {| Api.data := {| Api.awardDate := JS.Value date; Api.title := Some id;
                    Api.description := None; Api.amountAwarded := Some 5000%Z;
                    Api.currency := Some "GBP" |};
     Api.recipients := Some [ {| Api.org_id := "GB-CHC-9" |} ];
     Api.funders := Some [ {| Api.org_id := "GB-CHC-1001" |} ];
     Api.grant_id := id |}.

Definition funder : Db.Organisation :=
  {| Db.org_id := "GB-CHC-1001"; Db.name := "Northern Foundation";
     Db.is_funder := true; Db.is_recipient := false;
     Db.funder_stats := Some {| Db.aggregate_grants := 12%Z |};
     Db.recipient_stats := None; Db.last_grant_made_date := None |}.

Definition store : Db.Store :=
  {| Db.organisations := [funder]; Db.grants := [];
     Db.sync_logs := []; Db.match_cache := [] |}.

Definition env (page : list Api.GrantData) : Sync.Env :=
  {| Sync.Date_parse := iso_date;
     Sync.getGrantsMade := fun id =>
       if String.eqb id "GB-CHC-1001"
       then Some {| Api.count := Z.of_nat (List.length page); Api.next := None;
                    Api.results := page |}
       else None;
     Sync.funders_query := Db.Succeeds;
     Sync.probe := fun _ => Db.Succeeds;
     Sync.upsert := fun _ => Db.Succeeds;
     Sync.update_error := fun _ => false |}.

Definition since : string := "2024-01-01".

(** A page with a grant after the last synchronisation, then one before. *)
Definition newer : Api.GrantData := grant "360G-north-0042" "2024-03-05".
Definition older : Api.GrantData := grant "360G-north-0017" "2023-11-20".
Definition page : list Api.GrantData := [newer; older].

(** A page the API returns oldest grant first. *)
Definition ascending_page : list Api.GrantData :=
  [grant "360G-north-0003" "2020-03-01"; grant "360G-north-0051" "2023-09-30"].

Definition incremental_since (D : string) (cap : Z) : Sync.SyncOptions :=
  {| Sync.maxOrgs := 50%Z; Sync.maxGrants := JS.Int cap; Sync.offset := 0%Z;
     Sync.incremental := true; Sync.lastSyncDate := Some D |}.

Definition full (cap : Z) : Sync.SyncOptions :=
  {| Sync.maxOrgs := 50%Z; Sync.maxGrants := JS.Int cap; Sync.offset := 0%Z;
     Sync.incremental := false; Sync.lastSyncDate := None |}.

End SyncSamples.

Module LimiterSamples.

Import RateLimiter.

(** Three units submitted at once; the second one fails. *)
Definition events : list (Z * action) :=
  [(0, Add); (0, Add); (0, Add);
   (120, Settle 0 (Fulfilled 7));
   (620, Timeout 620);
   (700, Settle 1 (Rejected 404));
   (1200, Timeout 1200)].

Definition final : state :=
  {| queue := []; processing := true; running := [2%nat]; timers := [];
     clock := 1200; submitted := 3;
     started := [(0%nat, 0); (1%nat, 620); (2%nat, 1200)];
     settled := [(0%nat, Fulfilled 7); (1%nat, Rejected 404)] |}.

End LimiterSamples.

(** Vocabulary of the properties of the cache and of the matching. *)
Module MatchFacts.

Import Matching.

(** The unique constraint on [(charity_number, cache_key)]. *)
Definition entry_key (e : Db.MatchCacheEntry) : Z * string :=
  (Db.charity_number e, Db.cache_key e).

Definition unique_keys (c : list Db.MatchCacheEntry) : Prop :=
  NoDup (map entry_key c).

(** A ranked list: descending scores, at most twenty matches. *)
Definition ranked (ms : list Db.FunderMatch) : Prop :=
  StronglySorted (fun a b => Db.match_score b <= Db.match_score a) ms /\
  (List.length ms <= 20)%nat.

(** Every cached list is a ranked list. *)
Definition cache_ranked (st : Db.Store) : Prop :=
  Forall (fun e => ranked (Db.matches e)) (Db.match_cache st).

(** The text handed to [JSON.parse]. *)
Definition json_text (responseText : string) : string :=
  match fenced responseText with
  | Some inner => inner
  | None => responseText
  end.

(** The item names a funder of the list queried in step 1. *)
Definition known (funders : list Db.Organisation) (m : MatchResponseItem) : Prop :=
  In (funder_org_id m) (map Db.org_id funders).

(** The environment with other faults of the cache writes. *)
Definition with_write_faults (env : Env) (last_sync write : Db.fault) : Env :=
  {| now := now env; plus_days := plus_days env; funders_query := funders_query env;
     cache_read := cache_read env; grants_query := grants_query env;
     last_sync_query := last_sync; cache_write := write;
     cache_delete := cache_delete env; timestamp := timestamp env;
     claude := claude env; JSON_parse := JSON_parse env;
     buildMatchingPrompt := buildMatchingPrompt env |}.

Definition failing (f : Db.fault) : Prop := f <> Db.Succeeds.

(** The environment with other faults of the cache: of its read, and of
    the two queries of its write. *)
Definition with_cache_faults (env : Env) (read last_sync write : Db.fault) : Env :=
  {| now := now env; plus_days := plus_days env; funders_query := funders_query env;
     cache_read := read; grants_query := grants_query env;
     last_sync_query := last_sync; cache_write := write;
     cache_delete := cache_delete env; timestamp := timestamp env;
     claude := claude env; JSON_parse := JSON_parse env;
     buildMatchingPrompt := buildMatchingPrompt env |}.

(** The ranked list that a call makes of the matches it parsed. *)
Definition top_twenty (ms : list Db.FunderMatch) : list Db.FunderMatch :=
  JS.slice0 20 (JS.sort by_score_desc ms).

(** The cache key of a call. *)
Definition call_key (p : CharityProfile) (w : World) : string :=
  CacheKey.generateCacheKey p (map Db.org_id (select_funders (db w))).

(** The list that the lookup of the cache serves to a call, if it serves
    one. *)
Definition served (env : Env) (p : CharityProfile) (force : bool) (w : World)
    : option (list Db.FunderMatch) :=
  if force then None
  else match fst (checkCache env (reg_charity_number p) (call_key p w) w) with
       | Ok c => if hit c then matches c else None
       | Err _ => None
       end.

(** The computation of a call succeeds with the matches [ms]: the funder
    query answers with a funder at least, every sample of grants is
    fetched, the scoring service answers with a text, and the text parses
    to [ms].  Nothing of it depends on the cache. *)
Definition computes (env : Env) (p : CharityProfile) (w : World)
    (ms : list Db.FunderMatch) : Prop :=
  funders_query env = Db.Succeeds /\
  select_funders (db w) <> [] /\
  exists fwg content text,
    fst (mapM (fetch_sample env) (select_funders (db w)) w) = Ok fwg /\
    claude env (buildMatchingPrompt env p fwg) = inr content /\
    first_text content = Some text /\
    parseMatchingResponse env text fwg = Ok ms.

End MatchFacts.

Module MatchSamples.

Local Open Scope string_scope.

Definition org (id name : string) (is_funder : bool) (n : Z) : Db.Organisation :=
  {| Db.org_id := id; Db.name := name; Db.is_funder := is_funder;
     Db.is_recipient := negb is_funder;
     Db.funder_stats := if is_funder then Some {| Db.aggregate_grants := n |} else None;
     Db.recipient_stats := None; Db.last_grant_made_date := None |}.

Definition northern : Db.Organisation := org "GB-CHC-1001" "Northern Foundation" true 12.
Definition harbour : Db.Organisation := org "GB-CHC-2002" "Harbour Trust" true 30.
Definition shelter : Db.Organisation := org "GB-CHC-3003" "Night Shelter" false 0.

Definition breakdown (n : Z) : Db.ScoreBreakdown :=
  {| Db.mission_alignment := n; Db.geographic_fit := n; Db.size_compatibility := n;
     Db.activity_level := n; Db.historical_precedent := n |}.

Definition item (id : string) (score : Z) : Matching.MatchResponseItem :=
  {| Matching.funder_org_id := id; Matching.match_score := score;
     Matching.score_breakdown := breakdown score;
     Matching.reasoning := "track record";
     Matching.similar_charities_funded := None |}.

Definition entry (last_sync : option Z) : Db.MatchCacheEntry :=
  {| Db.charity_number := 1234567; Db.cache_key := "600a013ddc04b054628f885be3b6aab8";
     Db.cached_name := "Riverside Youth Trust"; Db.matches := [];
     Db.funder_count := 0; Db.last_sync_at := last_sync;
     Db.created_at := 150; Db.expires_at := 1000000 |}.

Definition store (orgs : list Db.Organisation) (cache : list Db.MatchCacheEntry)
    : Db.Store :=
  {| Db.organisations := orgs; Db.grants := [];
     Db.sync_logs := [ {| Db.sync_type := "full"; Db.status := "completed";
                          Db.completed_at := Some 100%Z |} ];
     Db.match_cache := cache |}.

Definition world (orgs : list Db.Organisation) (cache : list Db.MatchCacheEntry)
    : Matching.World :=
  {| Matching.db := store orgs cache; Matching.trace := [] |}.

(** An environment whose scoring service answers with [items], under the
    given faults of the funder query, the cache read and the cache
    delete. *)
Definition env (items : list Matching.MatchResponseItem)
    (funders read delete : Db.fault) : Matching.Env :=
  {| Matching.now := 5000;
     Matching.plus_days := fun t n => (t + n * 86400000)%Z;
     Matching.funders_query := funders;
     Matching.cache_read := read;
     Matching.grants_query := fun _ => Db.Succeeds;
     Matching.last_sync_query := Db.Succeeds;
     Matching.cache_write := Db.Succeeds;
     Matching.cache_delete := delete;
     Matching.timestamp := fun _ => 0%Z;
     Matching.claude := fun _ => inr [Matching.TextBlock "scores"];
     Matching.JSON_parse := fun s => if String.eqb s "scores" then Some items else None;
     Matching.buildMatchingPrompt := fun p _ => charity_name p |}.

Definition healthy (items : list Matching.MatchResponseItem) : Matching.Env :=
  env items Db.Succeeds Db.Succeeds Db.Succeeds.

(** An environment whose scoring service is down, under the given fault
    of the cache read. *)
Definition scoring_down (read : Db.fault) : Matching.Env :=
  {| Matching.now := 5000;
     Matching.plus_days := fun t n => (t + n * 86400000)%Z;
     Matching.funders_query := Db.Succeeds;
     Matching.cache_read := read;
     Matching.grants_query := fun _ => Db.Succeeds;
     Matching.last_sync_query := Db.Succeeds;
     Matching.cache_write := Db.Succeeds;
     Matching.cache_delete := Db.Succeeds;
     Matching.timestamp := fun _ => 0%Z;
     Matching.claude := fun _ => inl "scoring service unavailable";
     Matching.JSON_parse := fun _ => None;
     Matching.buildMatchingPrompt := fun p _ => charity_name p |}.

(** The match of a funder, as a cached list holds it. *)
Definition cached_match (f : Db.Organisation) (score : Z) : Db.FunderMatch :=
  {| Db.funder := f; Db.match_score := score;
     Db.score_breakdown := breakdown score; Db.reasoning := "track record";
     Db.similar_charities_funded := [] |}.

(** A live entry of the cache for the sample charity and the two sample
    funders: its key is the key of their call, and it expires after the
    clock of the sample environments. *)
Definition live_entry : Db.MatchCacheEntry :=
  {| Db.charity_number := 1234567;
     Db.cache_key :=
       CacheKey.generateCacheKey Samples.charity ["GB-CHC-2002"; "GB-CHC-1001"];
     Db.cached_name := "Riverside Youth Trust";
     Db.matches := [cached_match harbour 85; cached_match northern 70];
     Db.funder_count := 2; Db.last_sync_at := Some 100%Z;
     Db.created_at := 150; Db.expires_at := 1000000 |}.

(** A process whose clock goes forward an hour within the week that
    follows the instant 0: seven calendar days are an hour short of
    seven times 24 hours.  Everything else goes through. *)
Definition summer_time (t : Z) : Matching.Env :=
  {| Matching.now := t;
     Matching.plus_days := fun t n => (t + n * 86400000 - 3600000)%Z;
     Matching.funders_query := Db.Succeeds;
     Matching.cache_read := Db.Succeeds;
     Matching.grants_query := fun _ => Db.Succeeds;
     Matching.last_sync_query := Db.Succeeds;
     Matching.cache_write := Db.Succeeds;
     Matching.cache_delete := Db.Succeeds;
     Matching.timestamp := fun _ => 0%Z;
     Matching.claude := fun _ => inr [Matching.TextBlock "scores"];
     Matching.JSON_parse := fun _ => Some [];
     Matching.buildMatchingPrompt := fun p _ => charity_name p |}.

End MatchSamples.

(** Further vocabulary of the cache. *)
Module CacheFacts.

Import Matching MatchFacts.

(** No row of another charity sits under [key]. *)
Definition key_free (p : CharityProfile) (key : string)
    (c : list Db.MatchCacheEntry) : Prop :=
  forall e, In e c -> Db.cache_key e = key ->
            Db.charity_number e = reg_charity_number p.

(** The store that differs from [st] by its cache only. *)
Definition with_cache (w : World) (c : list Db.MatchCacheEntry) : World :=
  {| db := Db.set_match_cache (db w) c; trace := trace w |}.

(** The [last_sync_at] that [saveToCache] stamps on the row it stores. *)
Definition sync_stamp (env : Env) (st : Db.Store) : option Z :=
  match last_sync_query env with
  | Db.Succeeds =>
      match last_completed (Db.sync_logs st) with
      | Some t => t
      | None => None
      end
  | _ => None
  end.

End CacheFacts.

(** Further vocabulary of the cache key. *)
Module KeyShape.

(** A lowercase hexadecimal digit. *)
Definition is_hex (c : ascii) : bool :=
  existsb (Ascii.eqb c) (list_ascii_of_string "0123456789abcdef").

(** The classification codes of a type, of a profile that may lack its
    classifications. *)
Definition codes (ty : string) (p : CharityProfile) : list string :=
  match who_what_where p with
  | Some w => CacheKey.codes_of_type ty w
  | None => []
  end.

Definition regions (p : CharityProfile) : list string :=
  match CharityAoORegion p with
  | Some r => map region r
  | None => []
  end.

End KeyShape.

(** Further vocabulary of the synchronisation. *)
Module SyncShape.

Import Sync.

Definition grant_ids (st : Db.Store) : list string := map Db.grant_id (Db.grants st).

(** An organisation without its [last_grant_made_date]. *)
Definition undated (o : Db.Organisation) : Db.Organisation :=
  {| Db.org_id := Db.org_id o; Db.name := Db.name o; Db.is_funder := Db.is_funder o;
     Db.is_recipient := Db.is_recipient o; Db.funder_stats := Db.funder_stats o;
     Db.recipient_stats := Db.recipient_stats o; Db.last_grant_made_date := None |}.

(** The state after [touch_funder] set the date of [id] to [d]. *)
Definition touched (st : Progress) (id : string) (d : option string) : Progress :=
  {| synced := synced st; skipped := skipped st;
     store := Db.set_organisations (store st)
                (Db.update_last_grant_made_date id d (Db.organisations (store st)));
     journal := journal st |}.

End SyncShape.

(** Vocabulary of the repeated run. *)
Module Rerun.



End Rerun.

(** Further vocabulary of the rate limiter. *)
Module LimiterShape.

Import RateLimiter.

(** The number of calls to [add] among the events. *)
Definition adds (evs : list (Z * action)) : nat :=
  List.length (filter (fun ev => match snd ev with Add => true | _ => false end) evs).

(** Nothing is in flight, armed or waiting, and [process] is not active. *)
Definition idle (s : state) : Prop :=
  queue s = [] /\ running s = [] /\ timers s = [] /\ processing s = false.

End LimiterShape.

(** ** The organisation phase and the route handlers

    The handler [POST] of the synchronisation route, with
    [syncOrganisations], and the handler [GET] of the scheduled route that
    calls it.  Of the query parameters, [maxOrgs] and [offset] are taken
    as the integers [parseInt] read, and [maxGrants], the cap of the
    grant phase, as the number it read, [NaN] included; of a row of
    [sync_logs] the model keeps the columns that some code reads back,
    and the position of a row stands for its [id]. *)

Module OrgApi.

Record OrgSummary := { org_id : string; name : string }.

Record OrganisationListResponse := {
  count : Z;
  next : option string;
  results : list OrgSummary
}.

Record OrganisationDetailResponse := {
  funder : JS.field Db.FunderStats;
  recipient : JS.field Db.FunderStats
}.

End OrgApi.

Module Route.

(** What a request meets outside the code: the environment of the grant
    phase, the two organisation endpoints behind the rate limiter (a
    rejected call gives its message, or nothing where the caller catches
    it), the faults of the store, the clock reading written as
    [completed_at], and the text the store's client returns for a stored
    timestamp. *)
Record Env := {
  sync : Sync.Env;
  getOrganisations : Z -> Z -> string + OrgApi.OrganisationListResponse;
  getOrganisationDetail : string -> option OrgApi.OrganisationDetailResponse;
  org_upsert_error : string -> bool;
  last_sync_query : Db.fault;
  log_insert : Db.fault;
  log_complete : Db.fault;
  log_fail : Db.fault;
  finished_at : Z;
  timestamp_text : Z -> string
}.

(** [Array.prototype.slice(0, n)] for an integer [n]: a negative [n]
    counts from the end. *)
Definition slice_to {A} (n : Z) (l : list A) : list A :=
  if n <? 0 then firstn (Z.to_nat (Z.of_nat (List.length l) + n)) l
  else firstn (Z.to_nat n) l.

(** [field !== null] *)
Definition not_null {A} (f : JS.field A) : bool :=
  match f with
  | JS.Null => false
  | _ => true
  end.

(** The column after an upsert whose payload carries [f]: a missing
    field is not in the payload, which leaves the column as it is. *)
Definition written {A} (f : JS.field A) (old : option A) : option A :=
  match f with
  | JS.Undefined => old
  | JS.Null => None
  | JS.Value a => Some a
  end.

(** The row an upsert leaves; [old] is the row in conflict, if any.  The
    payload has no [last_grant_made_date]. *)
Definition org_row (org : OrgApi.OrgSummary) (detail : OrgApi.OrganisationDetailResponse)
    (old : option Db.Organisation) : Db.Organisation :=
  {| Db.org_id := OrgApi.org_id org;
     Db.name := OrgApi.name org;
     Db.is_funder := not_null (OrgApi.funder detail);
     Db.is_recipient := not_null (OrgApi.recipient detail);
     Db.funder_stats :=
       written (OrgApi.funder detail)
         (match old with Some o => Db.funder_stats o | None => None end);
     Db.recipient_stats :=
       written (OrgApi.recipient detail)
         (match old with Some o => Db.recipient_stats o | None => None end);
     Db.last_grant_made_date :=
       match old with Some o => Db.last_grant_made_date o | None => None end |}.

(** [upsert(row, { onConflict: org_id })] *)
Fixpoint upsert_org (org : OrgApi.OrgSummary) (detail : OrgApi.OrganisationDetailResponse)
    (os : list Db.Organisation) : list Db.Organisation :=
  match os with
  | [] => [org_row org detail None]
  | o :: rest =>
      if String.eqb (Db.org_id o) (OrgApi.org_id org)
      then org_row org detail (Some o) :: rest
      else o :: upsert_org org detail rest
  end.

(** The body of the loop of [syncOrganisations]: a rejected detail call
    and a failed upsert are logged and the organisation is not counted. *)
Definition sync_org (env : Env) (acc : Z * Db.Store) (org : OrgApi.OrgSummary)
    : Z * Db.Store :=
  match getOrganisationDetail env (OrgApi.org_id org) with
  | None => acc
  | Some detail =>
      if org_upsert_error env (OrgApi.org_id org) then acc
      else (fst acc + 1,
            Db.set_organisations (snd acc)
              (upsert_org org detail (Db.organisations (snd acc))))
  end.

Definition syncOrganisations (env : Env) (maxOrgs offset : Z) (st : Db.Store)
    : (string + Z) * Db.Store :=
  match getOrganisations env maxOrgs offset with
  | inl m => (inl m, st)
  | inr response =>
      let orgsToProcess := slice_to maxOrgs (OrgApi.results response) in
      let final := fold_left (sync_org env) orgsToProcess (0%Z, st) in
      (inr (fst final), snd final)
  end.

Record Request := {
  maxOrgs : Z;
  maxGrants : JS.number;
  offset : Z;
  forceFullSync : bool
}.

Record SyncResult := {
  success : bool;
  organisations_synced : Z;
  grants_synced : Z;
  grants_skipped : Z;
  sync_type : string;
  last_sync_date : option string;
  error : option string
}.

(** The handler answers, or its promise rejects. *)
Inductive outcome : Type :=
  | Rejects (message : string)
  | Responds (status : Z) (body : SyncResult).

Definition set_sync_logs (st : Db.Store) (logs : list Db.SyncLog) : Db.Store :=
  {| Db.organisations := Db.organisations st; Db.grants := Db.grants st;
     Db.sync_logs := logs; Db.match_cache := Db.match_cache st |}.

(** The date of the last completed synchronisation, read before the
    [try]: an error reply gives no row; a rejection rejects the handler. *)
Definition last_sync (env : Env) (st : Db.Store) : string + option string :=
  match last_sync_query env with
  | Db.Throws m => inl m
  | Db.ReturnsError _ => inr None
  | Db.Succeeds =>
      match Matching.last_completed (Db.sync_logs st) with
      | Some (Some t) =>
          if Sync.truthy (Some (timestamp_text env t))
          then inr (Some (timestamp_text env t))
          else inr None
      | _ => inr None
      end
  end.

(** [syncOptions], or the message of the rejection. *)
Definition options (env : Env) (req : Request) (st : Db.Store) : string + Sync.SyncOptions :=
  let full := {| Sync.maxOrgs := maxOrgs req; Sync.maxGrants := maxGrants req;
                 Sync.offset := offset req; Sync.incremental := false;
                 Sync.lastSyncDate := None |} in
  if forceFullSync req then inr full
  else match last_sync env st with
       | inl m => inl m
       | inr None => inr full
       | inr (Some d) =>
           inr {| Sync.maxOrgs := maxOrgs req; Sync.maxGrants := maxGrants req;
                  Sync.offset := offset req; Sync.incremental := true;
                  Sync.lastSyncDate := Some d |}
       end.

Definition syncType (o : Sync.SyncOptions) : string :=
  if Sync.incremental o then "incremental"%string else "full"%string.

(** The insert of the log row; [logId] is its position. *)
Definition log_start (env : Env) (o : Sync.SyncOptions) (st : Db.Store)
    : string + option nat * Db.Store :=
  match log_insert env with
  | Db.Throws m => inl m
  | Db.ReturnsError _ => inr (None, st)
  | Db.Succeeds =>
      inr (Some (List.length (Db.sync_logs st)),
           set_sync_logs st
             (Db.sync_logs st ++
              [ {| Db.sync_type := syncType o; Db.status := "running"%string;
                   Db.completed_at := None |} ])%list)
  end.

(** [update({ status, completed_at }).eq(id, logId)] on the list. *)
Fixpoint update_log (i : nat) (status : string) (t : Z) (logs : list Db.SyncLog)
    : list Db.SyncLog :=
  match logs, i with
  | [], _ => []
  | l :: rest, O =>
      {| Db.sync_type := Db.sync_type l; Db.status := status;
         Db.completed_at := Some t |} :: rest
  | l :: rest, S k => l :: update_log k status t rest
  end.

(** [if (logId) await ...update(...)]: the message if the call rejects. *)
Definition log_end (env : Env) (logId : option nat) (status : string) (f : Db.fault)
    (st : Db.Store) : option string * Db.Store :=
  match logId with
  | None => (None, st)
  | Some i =>
      match f with
      | Db.Throws m => (Some m, st)
      | Db.ReturnsError _ => (None, st)
      | Db.Succeeds =>
          (None, set_sync_logs st (update_log i status (finished_at env) (Db.sync_logs st)))
      end
  end.

(** The two phases: the counters, or the message of what was thrown. *)
Definition phases (env : Env) (o : Sync.SyncOptions) (st : Db.Store)
    : (string + Z * Z * Z) * Db.Store :=
  let orgs := if negb (Sync.incremental o) || (Sync.offset o >? 0)
              then syncOrganisations env (Sync.maxOrgs o) (Sync.offset o) st
              else (inr 0%Z, st) in
  match orgs with
  | (inl m, st1) => (inl m, st1)
  | (inr orgsSynced, st1) =>
      match Sync.syncGrantsForFunders (sync env) o st1 with
      | (inl m, final) => (inl m, Sync.store final)
      | (inr (grantsSynced, grantsSkipped), final) =>
          (inr (orgsSynced, grantsSynced, grantsSkipped), Sync.store final)
      end
  end.

Definition failure (o : Sync.SyncOptions) (m : string) : outcome :=
  Responds 500
    {| success := false; organisations_synced := 0; grants_synced := 0;
       grants_skipped := 0; sync_type := syncType o; last_sync_date := None;
       error := Some m |}.

(** The inner [catch]: mark the log failed and throw again; a rejection
    of the update replaces the error. *)
Definition fail (env : Env) (o : Sync.SyncOptions) (logId : option nat) (m : string)
    (st : Db.Store) : outcome * Db.Store :=
  match log_end env logId "failed"%string (log_fail env) st with
  | (None, st') => (failure o m, st')
  | (Some m', st') => (failure o m', st')
  end.

Definition POST (env : Env) (req : Request) (st : Db.Store) : outcome * Db.Store :=
  match options env req st with
  | inl m => (Rejects m, st)
  | inr o =>
      match log_start env o st with
      | inl m => (failure o m, st)
      | inr (logId, st0) =>
          match phases env o st0 with
          | (inl m, st1) => fail env o logId m st1
          | (inr (orgsSynced, grantsSynced, grantsSkipped), st1) =>
              match log_end env logId "completed"%string (log_complete env) st1 with
              | (Some m, st2) => fail env o logId m st2
              | (None, st2) =>
                  (Responds 200
                     {| success := true; organisations_synced := orgsSynced;
                        grants_synced := grantsSynced; grants_skipped := grantsSkipped;
                        sync_type := syncType o;
                        last_sync_date := Sync.lastSyncDate o;
                        error := None |},
                   st2)
              end
          end
      end
  end.

(** *** The scheduled route *)

Record CronRequest := {
  authorization : option string;
  x_vercel_cron : option string;
  force : bool;
  cron_maxOrgs : Z;
  cron_maxGrants : JS.number
}.

Definition header_is (h : option string) (v : string) : bool :=
  match h with
  | Some x => String.eqb x v
  | None => false
  end.

(** The guard in front of the scheduled synchronisation. *)
Definition unauthorized (cronSecret : option string) (req : CronRequest) : bool :=
  let isVercelCron := header_is (x_vercel_cron req) "1"%string in
  let hasValidToken :=
    match cronSecret with
    | Some secret => Sync.truthy cronSecret && header_is (authorization req) ("Bearer " ++ secret)%string
    | None => false
    end in
  Sync.truthy cronSecret && negb isVercelCron && negb hasValidToken.

(** [GET]: the status of its answer.  It posts to the synchronisation
    route with [force], [maxOrgs] and [maxGrants], and no [offset]; the
    request is taken to reach the route. *)
Definition GET (env : Env) (cronSecret : option string) (req : CronRequest)
    (st : Db.Store) : Z * Db.Store :=
  if unauthorized cronSecret req then (401, st)
  else
    match POST env {| maxOrgs := cron_maxOrgs req; maxGrants := cron_maxGrants req;
                      offset := 0; forceFullSync := force req |} st with
    | (Responds status _, st') => (if status =? 200 then 200 else 500, st')
    | (Rejects _, st') => (500, st')
    end.

End Route.

(** ** The freshness indicator ([DataFreshnessIndicator]) *)

Module Freshness.

Inductive view : Type :=
  | Nothing       (* the component renders null *)
  | Outdated      (* the alert: the data may be outdated *)
  | UpToDate.     (* the line with the date of the last update *)

Definition DAY_MS : Z := 1000 * 60 * 60 * 24.

(** [Math.floor((Date.now() - syncDate.getTime()) / DAY_MS)] *)
Definition daysSinceSync (now t : Z) : Z := (now - t) / DAY_MS.

(** What the component shows once its effect has run; [query] is the
    fault of the read of [sync_logs]. *)
Definition DataFreshnessIndicator (query : Db.fault) (now : Z) (st : Db.Store) : view :=
  match query with
  | Db.Succeeds =>
      match Matching.last_completed (Db.sync_logs st) with
      | Some (Some t) => if daysSinceSync now t >? 14 then Outdated else UpToDate
      | _ => Nothing
      end
  | _ => Nothing
  end.

End Freshness.

(** Vocabulary of the handlers. *)
Module RouteFacts.

(** What an upsert of an organisation never changes. *)
Definition kept (o : Db.Organisation) : string * option string :=
  (Db.org_id o, Db.last_grant_made_date o).

Definition org_ids (st : Db.Store) : list string := map Db.org_id (Db.organisations st).

(** Every completed row carries a completion time, none after [t]. *)
Definition completed_by (t : Z) (logs : list Db.SyncLog) : Prop :=
  forall l, In l logs -> Matching.is_completed l = true ->
            exists u, Db.completed_at l = Some u /\ u <= t.

(** The invariant of the loop of [syncOrganisations], [done]
    organisations into the page. *)
Definition org_loop_inv (st : Db.Store) (done : nat) (acc : Z * Db.Store) : Prop :=
  (exists added,
     map kept (Db.organisations (snd acc)) = map kept (Db.organisations st) ++ added) /\
  (NoDup (org_ids st) -> NoDup (org_ids (snd acc))) /\
  Db.grants (snd acc) = Db.grants st /\
  Db.sync_logs (snd acc) = Db.sync_logs st /\
  Db.match_cache (snd acc) = Db.match_cache st /\
  0 <= fst acc <= Z.of_nat done.

(** The log row a request that did not complete leaves behind its
    predecessors: none, one still running, or one marked failed. *)
Definition log_tail (fin : Z) (tail : list Db.SyncLog) : Prop :=
  tail = [] \/
  (exists ty, tail = [ {| Db.sync_type := ty; Db.status := "running"%string;
                          Db.completed_at := None |} ]) \/
  (exists ty, tail = [ {| Db.sync_type := ty; Db.status := "failed"%string;
                          Db.completed_at := Some fin |} ]).

(** The log row of a completed request. *)
Definition completed_tail (fin : Z) (tail : list Db.SyncLog) : Prop :=
  exists ty, tail = [ {| Db.sync_type := ty; Db.status := "completed"%string;
                         Db.completed_at := Some fin |} ].

End RouteFacts.

Module RouteSamples.

Local Open Scope string_scope.

Definition harbour : OrgApi.OrgSummary :=
  {| OrgApi.org_id := "GB-CHC-2002"; OrgApi.name := "Harbour Trust" |}.

Definition northern : OrgApi.OrgSummary :=
  {| OrgApi.org_id := "GB-CHC-1001"; OrgApi.name := "Northern Foundation" |}.

Definition finished : Z := 1717200000000%Z.

(** Every call goes through; the listing holds a stored and a new
    organisation. *)
Definition env : Route.Env :=
  {| Route.sync := SyncSamples.env SyncSamples.page;
     Route.getOrganisations := fun _ _ =>
       inr {| OrgApi.count := 2%Z; OrgApi.next := None;
              OrgApi.results := [northern; harbour] |};
     Route.getOrganisationDetail := fun id =>
       if String.eqb id "GB-CHC-2002"
       then Some {| OrgApi.funder := JS.Null;
                    OrgApi.recipient := JS.Value {| Db.aggregate_grants := 3%Z |} |}
       else Some {| OrgApi.funder := JS.Value {| Db.aggregate_grants := 12%Z |};
                    OrgApi.recipient := JS.Null |};
     Route.org_upsert_error := fun _ => false;
     Route.last_sync_query := Db.Succeeds;
     Route.log_insert := Db.Succeeds;
     Route.log_complete := Db.Succeeds;
     Route.log_fail := Db.Succeeds;
     Route.finished_at := finished;
     Route.timestamp_text := fun t =>
       if (t =? finished)%Z then "2024-06-01" else "2024-01-01" |}.

(** The same, with the query for the funders rejected. *)
Definition failing : Route.Env :=
  {| Route.sync :=
       {| Sync.Date_parse := SyncSamples.iso_date;
          Sync.getGrantsMade := fun _ => None;
          Sync.funders_query := Db.Throws "fetch failed";
          Sync.probe := fun _ => Db.Succeeds;
          Sync.upsert := fun _ => Db.Succeeds;
          Sync.update_error := fun _ => false |};
     Route.getOrganisations := Route.getOrganisations env;
     Route.getOrganisationDetail := Route.getOrganisationDetail env;
     Route.org_upsert_error := fun _ => false;
     Route.last_sync_query := Db.Succeeds;
     Route.log_insert := Db.Succeeds;
     Route.log_complete := Db.Succeeds;
     Route.log_fail := Db.Succeeds;
     Route.finished_at := finished;
     Route.timestamp_text := Route.timestamp_text env |}.

Definition request : Route.Request :=
  {| Route.maxOrgs := 50%Z; Route.maxGrants := JS.Int 500; Route.offset := 0%Z;
     Route.forceFullSync := false |}.

(** The store after a first synchronisation completed. *)
Definition synced_store : Db.Store :=
  {| Db.organisations := [SyncSamples.funder]; Db.grants := [];
     Db.sync_logs := [ {| Db.sync_type := "full"; Db.status := "completed";
                          Db.completed_at := Some 1716000000000%Z |} ];
     Db.match_cache := [] |}.

End RouteSamples.

(** Vocabulary of the parsing of the scoring response. *)
Module FenceFacts.

(** The text holds no backtick. *)
Definition plain (s : string) : bool :=
  forallb (fun c => negb (Ascii.eqb c "`"%char)) (list_ascii_of_string s).

(** A response that wraps [body] in a code fence, with text around. *)
Definition wrapped (before body after : string) : string :=
  (before ++ Matching.fence_open ++ body ++ Matching.fence_close ++ after)%string.

End FenceFacts.

(** ** The details of a funder ([getFunderDetails]) *)

Module Details.

Record Env := {
  timestamp : string -> Z;
  funder_query : Db.fault;
  grants_query : Db.fault
}.

Record Stats := {
  total_grants : Z;
  avg_amount : Q;
  earliest : string;
  latest : string
}.

Record FunderDetails := {
  funder : Db.Organisation;
  grants : list Db.Grant;
  stats : Stats
}.

(** [g.award_date && g.amount_awarded]: a date that is present and not
    empty, an amount that is present and not zero. *)
Definition valid (g : Db.Grant) : bool :=
  Sync.truthy (Db.award_date g) &&
  match Db.amount_awarded g with
  | Some a => negb (a =? 0)
  | None => false
  end.

Definition date_of (g : Db.Grant) : string :=
  match Db.award_date g with
  | Some d => d
  | None => EmptyString
  end.

Definition amount_of (g : Db.Grant) : Z :=
  match Db.amount_awarded g with
  | Some a => a
  | None => 0
  end.

(** The query of the grants: those of the funder, latest first (rows
    without a date come first), at most 100. *)
Definition funder_grants (env : Env) (id : string) (st : Db.Store) : list Db.Grant :=
  firstn 100
    (JS.sort (fun a b =>
                Matching.desc_nulls_first (option_map (timestamp env) (Db.award_date a))
                                          (option_map (timestamp env) (Db.award_date b)))
       (filter (fun g => match Db.funder_org_id g with
                         | Some f => String.eqb f id
                         | None => false
                         end) (Db.grants st))).

(** [sum / validGrants.length || 0], as an exact quotient: the division
    of 0 by 0 is not a number, which is falsy, as is 0. *)
Definition average (sum : Z) (n : nat) : Q :=
  match n with
  | O => 0%Q
  | S _ => let q := Qmake sum (Pos.of_nat n) in
           if Qeq_bool q 0%Q then 0%Q else q
  end.

Definition stats_of (grants : list Db.Grant) : Stats :=
  let validGrants := filter valid grants in
  let dates := JS.sort_strings (map date_of validGrants) in
  {| total_grants := Z.of_nat (List.length validGrants);
     avg_amount :=
       average (fold_left (fun sum g => sum + amount_of g) validGrants 0)
               (List.length validGrants);
     earliest := match dates with
                 | [] => EmptyString
                 | d :: _ => JS.str_or d EmptyString
                 end;
     latest := JS.str_or (List.last dates EmptyString) EmptyString |}.

Definition getFunderDetails (env : Env) (funderOrgId : string) (st : Db.Store)
    : string + FunderDetails :=
  match funder_query env with
  | Db.Throws m => inl m
  | Db.ReturnsError _ => inl ("Funder not found: " ++ funderOrgId)%string
  | Db.Succeeds =>
      match Matching.single
              (filter (fun o => String.eqb (Db.org_id o) funderOrgId)
                 (Db.organisations st)) with
      | None => inl ("Funder not found: " ++ funderOrgId)%string
      | Some funder =>
          match grants_query env with
          | Db.Throws m => inl m
          | Db.ReturnsError m => inl ("Failed to fetch grants: " ++ m)%string
          | Db.Succeeds =>
              let grants := funder_grants env funderOrgId st in
              inr {| funder := funder; grants := grants; stats := stats_of grants |}
          end
      end
  end.

End Details.

Module DetailsSamples.

Local Open Scope string_scope.

Definition env : Details.Env :=
  {| Details.timestamp := fun s => match SyncSamples.iso_date s with
                                   | Some t => t
                                   | None => 0%Z
                                   end;
     Details.funder_query := Db.Succeeds;
     Details.grants_query := Db.Succeeds |}.

Definition row (id date : string) (amount : Z) : Db.Grant :=
  {| Db.grant_id := id; Db.title := None; Db.description := None;
     Db.amount_awarded := Some amount; Db.currency := "GBP";
     Db.award_date := Some date;
     Db.funder_org_id := Some "GB-CHC-1001"; Db.recipient_org_id := None |}.

(** Three grants of the funder, one of them of amount zero. *)
Definition store : Db.Store :=
  {| Db.organisations := [SyncSamples.funder];
     Db.grants := [row "a" "2023-05-01" 4000; row "b" "2024-02-10" 0;
                   row "c" "2022-11-30" 6000];
     Db.sync_logs := []; Db.match_cache := [] |}.

End DetailsSamples.

(** ** The calls of the 360Giving client and its pagination helpers

    What each call returns once the rate limiter has run its thunk: the
    body of the answer, or the message of the error thrown. *)

Module Client.

Local Open Scope string_scope.

Definition API_BASE_URL : string := "https://api.threesixtygiving.org/api/v1".

(** The answer of [fetch]: its status and its body as JSON. *)
Record HttpResponse (A : Type) := { status : Z; json : A }.
Arguments status {A} _.
Arguments json {A} _.

(** [response.ok] *)
Definition ok {A} (r : HttpResponse A) : bool :=
  (200 <=? status r)%Z && (status r <=? 299)%Z.

Definition api_error (s : Z) : string := "360Giving API error: " ++ Json.number s.

Definition org_list_url (limit offset : Z) : string :=
  API_BASE_URL ++ "/org/?limit=" ++ Json.number limit ++ "&offset=" ++ Json.number offset.

(** [encode] is [encodeURIComponent]. *)
Definition grants_made_url (encode : string -> string) (orgId : string) (limit offset : Z)
    : string :=
  API_BASE_URL ++ "/org/" ++ encode orgId ++ "/grants_made/?limit=" ++ Json.number limit
    ++ "&offset=" ++ Json.number offset.

(** [fetch] answers, or rejects with a message. *)
Definition getOrganisations
    (fetch : string -> string + HttpResponse OrgApi.OrganisationListResponse)
    (limit offset : Z) : string + OrgApi.OrganisationListResponse :=
  match fetch (org_list_url limit offset) with
  | inl m => inl m
  | inr response =>
      if ok response then inr (json response) else inl (api_error (status response))
  end.

Definition getGrantsMade (encode : string -> string)
    (fetch : string -> string + HttpResponse Api.GrantsResponse)
    (orgId : string) (limit offset : Z) : string + Api.GrantsResponse :=
  match fetch (grants_made_url encode orgId limit offset) with
  | inl m => inl m
  | inr response =>
      if ok response then inr (json response)
      else if (status response =? 404)%Z then inl "Organisation not found"
      else inl (api_error (status response))
  end.

(** The variables of a pagination helper. *)
Record Cursor := { offset : Z; hasMore : bool }.

Definition start : Cursor := {| offset := 0; hasMore := true |}.

(** What resuming a generator gives: it is done, it throws, or it yields
    a page; the cursor is the one the loop has after the yield. *)
Inductive resumed (A : Type) : Type :=
  | Done
  | Threw (m : string)
  | Yielded (page : list A) (c : Cursor).
Arguments Done {A}.
Arguments Threw {A} _.
Arguments Yielded {A} _ _.

(** One turn of [while (hasMore)]. *)
Definition turn {R A} (get : Z -> Z -> string + R) (results : R -> list A)
    (next : R -> option string) (limit : Z) (c : Cursor) : resumed A :=
  if hasMore c then
    match get limit (offset c) with
    | inl m => Threw m
    | inr response =>
        Yielded (results response)
          {| offset := offset c + limit;
             hasMore := match next response with Some _ => true | None => false end |}
    end
  else Done.

Definition fetchAllOrganisations
    (fetch : string -> string + HttpResponse OrgApi.OrganisationListResponse)
    (c : Cursor) : resumed OrgApi.OrgSummary :=
  turn (getOrganisations fetch) OrgApi.results OrgApi.next 1000 c.

Definition fetchAllGrantsMade (encode : string -> string)
    (fetch : string -> string + HttpResponse Api.GrantsResponse)
    (orgId : string) (c : Cursor) : resumed Api.GrantData :=
  turn (getGrantsMade encode fetch orgId) Api.results Api.next 100 c.

(** [for await (const page of generator)]: the pages received, and the
    error if the generator threw; [None] when [fuel] resumptions do not
    exhaust it. *)
Fixpoint consume {A} (fuel : nat) (resume : Cursor -> resumed A) (c : Cursor)
    : option (list (list A) * option string) :=
  match fuel with
  | O => None
  | S fuel' =>
      match resume c with
      | Done => Some ([], None)
      | Threw m => Some ([], Some m)
      | Yielded page c' =>
          match consume fuel' resume c' with
          | Some (pages, e) => Some (page :: pages, e)
          | None => None
          end
      end
  end.

End Client.

(** Vocabulary of the pagination. *)
Module Paging.

(** The endpoint serves [items] in pages: asked for page [k] it answers
    with the items from [limit * k] on, at most [limit] of them, and a
    link to the next page exactly when items remain behind the page. *)
Definition serves {R A} (get : Z -> Z -> string + R) (results : R -> list A)
    (next : R -> option string) (limit : Z) (items : list A) : Prop :=
  forall k : nat,
    exists response,
      get limit (limit * Z.of_nat k) = inr response /\
      results response = firstn (Z.to_nat limit) (skipn (Z.to_nat limit * k) items) /\
      (next response = None <-> (List.length items <= Z.to_nat limit * S k)%nat).

End Paging.

Module PagingSamples.

Local Open Scope string_scope.

Definition orgId : string := "GB-CHC-1001".

(** 150 grants, served in two pages. *)
Definition grants : list Api.GrantData :=
  map (fun i => SyncSamples.grant (Json.number (Z.of_nat i)) "2024-02-02") (seq 0 150).

Definition page (k : nat) : Client.HttpResponse Api.GrantsResponse :=
  {| Client.status := 200;
     Client.json :=
       {| Api.count := 150%Z;
          Api.next := if (k <? 1)%nat then Some "next" else None;
          Api.results := firstn 100 (skipn (100 * k) grants) |} |}.

Definition fetch (url : string) : string + Client.HttpResponse Api.GrantsResponse :=
  if String.eqb url (Client.grants_made_url (fun s => s) orgId 100 0) then inr (page 0)
  else if String.eqb url (Client.grants_made_url (fun s => s) orgId 100 100)
       then inr (page 1)
       else inr (page 2).

End PagingSamples.

(* ================================================================== *)
(** * Part II: properties *)
(* ================================================================== *)

(** ** The sort *)

Section SortFacts.

Context {A : Type} (cmp : A -> A -> Z).

Lemma insert_perm (x : A) (l : list A) : Permutation (JS.insert cmp x l) (x :: l).
Proof.
  induction l as [|y l IH]; simpl; [reflexivity|].
  destruct (cmp x y <=? 0); [reflexivity|].
  rewrite IH. apply perm_swap.
Qed.

Lemma sort_perm (l : list A) : Permutation (JS.sort cmp l) l.
Proof.
  induction l as [|x l IH]; simpl; [reflexivity|].
  rewrite insert_perm. now constructor.
Qed.

Lemma sort_length (l : list A) : List.length (JS.sort cmp l) = List.length l.
Proof. apply Permutation_length, sort_perm. Qed.

(** The comparator is the one of a total preorder. *)
Hypothesis before_total : forall x y, before cmp x y \/ before cmp y x.
Hypothesis before_trans :
  forall x y z, before cmp x y -> before cmp y z -> before cmp x z.

Lemma insert_sorted (x : A) (l : list A) :
  StronglySorted (before cmp) l -> StronglySorted (before cmp) (JS.insert cmp x l).
Proof.
  induction 1 as [|y l Hs IH Hall]; simpl.
  - repeat constructor.
  - destruct (Z.leb_spec (cmp x y) 0) as [Hle|Hgt].
    + constructor; [now constructor|].
      constructor; [exact Hle|].
      rewrite Forall_forall in *. intros z Hz. eapply before_trans; eauto.
    + constructor; [exact IH|].
      rewrite Forall_forall in *. intros z Hz.
      apply (Permutation_in _ (insert_perm x l)) in Hz.
      destruct Hz as [<-|Hz]; [|auto].
      destruct (before_total y x) as [H|H]; [exact H|unfold before in H; lia].
Qed.

Lemma sort_sorted (l : list A) : StronglySorted (before cmp) (JS.sort cmp l).
Proof.
  induction l as [|x l IH]; simpl; [constructor|now apply insert_sorted].
Qed.

End SortFacts.

(** Stability: the elements of one rank keep their order. *)
Section SortStable.

Context {A : Type} (rank : A -> Z).

Local Abbreviation desc := (desc rank).
Local Abbreviation of_rank := (of_rank rank).

Lemma insert_of_rank (k : Z) (x : A) (l : list A) :
  StronglySorted (before desc) l ->
  of_rank k (JS.insert desc x l) = of_rank k (x :: l).
Proof.
  induction 1 as [|y l Hs IH Hall]; [reflexivity|].
  simpl JS.insert. destruct (Z.leb_spec (desc x y) 0) as [Hle|Hgt]; [reflexivity|].
  unfold of_rank in *. simpl in *. rewrite IH.
  unfold desc in Hgt.
  destruct (Z.eqb_spec (rank x) k), (Z.eqb_spec (rank y) k); try reflexivity; lia.
Qed.

Lemma desc_total (x y : A) : before desc x y \/ before desc y x.
Proof. unfold before, desc. lia. Qed.

Lemma desc_trans (x y z : A) : before desc x y -> before desc y z -> before desc x z.
Proof. unfold before, desc. lia. Qed.

Lemma sort_of_rank (k : Z) (l : list A) :
  of_rank k (JS.sort desc l) = of_rank k l.
Proof.
  induction l as [|x l IH]; [reflexivity|].
  simpl JS.sort. rewrite insert_of_rank.
  - unfold of_rank in *. simpl. now rewrite IH.
  - apply sort_sorted; [apply desc_total|apply desc_trans].
Qed.

Lemma of_rank_firstn (k : Z) (n : nat) (l : list A) :
  of_rank k (firstn n l) =
  firstn (List.length (of_rank k (firstn n l))) (of_rank k l).
Proof.
  revert n. induction l as [|x l IH]; intros [|n]; simpl; try reflexivity.
  destruct (rank x =? k); simpl; [f_equal|]; apply IH.
Qed.

End SortStable.

(** ** The order on strings *)

Lemma ascii_compare_trans_lt (a b c : ascii) :
  Ascii.compare a b = Lt -> Ascii.compare b c = Lt -> Ascii.compare a c = Lt.
Proof.
  unfold Ascii.compare. rewrite !N.compare_lt_iff. lia.
Qed.

Lemma string_leb_trans (a b c : string) :
  String.leb a b = true -> String.leb b c = true -> String.leb a c = true.
Proof.
  unfold String.leb. revert b c.
  induction a as [|x a IH]; intros [|y b] [|z c]; simpl; try congruence.
  specialize (IH b c).
  destruct (Ascii.compare x y) eqn:Hxy; try congruence;
    destruct (Ascii.compare y z) eqn:Hyz; try congruence.
  - apply Ascii.compare_eq_iff in Hxy, Hyz. subst.
    assert (H : Ascii.compare z z = Eq) by (unfold Ascii.compare; apply N.compare_refl).
    rewrite H. exact IH.
  - apply Ascii.compare_eq_iff in Hxy. subst. now rewrite Hyz.
  - apply Ascii.compare_eq_iff in Hyz. subst. now rewrite Hxy.
  - now rewrite (ascii_compare_trans_lt _ _ _ Hxy Hyz).
Qed.

Lemma string_before_leb (a b : string) :
  before JS.string_cmp a b <-> String.leb a b = true.
Proof.
  unfold before, JS.string_cmp, String.leb.
  destruct (String.compare a b); split; intros; try reflexivity; try lia; discriminate.
Qed.

Lemma sort_strings_sorted (l : list string) :
  StronglySorted (before JS.string_cmp) (JS.sort_strings l).
Proof.
  apply sort_sorted.
  - intros x y. rewrite !string_before_leb. apply String.leb_total.
  - intros x y z. rewrite !string_before_leb. apply string_leb_trans.
Qed.

Lemma sorted_strings_unique (l1 l2 : list string) :
  StronglySorted (before JS.string_cmp) l1 ->
  StronglySorted (before JS.string_cmp) l2 ->
  Permutation l1 l2 -> l1 = l2.
Proof.
  intros H1. revert l2. induction H1 as [|a l1 Hs1 IH Ha]; intros l2 H2 Hp.
  - now apply Permutation_nil in Hp.
  - destruct H2 as [|b l2 Hs2 Hb].
    + symmetry in Hp. now apply Permutation_nil in Hp.
    + assert (a = b) as ->.
      { rewrite Forall_forall in Ha, Hb.
        apply String.leb_antisym; apply string_before_leb.
        - assert (Hin : In b (a :: l1))
            by (eapply Permutation_in; [symmetry; exact Hp|now left]).
          destruct Hin as [->|Hin]; [|auto].
          apply string_before_leb. destruct (String.leb_total b b); assumption.
        - assert (Hin : In a (b :: l2)) by (eapply Permutation_in; [exact Hp|now left]).
          destruct Hin as [->|Hin]; [|auto].
          apply string_before_leb. destruct (String.leb_total a a); assumption. }
      f_equal. apply IH; [exact Hs2|]. now apply Permutation_cons_inv in Hp.
Qed.

Lemma sort_strings_permutation (l1 l2 : list string) :
  Permutation l1 l2 -> JS.sort_strings l1 = JS.sort_strings l2.
Proof.
  intros Hp. apply sorted_strings_unique; try apply sort_strings_sorted.
  unfold JS.sort_strings. now rewrite !sort_perm.
Qed.

(** ** Strings *)

Section StringFacts.

Local Open Scope string_scope.

Lemma append_assoc (a b c : string) : (a ++ b) ++ c = a ++ (b ++ c).
Proof. induction a as [|x a IH]; simpl; [reflexivity|now rewrite IH]. Qed.

Lemma append_inv_head (a b c : string) : a ++ b = a ++ c -> b = c.
Proof.
  induction a as [|x a IH]; simpl; intros H; [exact H|].
  injection H as H. auto.
Qed.

Lemma append_nil_r (a : string) : a ++ EmptyString = a.
Proof. induction a as [|x a IH]; simpl; [reflexivity|now rewrite IH]. Qed.

Lemma str_or_empty (s : string) : JS.str_or s EmptyString = s.
Proof.
  unfold JS.str_or. destruct (String.eqb_spec s EmptyString); congruence.
Qed.

(** *** The quoting of [JSON.stringify] is injective and self-delimiting *)

Lemma unescape1_escape_char (c : ascii) (r : string) :
  KeyFacts.unescape1 (Json.escape_char c ++ r) = Some (c, r).
Proof.
  destruct c as [[] [] [] [] [] [] [] []]; reflexivity.
Qed.

Lemma escape_inj_app (a b r1 r2 : string) :
  Json.escape a ++ String Json.dquote r1 = Json.escape b ++ String Json.dquote r2 ->
  a = b /\ r1 = r2.
Proof.
  revert b. induction a as [|x a IH]; intros [|y b]; simpl; intros H.
  - injection H as H. auto.
  - rewrite append_assoc in H. apply (f_equal KeyFacts.unescape1) in H.
    rewrite unescape1_escape_char in H. discriminate.
  - rewrite append_assoc in H. apply (f_equal KeyFacts.unescape1) in H.
    rewrite unescape1_escape_char in H. discriminate.
  - rewrite !append_assoc in H. apply (f_equal KeyFacts.unescape1) in H.
    rewrite !unescape1_escape_char in H. injection H as -> H.
    destruct (IH _ H) as [-> ->]. auto.
Qed.

Lemma quote_inj_app (a b r1 r2 : string) :
  Json.quote a ++ r1 = Json.quote b ++ r2 -> a = b /\ r1 = r2.
Proof.
  unfold Json.quote. simpl. rewrite !append_assoc. simpl.
  intros H. injection H as H. now apply escape_inj_app.
Qed.

(** *** Joining clean codes with a comma is injective *)

Lemma has_comma_app (a b : string) :
  KeyFacts.has_comma (a ++ b) = KeyFacts.has_comma a || KeyFacts.has_comma b.
Proof.
  induction a as [|x a IH]; simpl; [reflexivity|].
  now rewrite IH, orb_assoc.
Qed.

Lemma comma_split (a b r1 r2 : string) :
  KeyFacts.has_comma a = false -> KeyFacts.has_comma b = false ->
  a ++ "," ++ r1 = b ++ "," ++ r2 -> a = b /\ r1 = r2.
Proof.
  revert b. induction a as [|x a IH]; intros [|y b]; simpl; intros Ha Hb H.
  - injection H as H. auto.
  - injection H as <- H. discriminate.
  - injection H as -> H. discriminate.
  - injection H as -> H. apply orb_false_elim in Ha, Hb.
    destruct (IH b (proj2 Ha) (proj2 Hb) H) as [-> ->]. auto.
Qed.

Lemma clean_nonempty (s : string) : KeyFacts.clean s = true -> s <> EmptyString.
Proof. unfold KeyFacts.clean. intros H ->. discriminate. Qed.

Lemma clean_no_comma (s : string) : KeyFacts.clean s = true -> KeyFacts.has_comma s = false.
Proof.
  unfold KeyFacts.clean. intros H. apply andb_prop in H as [_ H].
  now apply negb_true_iff in H.
Qed.

Lemma join_cons2 (x y : string) (l : list string) :
  JS.join "," (x :: y :: l) = x ++ "," ++ JS.join "," (y :: l).
Proof. reflexivity. Qed.

Lemma join_comma_inj (l1 l2 : list string) :
  Forall (fun s => KeyFacts.clean s = true) l1 ->
  Forall (fun s => KeyFacts.clean s = true) l2 ->
  JS.join "," l1 = JS.join "," l2 -> l1 = l2.
Proof.
  intros H1. revert l2. induction H1 as [|a l1 Ha H1 IH]; intros l2 H2 H.
  - destruct H2 as [|b l2 Hb H2]; [reflexivity|].
    exfalso. apply (clean_nonempty _ Hb).
    destruct l2 as [|c l2]; [symmetry; exact H|].
    rewrite join_cons2 in H. destruct b; [reflexivity|discriminate].
  - destruct H2 as [|b l2 Hb H2].
    + exfalso. apply (clean_nonempty _ Ha).
      destruct l1 as [|c l1]; [exact H|].
      rewrite join_cons2 in H. destruct a; [reflexivity|discriminate].
    + destruct l1 as [|c l1], l2 as [|d l2].
      * simpl in H. now subst.
      * rewrite join_cons2 in H. simpl in H. subst a.
        apply clean_no_comma in Ha. rewrite has_comma_app in Ha. simpl in Ha.
        rewrite orb_true_r in Ha. discriminate.
      * rewrite join_cons2 in H. simpl in H. subst b.
        apply clean_no_comma in Hb. rewrite has_comma_app in Hb. simpl in Hb.
        rewrite orb_true_r in Hb. discriminate.
      * rewrite !join_cons2 in H.
        apply comma_split in H as [-> H]; try now apply clean_no_comma.
        f_equal. now apply IH.
Qed.

End StringFacts.

(** ** The cache key *)

Section CacheKeyFacts.

Import KeyFacts.

Lemma codes_of_type_clean (ty : string) (w : list Classification) :
  clean_codes w -> Forall (fun s => clean s = true) (CacheKey.codes_of_type ty w).
Proof.
  unfold clean_codes, CacheKey.codes_of_type. intros H.
  induction H as [|c w Hc H IH]; simpl; [constructor|].
  destruct (String.eqb (classification_type c) ty); simpl; auto.
Qed.

Lemma joined_codes_inj (ty : string) (w1 w2 : list Classification) :
  clean_codes w1 -> clean_codes w2 ->
  CacheKey.joined_codes ty (Some w1) = CacheKey.joined_codes ty (Some w2) ->
  same_set (CacheKey.codes_of_type ty w1) (CacheKey.codes_of_type ty w2).
Proof.
  intros H1 H2. unfold CacheKey.joined_codes. rewrite !str_or_empty. intros H.
  apply join_comma_inj in H.
  - assert (Hp : Permutation (CacheKey.codes_of_type ty w1) (CacheKey.codes_of_type ty w2)).
    { rewrite <- (sort_perm JS.string_cmp (CacheKey.codes_of_type ty w1)).
      rewrite <- (sort_perm JS.string_cmp (CacheKey.codes_of_type ty w2)).
      unfold JS.sort_strings in H. now rewrite H. }
    intros c. split; apply Permutation_in; [exact Hp|now symmetry].
  - eapply Permutation_Forall; [symmetry; apply sort_perm|].
    now apply codes_of_type_clean.
  - eapply Permutation_Forall; [symmetry; apply sort_perm|].
    now apply codes_of_type_clean.
Qed.

Lemma dataToHash_classifications (p : CharityProfile) (w1 w2 : list Classification)
    (ids : list string) :
  CacheKey.dataToHash (with_classifications p w1) ids =
  CacheKey.dataToHash (with_classifications p w2) ids ->
  CacheKey.joined_codes "What" (Some w1) = CacheKey.joined_codes "What" (Some w2) /\
  CacheKey.joined_codes "Who" (Some w1) = CacheKey.joined_codes "Who" (Some w2).
Proof.
  unfold CacheKey.dataToHash, CacheKey.charityDetails.
  cbn [Json.stringify with_classifications reg_charity_number latest_income
       who_what_where CharityAoORegion].
  rewrite !append_assoc. intros H.
  do 14 apply append_inv_head in H.
  apply quote_inj_app in H as [Hwhat H].
  do 3 apply append_inv_head in H.
  apply quote_inj_app in H as [Hwho _].
  split; assumption.
Qed.

Lemma generateCacheKey_permutation (p : CharityProfile) (ids ids' : list string) :
  Permutation ids ids' ->
  CacheKey.generateCacheKey p ids = CacheKey.generateCacheKey p ids'.
Proof.
  intros Hp. unfold CacheKey.generateCacheKey, CacheKey.dataToHash, CacheKey.sortedFunderIds.
  now rewrite (sort_strings_permutation _ _ Hp).
Qed.

Lemma generateCacheKey_bucket (p : CharityProfile) (i1 i2 : option Z) (ids : list string) :
  CacheKey.getIncomeBucket (CacheKey.income_or_0 i1) =
  CacheKey.getIncomeBucket (CacheKey.income_or_0 i2) ->
  CacheKey.generateCacheKey (with_income p i1) ids =
  CacheKey.generateCacheKey (with_income p i2) ids.
Proof.
  intros Hb. unfold CacheKey.generateCacheKey, CacheKey.dataToHash, CacheKey.charityDetails.
  cbn [with_income reg_charity_number latest_income who_what_where CharityAoORegion].
  now rewrite Hb.
Qed.

End CacheKeyFacts.

(** C1 (as amended).  The cache key does not change when the funder ids
    are permuted, nor when the income moves inside its bucket (52,000 and
    61,000 give the same key).  When the set of What or Who codes changes
    and every code is non-empty and free of commas, the serialised
    descriptor that is hashed changes, so the key changes unless the
    truncated digests of the two descriptors coincide. *)
Theorem generateCacheKey_stable :
  (forall p ids ids',
     Permutation ids ids' ->
     CacheKey.generateCacheKey p ids = CacheKey.generateCacheKey p ids') /\
  (forall p i1 i2 ids,
     CacheKey.getIncomeBucket (CacheKey.income_or_0 i1) =
     CacheKey.getIncomeBucket (CacheKey.income_or_0 i2) ->
     CacheKey.generateCacheKey (KeyFacts.with_income p i1) ids =
     CacheKey.generateCacheKey (KeyFacts.with_income p i2) ids) /\
  (forall p ids,
     CacheKey.generateCacheKey (KeyFacts.with_income p (Some 52000)) ids =
     CacheKey.generateCacheKey (KeyFacts.with_income p (Some 61000)) ids) /\
  (forall p w1 w2 ids,
     KeyFacts.clean_codes w1 -> KeyFacts.clean_codes w2 ->
     ~ KeyFacts.same_codes w1 w2 ->
     CacheKey.dataToHash (KeyFacts.with_classifications p w1) ids <>
     CacheKey.dataToHash (KeyFacts.with_classifications p w2) ids).
Proof.
  split; [|split; [|split]].
  - apply generateCacheKey_permutation.
  - apply generateCacheKey_bucket.
  - intros p ids. apply generateCacheKey_bucket. reflexivity.
  - intros p w1 w2 ids H1 H2 Hne Heq. apply Hne.
    apply dataToHash_classifications in Heq as [Hwhat Hwho].
    split; now apply joined_codes_inj.
Qed.

(** The properties of C1 on the sample charity: the key of the permuted
    funder list, the key at 61,000, and the descriptor after the What
    code 102 is replaced by 103. *)
Lemma generateCacheKey_stable_sample :
  CacheKey.generateCacheKey Samples.charity Samples.funder_ids =
  CacheKey.generateCacheKey Samples.charity (rev Samples.funder_ids) /\
  CacheKey.generateCacheKey (KeyFacts.with_income Samples.charity (Some 52000))
    Samples.funder_ids =
  CacheKey.generateCacheKey (KeyFacts.with_income Samples.charity (Some 61000))
    Samples.funder_ids /\
  CacheKey.dataToHash
    (KeyFacts.with_classifications Samples.charity [Samples.what "102"; Samples.who "201"])
    Samples.funder_ids <>
  CacheKey.dataToHash
    (KeyFacts.with_classifications Samples.charity [Samples.what "103"; Samples.who "201"])
    Samples.funder_ids.
Proof.
  destruct generateCacheKey_stable as (Hperm & Hbucket & _ & Hcodes).
  split; [|split].
  - apply Hperm. apply Permutation_rev.
  - apply Hbucket. reflexivity.
  - apply Hcodes.
    + repeat constructor.
    + repeat constructor.
    + intros [Hwhat _]. destruct (proj1 (Hwhat "102"%string)) as [H|[]].
      * now left.
      * discriminate.
Defined.

(** C1 (as stated) fails: a code that contains a comma reads, once
    joined, as two codes, so the two sets of What codes below differ and
    the key is the same. *)
Lemma generateCacheKey_comma_collision :
  ~ KeyFacts.same_codes [Samples.what "a,b"] [Samples.what "a"; Samples.what "b"] /\
  CacheKey.generateCacheKey
    (KeyFacts.with_classifications Samples.charity [Samples.what "a,b"])
    Samples.funder_ids =
  CacheKey.generateCacheKey
    (KeyFacts.with_classifications Samples.charity [Samples.what "a"; Samples.what "b"])
    Samples.funder_ids.
Proof.
  split.
  - intros [Hwhat _]. destruct (proj2 (Hwhat "a"%string)) as [H|[]].
    + now left.
    + discriminate.
  - unfold CacheKey.generateCacheKey. do 2 f_equal.
Qed.

(** ** The rate limiter *)

Section LimiterProofs.

Import RateLimiter LimiterFacts.

Lemma paced_snoc (l : list (nat * Z)) (u : nat) (t : Z) :
  paced l ->
  (forall l' u' t', l = l' ++ [(u', t')] -> t' + RATE_LIMIT_DELAY <= t) ->
  paced (l ++ [(u, t)]).
Proof.
  induction l as [|a l IH]; intros Hp Hlast; [exact I|].
  destruct l as [|b l].
  - destruct a as [u' t']. simpl. split; [|exact I].
    apply (Hlast [] u' t'). reflexivity.
  - destruct Hp as [Hab Hp]. split; [exact Hab|].
    apply IH; [exact Hp|].
    intros l' u' t' E. apply (Hlast (a :: l') u' t'). simpl. now rewrite E.
Qed.

Lemma paced_nth (l : list (nat * Z)) (i : nat) (a b : nat * Z) :
  paced l -> nth_error l i = Some a -> nth_error l (S i) = Some b ->
  snd a + RATE_LIMIT_DELAY <= snd b.
Proof.
  revert i. induction l as [|x l IH]; intros i Hp Ha Hb; [destruct i; discriminate|].
  destruct l as [|y l]; [simpl in Hb; destruct i; discriminate|].
  destruct Hp as [Hxy Hp]. destruct i as [|i].
  - simpl in Ha, Hb. injection Ha as <-. injection Hb as <-. exact Hxy.
  - apply (IH i Hp); assumption.
Qed.

Lemma numbered_nth {B} (l : list (nat * B)) (i u : nat) (b : B) :
  map fst l = seq 0 (List.length l) -> nth_error l i = Some (u, b) -> u = i.
Proof.
  intros Hm Hn.
  assert (Hi : (i < List.length l)%nat) by (apply nth_error_Some; congruence).
  apply (map_nth_error fst) in Hn. rewrite Hm in Hn. simpl in Hn.
  apply (nth_error_nth _ _ 0%nat) in Hn. rewrite seq_nth in Hn by exact Hi.
  simpl in Hn. congruence.
Qed.

Lemma numbered_snoc {B} (l : list (nat * B)) (b : B) :
  map fst l = seq 0 (List.length l) ->
  map fst (l ++ [(List.length l, b)]) = seq 0 (List.length (l ++ [(List.length l, b)])).
Proof.
  intros H. rewrite map_app, length_app, Nat.add_1_r, seq_S, H. reflexivity.
Qed.

Lemma last_start_snoc (delta bound : Z) (s : state) (l : list (nat * Z)) (u : nat) (t : Z) :
  started s = l ++ [(u, t)] -> t + delta <= bound -> last_start_before delta bound s.
Proof.
  intros E H l' u' t' E'. rewrite E in E'. apply app_inj_tail in E' as [_ E'].
  injection E' as _ <-. exact H.
Qed.

Lemma last_start_mono (delta delta' bound bound' : Z) (s s' : state) :
  started s' = started s -> bound - delta <= bound' - delta' ->
  last_start_before delta bound s -> last_start_before delta' bound' s'.
Proof.
  intros E H Hs l u t E'. rewrite E in E'. specialize (Hs l u t E'). lia.
Qed.

Lemma queue_head (s : state) (u : nat) (q : list nat) :
  queue s = seq (List.length (started s)) (submitted s - List.length (started s)) ->
  queue s = u :: q ->
  u = List.length (started s) /\
  q = seq (S (List.length (started s))) (submitted s - S (List.length (started s))) /\
  (S (List.length (started s)) <= submitted s)%nat.
Proof.
  intros Hq E. rewrite E in Hq.
  destruct (submitted s - List.length (started s))%nat as [|n] eqn:En; [discriminate|].
  simpl in Hq. injection Hq as -> ->.
  replace (submitted s - S (List.length (started s)))%nat with n by lia.
  repeat split; lia.
Qed.

Ltac fields :=
  cbn [queue processing running timers clock submitted started settled] in *.

Lemma step_inv (s s' : state) (ev : Z * action) :
  inv s -> step s ev = Some s' -> inv s'.
Proof.
  intros (Hst & Hq & Hle & Hse & Hp & Hclk & Hph) Hstep.
  destruct ev as [now a]. unfold step in Hstep.
  destruct (Z.ltb_spec now (clock s)) as [|Hnow]; [discriminate|].
  unfold phase in Hph. destruct a as [|u o|d]; simpl in Hstep.
  - (* add *)
    injection Hstep as <-. unfold process. fields.
    destruct (processing s) eqn:Hpr.
    + unfold inv, phase. fields. rewrite ?Hpr. repeat split; try assumption.
      * rewrite Hq at 1.
        replace (S (submitted s) - List.length (started s))%nat
          with (S (submitted s - List.length (started s))) by lia.
        rewrite seq_S. do 2 f_equal. lia.
      * lia.
      * eapply last_start_mono; [| |exact Hclk]; [reflexivity|lia].
    + destruct Hph as (Hrun & Htim & Hqe & Hlen & Hlast).
      rewrite Hqe. cbn [app].
      assert (Hsub : submitted s = List.length (started s)).
      { rewrite Hqe in Hq.
        destruct (submitted s - List.length (started s))%nat eqn:E; [lia|discriminate]. }
      unfold inv, phase. fields. rewrite Hsub.
      repeat split; try assumption.
      * now apply numbered_snoc.
      * rewrite length_app. simpl. rewrite Nat.add_1_r, Nat.sub_diag. reflexivity.
      * rewrite length_app. simpl. lia.
      * apply paced_snoc; [exact Hp|]. intros l' u' t' E.
        specialize (Hlast l' u' t' E). lia.
      * eapply last_start_snoc; [fields; reflexivity|]; lia.
      * left. rewrite Hrun, Htim, length_app. simpl. rewrite Hlen.
        repeat split; try reflexivity; try lia.
  - (* the thunk settles *)
    destruct (mem Nat.eqb u (running s)) eqn:Hmem; [|discriminate].
    injection Hstep as <-.
    destruct (processing s) eqn:Hpr.
    + destruct Hph as [(Hrun & Htim & Hlen)|(d & Hrun & _)].
      * rewrite Hrun in Hmem. simpl in Hmem. rewrite orb_false_r in Hmem.
        apply Nat.eqb_eq in Hmem. subst u.
        unfold inv, phase. fields. rewrite ?Hpr, Hrun, Htim. cbn [remove1].
        rewrite Nat.eqb_refl.
        repeat split; try assumption.
        -- now apply numbered_snoc.
        -- eapply last_start_mono; [| |exact Hclk]; [reflexivity|lia].
        -- right. exists (now + RATE_LIMIT_DELAY). rewrite length_app. simpl.
           repeat split; [lia|].
           eapply last_start_mono; [| |exact Hclk]; [reflexivity|lia].
      * rewrite Hrun in Hmem. discriminate.
    + destruct Hph as (Hrun & _). rewrite Hrun in Hmem. discriminate.
  - (* the timer fires *)
    destruct (mem Z.eqb d (timers s) && (d <=? now)) eqn:Hmem; [|discriminate].
    apply andb_prop in Hmem as [Hmem Hd]. apply Z.leb_le in Hd.
    injection Hstep as <-.
    destruct (processing s) eqn:Hpr.
    + destruct Hph as [(_ & Htim & _)|(d0 & Hrun & Htim & Hlen & Hlast)].
      * rewrite Htim in Hmem. discriminate.
      * rewrite Htim in Hmem. simpl in Hmem. rewrite orb_false_r in Hmem.
        apply Z.eqb_eq in Hmem. subst d0.
        unfold process. fields. rewrite Htim. cbn [remove1]. rewrite Z.eqb_refl.
        destruct (queue s) as [|u q] eqn:Hqs.
        -- unfold inv, phase. fields. rewrite ?Hqs.
           repeat split; try assumption.
           ++ eapply last_start_mono; [| |exact Hclk]; [reflexivity|lia].
           ++ eapply last_start_mono; [| |exact Hlast]; [reflexivity|lia].
        -- rewrite <- Hqs in Hq.
           destruct (queue_head s u q Hq Hqs) as (-> & -> & Hlt).
           unfold inv, phase. fields.
           repeat split; try assumption.
           ++ now apply numbered_snoc.
           ++ rewrite length_app. simpl. rewrite Nat.add_1_r. reflexivity.
           ++ rewrite length_app. simpl. lia.
           ++ apply paced_snoc; [exact Hp|]. intros l' u' t' E.
              specialize (Hlast l' u' t' E). lia.
           ++ eapply last_start_snoc; [fields; reflexivity|]; lia.
           ++ left. rewrite Hrun, length_app. simpl. rewrite Hlen.
              repeat split; try reflexivity; try lia.
    + destruct Hph as (_ & Htim & _). rewrite Htim in Hmem. discriminate.
Qed.

Lemma init_inv : inv init.
Proof.
  unfold inv, phase, last_start_before. simpl.
  repeat split; try reflexivity; try lia;
    intros [|? ?] ? ? E; discriminate.
Qed.

Lemma run_inv (evs : list (Z * action)) (s s' : state) :
  inv s -> run s evs = Some s' -> inv s'.
Proof.
  revert s. induction evs as [|ev evs IH]; simpl; intros s Hi Hr.
  - now injection Hr as <-.
  - destruct (step s ev) as [s1|] eqn:Hs; [|discriminate].
    eapply IH; [eapply step_inv; eauto|exact Hr].
Qed.

Lemma step_settled (s s' : state) (ev : Z * action) :
  step s ev = Some s' -> settled s' = settled s ++ settlements [ev].
Proof.
  destruct ev as [now a]. unfold step, settlements.
  destruct (now <? clock s); [discriminate|].
  destruct a as [|u o|d]; simpl.
  - intros H. injection H as <-. unfold process. simpl.
    destruct (processing s); simpl; [now rewrite app_nil_r|].
    destruct (queue s ++ [submitted s])%list; simpl; now rewrite app_nil_r.
  - destruct (mem Nat.eqb u (running s)); [|discriminate].
    intros H. now injection H as <-.
  - destruct (mem Z.eqb d (timers s) && (d <=? now)); [|discriminate].
    intros H. injection H as <-. unfold process. simpl.
    destruct (queue s); simpl; now rewrite app_nil_r.
Qed.

Lemma run_settled (evs : list (Z * action)) (s s' : state) :
  run s evs = Some s' -> settled s' = settled s ++ settlements evs.
Proof.
  revert s. induction evs as [|ev evs IH]; simpl; intros s Hr.
  - injection Hr as <-. now rewrite app_nil_r.
  - destruct (step s ev) as [s1|] eqn:Hs; [|discriminate].
    rewrite (IH _ Hr), (step_settled _ _ _ Hs).
    unfold settlements. simpl. now rewrite app_nil_r, app_assoc.
Qed.

(** A rejection leaves the queue as it is, and once the pacing timer
    fires the next queued unit starts. *)
Lemma rejection_does_not_block (s s1 : state) (u : nat) (e t : Z) :
  inv s -> step s (t, Settle u (Rejected e)) = Some s1 ->
  queue s1 = queue s /\
  forall t', t + RATE_LIMIT_DELAY <= t' ->
    exists s2, step s1 (t', Timeout (t + RATE_LIMIT_DELAY)) = Some s2 /\
               match queue s with
               | [] => running s2 = [] /\ processing s2 = false
               | h :: q => running s2 = [h] /\ queue s2 = q
               end.
Proof.
  intros Hi Hs. pose proof (step_inv _ _ _ Hi Hs) as Hi1.
  destruct Hi as (_ & _ & _ & _ & _ & _ & Hph). unfold phase in Hph.
  unfold step in Hs. destruct (Z.ltb_spec t (clock s)) as [|Ht]; [discriminate|].
  simpl in Hs. destruct (mem Nat.eqb u (running s)) eqn:Hmem; [|discriminate].
  injection Hs as <-. simpl. split; [reflexivity|].
  intros t' Ht'. unfold step. simpl.
  destruct (Z.ltb_spec t' t) as [Hlt|_]; [unfold RATE_LIMIT_DELAY in *; lia|].
  destruct (processing s) eqn:Hpr.
  - destruct Hph as [(Hrun & Htim & _)|(d & Hrun & _)].
    + rewrite Htim, Hrun in *. simpl. rewrite Z.eqb_refl. simpl.
      destruct (Z.leb_spec (t + RATE_LIMIT_DELAY) t') as [_|]; [|lia].
      simpl in Hmem. rewrite orb_false_r in Hmem. rewrite Hmem.
      eexists. split; [reflexivity|].
      unfold process. simpl. destruct (queue s); simpl; auto.
    + rewrite Hrun in Hmem. discriminate.
  - destruct Hph as (Hrun & _). rewrite Hrun in Hmem. discriminate.
Qed.

End LimiterProofs.

(** C2.  Whatever calls to [add], settlements and timer events occur: at
    most one unit is in flight; unit [i + 1] starts at least the delay of
    500 ms after unit [i]; units are started and settled in the order of
    submission; every promise is settled with the outcome of its own
    thunk; and a rejection leaves the queue untouched, the next unit
    starting when the pacing timer fires. *)
Theorem rate_limiter_paces_in_order (evs : list (Z * RateLimiter.action))
    (s : RateLimiter.state) :
  RateLimiter.run RateLimiter.init evs = Some s ->
  (List.length (RateLimiter.running s) <= 1)%nat /\
  (forall i u1 t1 u2 t2,
     nth_error (RateLimiter.started s) i = Some (u1, t1) ->
     nth_error (RateLimiter.started s) (S i) = Some (u2, t2) ->
     u1 = i /\ u2 = S i /\ t1 + 500 <= t2) /\
  map fst (RateLimiter.settled s) = seq 0 (List.length (RateLimiter.settled s)) /\
  RateLimiter.settled s = LimiterFacts.settlements evs /\
  (forall u e t s1,
     RateLimiter.step s (t, RateLimiter.Settle u (RateLimiter.Rejected e)) = Some s1 ->
     RateLimiter.queue s1 = RateLimiter.queue s /\
     forall t', t + 500 <= t' ->
       exists s2,
         RateLimiter.step s1 (t', RateLimiter.Timeout (t + 500)) = Some s2 /\
         match RateLimiter.queue s with
         | [] => RateLimiter.running s2 = [] /\ RateLimiter.processing s2 = false
         | h :: q => RateLimiter.running s2 = [h] /\ RateLimiter.queue s2 = q
         end).
Proof.
  intros Hrun.
  pose proof (run_inv _ _ _ init_inv Hrun) as Hi.
  pose proof Hi as (Hst & _ & _ & Hse & Hp & _ & Hph).
  repeat split.
  - unfold LimiterFacts.phase in Hph. destruct (RateLimiter.processing s).
    + destruct Hph as [(-> & _)|(d & -> & _)]; simpl; lia.
    + destruct Hph as (-> & _). simpl. lia.
  - apply (numbered_nth _ _ _ _ Hst H).
  - apply (numbered_nth _ _ _ _ Hst H0).
  - apply (paced_nth _ _ _ _ Hp H H0).
  - exact Hse.
  - apply (run_settled _ _ _ Hrun).
  - eapply rejection_does_not_block; eauto.
  - eapply rejection_does_not_block; eauto.
Qed.

(** The properties of C2 on three units submitted at once, the second
    of which fails: the third still starts, 500 ms after the failure. *)
Lemma rate_limiter_three_units :
  RateLimiter.run RateLimiter.init LimiterSamples.events = Some LimiterSamples.final /\
  (List.length (RateLimiter.running LimiterSamples.final) <= 1)%nat /\
  RateLimiter.settled LimiterSamples.final =
  LimiterFacts.settlements LimiterSamples.events.
Proof.
  assert (Hrun : RateLimiter.run RateLimiter.init LimiterSamples.events
                 = Some LimiterSamples.final) by (vm_compute; reflexivity).
  split; [exact Hrun|].
  destruct (rate_limiter_paces_in_order _ _ Hrun) as (Hone & _ & _ & Hset & _).
  split; assumption.
Defined.

(** ** The grant phase of the synchronisation *)

Section SyncProofs.

Import Sync SyncFacts.

Variable env : Env.
Variable options : SyncOptions.



Lemma count_app (p : decision -> bool) (j1 j2 : list (Api.GrantData * decision)) :
  count p (j1 ++ j2) = count p j1 + count p j2.
Proof. unfold count. rewrite filter_app, length_app. lia. Qed.

Lemma count_nonneg (p : decision -> bool) (j : list (Api.GrantData * decision)) :
  0 <= count p j.
Proof. unfold count. lia. Qed.

Lemma upserted_rows_app (j1 j2 : list (Api.GrantData * decision)) :
  upserted_rows (j1 ++ j2) = upserted_rows j1 ++ upserted_rows j2.
Proof. unfold upserted_rows. apply flat_map_app. Qed.

Lemma upsert_all_app (r1 r2 : list Db.Grant) (gs : list Db.Grant) :
  upsert_all (r1 ++ r2) gs = upsert_all r2 (upsert_all r1 gs).
Proof. unfold upsert_all. apply fold_left_app. Qed.

Local Abbreviation advanced := (SyncFacts.advanced env options).

Lemma advanced_refl (st : Progress) : advanced st st [].
Proof.
  unfold advanced, count. simpl. rewrite app_nil_r.
  split; [reflexivity|]. split; [lia|]. split; [lia|]. split; [reflexivity|].
  intros g d [].
Qed.

Lemma advanced_trans (a b c : Progress) (j1 j2 : list (Api.GrantData * decision)) :
  advanced a b j1 -> advanced b c j2 -> advanced a c (j1 ++ j2).
Proof.
  intros (Hj1 & Hs1 & Hk1 & Hg1 & Ho1) (Hj2 & Hs2 & Hk2 & Hg2 & Ho2).
  unfold advanced. rewrite !count_app, upserted_rows_app, upsert_all_app.
  split; [|split; [|split; [|split]]].
  - now rewrite Hj2, Hj1, app_assoc.
  - lia.
  - lia.
  - now rewrite Hg2, Hg1.
  - intros g d Hin.
    apply in_app_or in Hin as [Hin|Hin]; [apply (Ho1 _ _ Hin)|apply (Ho2 _ _ Hin)].
Qed.

Lemma advanced_one (st : Progress) (g : Api.GrantData) (d : decision)
    (synced' skipped' : Z) (store' : Db.Store) :
  synced' = synced st + (if is_upsert d then 1 else 0) ->
  skipped' = skipped st + (if is_skip d then 1 else 0) ->
  Db.grants store' = upsert_all (upserted_rows [(g, d)]) (Db.grants (store st)) ->
  (older_than_last_sync env options (Api.awardDate (Api.data g)) = true
   <-> d = SkippedOlder) ->
  advanced st (record st g d synced' skipped' store') [(g, d)].
Proof.
  intros Hs Hk Hg Ho. unfold advanced, record, count. simpl.
  split; [reflexivity|]. split; [|split; [|split]]; try assumption.
  - destruct (is_upsert d); simpl; lia.
  - destruct (is_skip d); simpl; lia.
  - intros g' d' [H|[]]. injection H as <- <-. exact Ho.
Qed.

Lemma geq_mono (a b : Z) (cap : JS.number) :
  a <= b -> JS.geq b cap = false -> JS.geq a cap = false.
Proof.
  destruct cap as [|z]; [reflexivity|]. simpl. intros Hab H.
  destruct (Z.geb_spec b z); [discriminate|].
  destruct (Z.geb_spec a z); [lia|reflexivity].
Qed.

Lemma advanced_synced (a b : Progress) (j : list (Api.GrantData * decision)) :
  advanced a b j -> synced a <= synced b.
Proof.
  intros (_ & Hs & _). pose proof (count_nonneg is_upsert j). lia.
Qed.

(** The end of a page that is abandoned at the grant [g]. *)
Lemma abandoned_advanced (st : Progress) (g : Api.GrantData) :
  older_than_last_sync env options (Api.awardDate (Api.data g)) = false ->
  advanced st (record st g Threw (synced st) (skipped st) (store st)) [(g, Threw)].
Proof.
  intros Hold. apply advanced_one; simpl; try reflexivity; try lia.
  split; [congruence|discriminate].
Qed.

Lemma sync_page_advanced (funder : Db.Organisation) (results : list Api.GrantData)
    (st : Progress) :
  exists j,
    advanced st (snd (sync_page env options funder results st)) j /\
    Db.organisations (store (snd (sync_page env options funder results st)))
      = Db.organisations (store st) /\
    (exists rest, results = map fst j ++ rest) /\
    (JS.geq (synced (snd (sync_page env options funder results st))) (maxGrants options)
     = false ->
     (forall g, ~ In (g, Threw) j) -> map fst j = results) /\
    (fst (sync_page env options funder results st) = Abandoned <->
     exists g, In (g, Threw) j).
Proof.
  revert st. induction results as [|g rest IH]; intros st.
  - exists []. simpl. split; [apply advanced_refl|]. split; [reflexivity|].
    split; [now exists []|]. split; [reflexivity|].
    split; [discriminate|intros (? & [])].
  - cbn [sync_page].
    destruct (JS.geq (synced st) (maxGrants options)) eqn:Hcap.
    { exists []. cbn [fst snd]. split; [apply advanced_refl|]. split; [reflexivity|].
      split; [now exists (g :: rest)|]. split; [congruence|].
      split; [discriminate|intros (? & [])]. }
    assert (Hstep : forall d a b c,
              advanced st (record st g d a b c) [(g, d)] ->
              d <> Threw ->
              Db.organisations c = Db.organisations (store st) ->
              exists j,
                advanced st
                  (snd (sync_page env options funder rest (record st g d a b c))) j /\
                Db.organisations
                  (store (snd (sync_page env options funder rest (record st g d a b c))))
                = Db.organisations (store st) /\
                (exists r, g :: rest = map fst j ++ r) /\
                (JS.geq (synced (snd (sync_page env options funder rest
                                        (record st g d a b c)))) (maxGrants options)
                 = false ->
                 (forall x, ~ In (x, Threw) j) -> map fst j = g :: rest) /\
                (fst (sync_page env options funder rest (record st g d a b c)) = Abandoned
                 <-> exists x, In (x, Threw) j)).
    { intros d a b c Hone Hd Hc.
      destruct (IH (record st g d a b c)) as (j & Hadv & Horg & (r & Hr) & Hall & Hab).
      exists ((g, d) :: j). split; [apply (advanced_trans _ _ _ [_] j Hone Hadv)|].
      split; [rewrite Horg; exact Hc|].
      split; [exists r; simpl; now rewrite Hr|]. split.
      - intros Hlt Hno. simpl. rewrite (Hall Hlt); [reflexivity|].
        intros x Hx. apply (Hno x). now right.
      - rewrite Hab. split; intros (x & Hx); exists x; [now right|].
        destruct Hx as [E|Hx]; [|exact Hx]. injection E as _ E. now contradiction Hd. }
    assert (Hthrow : older_than_last_sync env options (Api.awardDate (Api.data g)) = false ->
              exists j,
                advanced st (record st g Threw (synced st) (skipped st) (store st)) j /\
                Db.organisations (store st) = Db.organisations (store st) /\
                (exists r, g :: rest = map fst j ++ r) /\
                (JS.geq (synced st) (maxGrants options) = false ->
                 (forall x, ~ In (x, Threw) j) -> map fst j = g :: rest) /\
                (@eq page_end Abandoned Abandoned <-> exists x, In (x, Threw) j)).
    { intros Hold. exists [(g, Threw)]. split; [now apply abandoned_advanced|].
      split; [reflexivity|]. split; [now exists rest|]. split.
      - intros _ Hno. exfalso. apply (Hno g). now left.
      - split; [intros _; exists g; now left|reflexivity]. }
    destruct (older_than_last_sync env options (Api.awardDate (Api.data g))) eqn:Hold.
    { apply Hstep; [|discriminate|reflexivity].
      apply advanced_one; simpl; try reflexivity; try lia. split; congruence. }
    destruct (incremental options && rejects (probe env (Api.grant_id g))).
    { cbn [fst snd]. now apply Hthrow. }
    destruct (incremental options && existing env (store st) (Api.grant_id g)).
    { apply Hstep; [|discriminate|reflexivity].
      apply advanced_one; simpl; try reflexivity; try lia. split; congruence. }
    cbv zeta. destruct (upsert env (grant_row funder g)).
    + apply Hstep; [|discriminate|reflexivity].
      apply advanced_one; simpl; try reflexivity; try lia. split; congruence.
    + apply Hstep; [|discriminate|reflexivity].
      apply advanced_one; simpl; try reflexivity; try lia. split; congruence.
    + cbn [fst snd]. now apply Hthrow.
Qed.

Lemma touch_funder_frame (funder : Db.Organisation) (results : list Api.GrantData)
    (st : Progress) :
  synced (touch_funder env funder results st) = synced st /\
  skipped (touch_funder env funder results st) = skipped st /\
  journal (touch_funder env funder results st) = journal st /\
  Db.grants (store (touch_funder env funder results st)) = Db.grants (store st).
Proof.
  unfold touch_funder. destruct results as [|g ?]; [auto|].
  destruct (Api.awardDate (Api.data g)); [auto| |];
    destruct (update_error env (Db.org_id funder)); auto.
Qed.

Lemma sync_funder_advanced (funder : Db.Organisation) (st : Progress) :
  exists j,
    advanced st (sync_funder env options funder st) j /\
    (JS.geq (synced (sync_funder env options funder st)) (maxGrants options) = false ->
     (forall g, ~ In (g, Threw) j) ->
     forall resp, getGrantsMade env (Db.org_id funder) = Some resp ->
                  map fst j = Api.results resp).
Proof.
  unfold sync_funder. destruct (getGrantsMade env (Db.org_id funder)) as [resp|].
  - destruct (sync_page_advanced funder (Api.results resp) st)
      as (j & (Hj & Hs & Hk & Hg & Ho) & _ & _ & Hall & _).
    destruct (sync_page env options funder (Api.results resp) st) as [[|] st'];
      cbn [fst snd] in *.
    + destruct (touch_funder_frame funder (Api.results resp) st') as (Ts & Tk & Tj & Tg).
      exists j. split.
      * unfold advanced. rewrite Ts, Tk, Tj, Tg. auto.
      * rewrite Ts. intros H Hno resp' E. injection E as <-. now apply Hall.
    + exists j. split; [unfold advanced; auto|].
      intros H Hno resp' E. injection E as <-. now apply Hall.
  - exists []. split; [apply advanced_refl|]. intros _ _ resp E. discriminate.
Qed.

Lemma sync_funders_advanced (funders : list Db.Organisation) (st : Progress) :
  exists j,
    advanced st (sync_funders env options funders st) j /\
    (JS.geq (synced (sync_funders env options funders st)) (maxGrants options) = false ->
     (forall g, ~ In (g, Threw) j) ->
     forall f resp g,
       In f funders -> getGrantsMade env (Db.org_id f) = Some resp ->
       In g (Api.results resp) -> In g (map fst j)).
Proof.
  revert st. induction funders as [|f rest IH]; intros st.
  - exists []. split; [apply advanced_refl|]. intros _ _ ? ? ? [].
  - cbn [sync_funders].
    destruct (JS.geq (synced st) (maxGrants options)) eqn:Hcap.
    { exists []. split; [apply advanced_refl|]. congruence. }
    destruct (sync_funder_advanced f st) as (j1 & Hadv1 & Hall1).
    destruct (IH (sync_funder env options f st)) as (j2 & Hadv2 & Hall2).
    exists (j1 ++ j2). split; [eapply advanced_trans; eassumption|].
    intros Hlt Hno f' resp g [<-|Hin] Hresp Hg; rewrite map_app; apply in_or_app.
    + left. rewrite (Hall1 (geq_mono _ _ _ (advanced_synced _ _ _ Hadv2) Hlt)
                       (fun x Hx => Hno x (in_or_app _ _ _ (or_introl Hx))) resp Hresp).
      exact Hg.
    + right. eapply Hall2; try eassumption.
      intros x Hx. apply (Hno x). apply in_or_app. now right.
Qed.

End SyncProofs.





(** C5: the code takes the award date of the first grant of the page.  On
    a page that lists an earlier grant first, [last_grant_made_date]
    becomes that earlier date, not the latest one of the page. *)
Lemma last_grant_made_date_is_first_of_page :
  SyncFacts.last_grant_made_date_of "GB-CHC-1001"
    (Sync.store (snd (Sync.syncGrantsForFunders
                        (SyncSamples.env SyncSamples.ascending_page)
                        (SyncSamples.full 500) SyncSamples.store)))
  = Some (Some "2020-03-01"%string) /\
  In (SyncSamples.grant "360G-north-0051" "2023-09-30") SyncSamples.ascending_page /\
  Sync.date_lt (SyncSamples.env SyncSamples.ascending_page)
    "2020-03-01" "2023-09-30" = true.
Proof.
  split; [vm_compute; reflexivity|].
  split; [right; now left|vm_compute; reflexivity].
Qed.

(** ** The match cache *)

Section CacheProofs.

Import Matching MatchFacts.

Variable env : Env.

Lemma select_cases {A} (f : Db.fault) (rows : Db.Store -> option A) (w : World) :
  match f with
  | Db.Succeeds => select f rows w = (Ok {| Db.data := rows (db w); Db.error := None |}, w)
  | Db.ReturnsError m => select f rows w = (Ok {| Db.data := None; Db.error := Some m |}, w)
  | Db.Throws m => select f rows w = (Err m, w)
  end.
Proof. destruct f; reflexivity. Qed.

(** A lookup never fails and never writes: it is a hit on the one live
    row of the pair, and a miss otherwise. *)
Lemma checkCache_cases (charityNumber : Z) (key : string) (w : World) :
  checkCache env charityNumber key w =
  (Ok match cache_read env with
      | Db.Succeeds =>
          match single (cache_rows (db w) charityNumber key (now env)) with
          | Some row => {| hit := true; matches := Some (Db.matches row);
                           cacheKey := Some key; createdAt := Some (Db.created_at row) |}
          | None => miss key
          end
      | _ => miss key
      end, w).
Proof.
  unfold checkCache, try_catch, bind.
  pose proof (select_cases (cache_read env)
                (fun st => single (cache_rows st charityNumber key (now env))) w) as H.
  destruct (cache_read env); rewrite H; simpl; try reflexivity.
  destruct (single (cache_rows (db w) charityNumber key (now env))); reflexivity.
Qed.

(** A store never fails; it leaves the trace alone, and the cache either
    as it was or with the one row upserted. *)
Lemma saveToCache_cases (p : CharityProfile) (key : string)
    (ms : list Db.FunderMatch) (w : World) :
  exists w',
    saveToCache env p key ms w = (Ok tt, w') /\
    trace w' = trace w /\
    (db w' = db w \/
     exists row,
       Db.matches row = ms /\ Db.charity_number row = reg_charity_number p /\
       Db.cache_key row = key /\
       Db.expires_at row = plus_days env (now env) 7 /\
       key_taken row (Db.match_cache (db w)) = false /\
       db w' = Db.set_match_cache (db w) (upsert_entry row (Db.match_cache (db w)))).
Proof.
  unfold saveToCache, try_catch, bind.
  pose proof (select_cases (last_sync_query env)
                (fun st => last_completed (Db.sync_logs st)) w) as H.
  destruct (last_sync_query env); rewrite H; clear H.
  3: { exists w. simpl. auto. }
  all: destruct (cache_write env); simpl;
    try (exists w; simpl; auto; fail).
  all: match goal with
       | |- context [key_taken ?r ?c] => destruct (key_taken r c) eqn:Hk
       end;
    try (exists w; simpl; auto; fail).
  all: eexists; split; [reflexivity|]; split; [reflexivity|]; right;
    eexists; repeat split; try reflexivity; exact Hk.
Qed.

Lemma invalidate_cases (syncDate : Z) (w : World) :
  invalidateCacheBeforeSync env syncDate w =
  match cache_delete env with
  | Db.Succeeds =>
      (Ok (Z.of_nat (List.length (filter (stale syncDate) (Db.match_cache (db w))))),
       {| db := Db.set_match_cache (db w)
                  (filter (fun e => negb (stale syncDate e)) (Db.match_cache (db w)));
          trace := trace w |})
  | _ => (Ok 0, w)
  end.
Proof.
  unfold invalidateCacheBeforeSync, try_catch, bind.
  destruct (cache_delete env); reflexivity.
Qed.

Lemma unique_keys_inj (c : list Db.MatchCacheEntry) (a b : Db.MatchCacheEntry) :
  unique_keys c -> In a c -> In b c -> entry_key a = entry_key b -> a = b.
Proof.
  unfold unique_keys. induction c as [|x c IH]; simpl; intros Hnd Ha Hb E; [contradiction|].
  inversion Hnd as [|? ? Hx Hc]; subst.
  destruct Ha as [->|Ha], Hb as [->|Hb]; auto.
  - exfalso. apply Hx. rewrite E. now apply in_map.
  - exfalso. apply Hx. rewrite <- E. now apply in_map.
Qed.

Lemma filter_length_split {A} (p : A -> bool) (l : list A) :
  List.length l = (List.length (filter p l) + List.length (filter (fun x => negb (p x)) l))%nat.
Proof.
  induction l as [|x l IH]; simpl; [reflexivity|].
  destruct (p x); simpl; lia.
Qed.

End CacheProofs.

(** C4 (as amended).  When the delete of the store succeeds, an entry
    whose [last_sync_at] is earlier than the date passed is gone from
    every later lookup of its pair, whatever its expiry, and the call
    returns the number of rows it removed. *)
Theorem invalidation_removes_older_entries (env : Matching.Env) (T1 T2 : Z)
    (e : Db.MatchCacheEntry) (w : Matching.World) :
  Matching.cache_delete env = Db.Succeeds ->
  MatchFacts.unique_keys (Db.match_cache (Matching.db w)) ->
  In e (Db.match_cache (Matching.db w)) ->
  Db.last_sync_at e = Some T1 ->
  T1 < T2 ->
  (forall env',
     fst (Matching.checkCache env' (Db.charity_number e) (Db.cache_key e)
            (snd (Matching.invalidateCacheBeforeSync env T2 w)))
     = Matching.Ok (Matching.miss (Db.cache_key e))) /\
  fst (Matching.invalidateCacheBeforeSync env T2 w)
  = Matching.Ok
      (Z.of_nat (List.length (Db.match_cache (Matching.db w)))
       - Z.of_nat (List.length
                     (Db.match_cache
                        (Matching.db (snd (Matching.invalidateCacheBeforeSync env T2 w)))))).
Proof.
  intros Hdel Huniq Hin Hlast Hlt.
  rewrite invalidate_cases, Hdel. cbn [fst snd Matching.db]. split.
  - intros env'. rewrite checkCache_cases. cbn [fst Matching.db].
    assert (Hrows : Matching.cache_rows
                      (Db.set_match_cache (Matching.db w)
                         (filter (fun e0 => negb (Matching.stale T2 e0))
                            (Db.match_cache (Matching.db w))))
                      (Db.charity_number e) (Db.cache_key e) (Matching.now env') = []).
    { unfold Matching.cache_rows. cbn [Db.match_cache Db.set_match_cache].
      destruct (filter _ (filter _ _)) as [|x l] eqn:E; [reflexivity|exfalso].
      assert (Hx : In x (x :: l)) by now left. rewrite <- E in Hx.
      apply filter_In in Hx as [Hx Hkey]. apply filter_In in Hx as [Hx Hfresh].
      apply andb_prop in Hkey as [Hkey _]. apply andb_prop in Hkey as [Hcn Hck].
      apply Z.eqb_eq in Hcn. apply String.eqb_eq in Hck.
      assert (x = e) as ->.
      { apply (unique_keys_inj _ _ _ Huniq Hx Hin).
        unfold MatchFacts.entry_key. now rewrite Hcn, Hck. }
      unfold Matching.stale in Hfresh. rewrite Hlast in Hfresh.
      apply negb_true_iff, Z.ltb_ge in Hfresh. lia. }
    rewrite Hrows. destruct (Matching.cache_read env'); reflexivity.
  - cbn [Db.match_cache Db.set_match_cache]. f_equal.
    pose proof (filter_length_split (Matching.stale T2)
                  (Db.match_cache (Matching.db w))) as Hsplit.
    lia.
Qed.

(** C4 on the sample cache: the entry computed against the
    synchronisation of time 100 is gone after the invalidation for time
    200, although it expires much later; one row was removed. *)
Lemma invalidation_removes_sample_entry :
  fst (Matching.checkCache (MatchSamples.healthy []) 1234567
         "600a013ddc04b054628f885be3b6aab8"
         (snd (Matching.invalidateCacheBeforeSync (MatchSamples.healthy []) 200
                 (MatchSamples.world [] [MatchSamples.entry (Some 100)]))))
  = Matching.Ok (Matching.miss "600a013ddc04b054628f885be3b6aab8") /\
  fst (Matching.invalidateCacheBeforeSync (MatchSamples.healthy []) 200
         (MatchSamples.world [] [MatchSamples.entry (Some 100)]))
  = Matching.Ok 1.
Proof.
  destruct (invalidation_removes_older_entries (MatchSamples.healthy []) 100 200
              (MatchSamples.entry (Some 100))
              (MatchSamples.world [] [MatchSamples.entry (Some 100)]))
    as [Hmiss Hcount].
  - reflexivity.
  - repeat constructor. intros [].
  - now left.
  - reflexivity.
  - lia.
  - split; [apply (Hmiss (MatchSamples.healthy []))|exact Hcount].
Defined.

(** C4 (as stated) fails when the delete reports an error: the call
    returns 0, the older entry stays, and the next lookup is a hit. *)
Lemma invalidation_swallows_store_error :
  Db.last_sync_at (MatchSamples.entry (Some 100)) = Some 100 /\
  fst (Matching.invalidateCacheBeforeSync
         (MatchSamples.env [] Db.Succeeds Db.Succeeds (Db.ReturnsError "timeout")) 200
         (MatchSamples.world [] [MatchSamples.entry (Some 100)]))
  = Matching.Ok 0 /\
  Matching.hit
    (match fst (Matching.checkCache (MatchSamples.healthy []) 1234567
                  "600a013ddc04b054628f885be3b6aab8"
                  (snd (Matching.invalidateCacheBeforeSync
                          (MatchSamples.env [] Db.Succeeds Db.Succeeds
                             (Db.ReturnsError "timeout")) 200
                          (MatchSamples.world [] [MatchSamples.entry (Some 100)])))) with
     | Matching.Ok c => c
     | Matching.Err _ => Matching.miss EmptyString
     end) = true.
Proof. repeat split. Qed.

(** C10.  Whatever date is passed and whatever the store does, the
    invalidation keeps every entry without [last_sync_at] and every entry
    whose [last_sync_at] is not before the date: the entries that do not
    satisfy the delete filter are the same rows, in the same order, and
    the other tables are untouched. *)
Theorem invalidation_keeps_unsynced_and_newer_entries (env : Matching.Env)
    (syncDate : Z) (w : Matching.World) :
  (forall e, In e (Db.match_cache (Matching.db w)) ->
             Db.last_sync_at e = None ->
             In e (Db.match_cache
                     (Matching.db (snd (Matching.invalidateCacheBeforeSync env syncDate w))))) /\
  (forall e t, In e (Db.match_cache (Matching.db w)) ->
               Db.last_sync_at e = Some t -> syncDate <= t ->
               In e (Db.match_cache
                       (Matching.db (snd (Matching.invalidateCacheBeforeSync env syncDate w))))) /\
  filter (fun e => negb (Matching.stale syncDate e))
    (Db.match_cache (Matching.db (snd (Matching.invalidateCacheBeforeSync env syncDate w))))
  = filter (fun e => negb (Matching.stale syncDate e)) (Db.match_cache (Matching.db w)) /\
  Db.organisations (Matching.db (snd (Matching.invalidateCacheBeforeSync env syncDate w)))
  = Db.organisations (Matching.db w) /\
  Db.grants (Matching.db (snd (Matching.invalidateCacheBeforeSync env syncDate w)))
  = Db.grants (Matching.db w) /\
  Db.sync_logs (Matching.db (snd (Matching.invalidateCacheBeforeSync env syncDate w)))
  = Db.sync_logs (Matching.db w).
Proof.
  rewrite invalidate_cases.
  assert (Hfresh : forall e, In e (Db.match_cache (Matching.db w)) ->
                    Matching.stale syncDate e = false ->
                    In e (filter (fun e0 => negb (Matching.stale syncDate e0))
                            (Db.match_cache (Matching.db w)))).
  { intros e Hin Hs. apply filter_In. split; [exact Hin|]. now rewrite Hs. }
  destruct (Matching.cache_delete env); cbn [snd Matching.db Db.match_cache
    Db.set_match_cache Db.organisations Db.grants Db.sync_logs].
  2,3: repeat split; auto.
  split; [|split; [|split; [|auto]]].
  - intros e Hin Hnone. apply Hfresh; [exact Hin|].
    unfold Matching.stale. now rewrite Hnone.
  - intros e t Hin Hsome Hle. apply Hfresh; [exact Hin|].
    unfold Matching.stale. rewrite Hsome. now apply Z.ltb_ge.
  - clear Hfresh. induction (Db.match_cache (Matching.db w)) as [|x l IH]; [reflexivity|].
    simpl. destruct (Matching.stale syncDate x) eqn:E; simpl; [exact IH|].
    rewrite E. simpl. now rewrite IH.
Qed.

(** C10 on a cache with an entry stored before any synchronisation: it
    survives the invalidation for time 200, and the older one is removed. *)
Lemma invalidation_keeps_sample_unsynced_entry :
  Db.match_cache
    (Matching.db (snd (Matching.invalidateCacheBeforeSync (MatchSamples.healthy []) 200
                         (MatchSamples.world []
                            [MatchSamples.entry None; MatchSamples.entry (Some 100)]))))
  = [MatchSamples.entry None] /\
  In (MatchSamples.entry None)
     (Db.match_cache
        (Matching.db (snd (Matching.invalidateCacheBeforeSync (MatchSamples.healthy []) 200
                             (MatchSamples.world []
                                [MatchSamples.entry None; MatchSamples.entry (Some 100)]))))).
Proof.
  split; [reflexivity|].
  apply (proj1 (invalidation_keeps_unsynced_and_newer_entries
                  (MatchSamples.healthy []) 200
                  (MatchSamples.world []
                     [MatchSamples.entry None; MatchSamples.entry (Some 100)]))).
  - now left.
  - reflexivity.
Defined.

(** ** The matching pipeline *)

Section MatchingProofs.

Import Matching MatchFacts.

Variable env : Env.

Lemma fetch_sample_cases (f : Db.Organisation) (w : World) :
  fetch_sample env f w =
  match grants_query env (Db.org_id f) with
  | Db.Succeeds =>
      (Ok {| funder := f; grants := select_grants env (Db.org_id f) (db w) |}, w)
  | Db.ReturnsError _ => (Ok {| funder := f; grants := [] |}, w)
  | Db.Throws m => (Err m, w)
  end.
Proof.
  unfold fetch_sample, bind.
  pose proof (select_cases (grants_query env (Db.org_id f))
                (fun st => Some (select_grants env (Db.org_id f) st)) w) as H.
  destruct (grants_query env (Db.org_id f)); rewrite H; reflexivity.
Qed.

(** The samples are read without a write; the batch fails as a whole
    when a query rejects, and otherwise has one sample per funder. *)
Lemma mapM_fetch_sample (funders : list Db.Organisation) (w : World) :
  (exists m, mapM (fetch_sample env) funders w = (Err m, w)) \/
  (exists fwg, mapM (fetch_sample env) funders w = (Ok fwg, w) /\
               map funder fwg = funders).
Proof.
  induction funders as [|f rest IH]; simpl.
  - right. exists []. auto.
  - unfold bind. rewrite fetch_sample_cases.
    destruct (grants_query env (Db.org_id f)).
    + destruct IH as [(m & ->)|(fwg & -> & E)]; [left; eauto|right].
      eexists. split; [reflexivity|]. simpl. now rewrite E.
    + destruct IH as [(m & ->)|(fwg & -> & E)]; [left; eauto|right].
      eexists. split; [reflexivity|]. simpl. now rewrite E.
    + left. eauto.
Qed.

(** [matchFunders], step by step. *)
Lemma matchFunders_cases (p : CharityProfile) (force : bool) (w : World) :
  matchFunders env p force w =
  match funders_query env with
  | Db.Throws m => (Err m, w)
  | Db.ReturnsError m => (Err ("Failed to fetch funders: " ++ m)%string, w)
  | Db.Succeeds =>
      match select_funders (db w) with
      | [] => (Err "No funders found in database"%string, w)
      | funders =>
          let key := CacheKey.generateCacheKey p (map Db.org_id funders) in
          match (if force then None
                 else match fst (checkCache env (reg_charity_number p) key w) with
                      | Ok c => if hit c then matches c else None
                      | Err _ => None
                      end) with
          | Some ms => (Ok ms, w)
          | None =>
              match mapM (fetch_sample env) funders w with
              | (Err m, _) => (Err m, w)
              | (Ok fwg, _) =>
                  let prompt := buildMatchingPrompt env p fwg in
                  let w1 := {| db := db w;
                               trace := trace w ++ [PromptBuilt prompt; ScoringCalled prompt] |} in
                  match claude env prompt with
                  | inl m => (Err m, w1)
                  | inr content =>
                      match first_text content with
                      | None => (Err "No text content in AI response"%string, w1)
                      | Some text =>
                          match parseMatchingResponse env text fwg with
                          | Err m => (Err m, w1)
                          | Ok ms =>
                              let sorted := JS.slice0 20 (JS.sort by_score_desc ms) in
                              (Ok sorted, snd (saveToCache env p key sorted w1))
                          end
                      end
                  end
              end
          end
      end
  end.
Proof.
  unfold matchFunders. unfold bind at 1.
  pose proof (select_cases (funders_query env) (fun st => Some (select_funders st)) w) as H.
  destruct (funders_query env); rewrite H; clear H; cbn [Db.error Db.data]; try reflexivity.
  destruct (select_funders (db w)) as [|f fs]; [reflexivity|].
  set (funders := f :: fs).
  cbv zeta. unfold bind at 1.
  assert (Hcached :
    (if force then ret None
     else bind (checkCache env (reg_charity_number p)
                  (CacheKey.generateCacheKey p (map Db.org_id funders)))
               (fun c => ret (if hit c then matches c else None))) w
    = (Ok (if force then None
           else match fst (checkCache env (reg_charity_number p)
                             (CacheKey.generateCacheKey p (map Db.org_id funders)) w) with
                | Ok c => if hit c then matches c else None
                | Err _ => None
                end), w)).
  { destruct force; [reflexivity|]. unfold bind. rewrite checkCache_cases. reflexivity. }
  rewrite Hcached. clear Hcached.
  match goal with |- context [if force then None else ?x] =>
    destruct (if force then None else x) as [ms|]; [reflexivity|] end.
  unfold bind at 1.
  destruct (mapM_fetch_sample funders w) as [(m & ->)|(fwg & -> & _)]; [reflexivity|].
  unfold bind, emit. cbn [db trace]. rewrite <- app_assoc. cbn [app].
  destruct (claude env (buildMatchingPrompt env p fwg)) as [m|content]; [reflexivity|].
  destruct (first_text content) as [text|]; [|reflexivity].
  destruct (parseMatchingResponse env text fwg) as [ms|m]; [|reflexivity].
  cbn [lift ret].
  match goal with |- context [saveToCache env p ?k ?l ?w1] =>
    destruct (saveToCache_cases env p k l w1) as (w' & -> & _) end.
  reflexivity.
Qed.

End MatchingProofs.

Section RankingProofs.

Import Matching MatchFacts.

Lemma StronglySorted_weaken {A} (R R' : A -> A -> Prop) (l : list A) :
  (forall a b, R a b -> R' a b) -> StronglySorted R l -> StronglySorted R' l.
Proof.
  intros HR. induction 1 as [|a l Hs IH Hall]; constructor; [exact IH|].
  eapply Forall_impl; [|exact Hall]. auto.
Qed.

Lemma StronglySorted_firstn {A} (R : A -> A -> Prop) (n : nat) (l : list A) :
  StronglySorted R l -> StronglySorted R (firstn n l).
Proof.
  intros H. revert n. induction H as [|a l Hs IH Hall]; intros [|n]; simpl;
    try constructor; [apply IH|].
  rewrite Forall_forall in *. intros x Hx. apply Hall.
  eapply (In_nth_error) in Hx as (i & Hx).
  clear -Hx. revert n i Hx. induction l as [|y l IHl]; intros [|n] [|i] Hx;
    simpl in *; try discriminate.
  - injection Hx as <-. now left.
  - right. eapply IHl. exact Hx.
Qed.

Lemma top_twenty_ranked (ms : list Db.FunderMatch) :
  ranked (JS.slice0 20 (JS.sort by_score_desc ms)).
Proof.
  unfold ranked, JS.slice0. split.
  - apply StronglySorted_firstn.
    apply (StronglySorted_weaken (before (desc Db.match_score))).
    + unfold before, desc. intros a b H. lia.
    + apply (sort_sorted (desc Db.match_score)); [apply desc_total|apply desc_trans].
  - rewrite length_firstn. lia.
Qed.

Lemma top_twenty_stable (ms : list Db.FunderMatch) (k : Z) :
  of_rank Db.match_score k (JS.slice0 20 (JS.sort by_score_desc ms)) =
  firstn (List.length (of_rank Db.match_score k (JS.slice0 20 (JS.sort by_score_desc ms))))
         (of_rank Db.match_score k ms).
Proof.
  unfold JS.slice0. rewrite of_rank_firstn at 1.
  change by_score_desc with (desc Db.match_score).
  now rewrite sort_of_rank.
Qed.

Lemma upsert_entry_Forall (P : Db.MatchCacheEntry -> Prop) (row : Db.MatchCacheEntry)
    (c : list Db.MatchCacheEntry) :
  Forall P c -> P row -> Forall P (upsert_entry row c).
Proof.
  intros Hc Hr. induction Hc as [|e c He Hc IH]; simpl; [auto|].
  destruct (same_entry e row); auto.
Qed.

Lemma single_In {A} (l : list A) (r : A) : single l = Some r -> In r l.
Proof. destruct l as [|x [|y l]]; simpl; intros H; try discriminate. injection H as ->. now left. Qed.

Lemma map_or_throw_Forall2 {A B} (f : A -> option B) (l : list A) (l' : list B) :
  map_or_throw f l = Some l' -> Forall2 (fun a b => f a = Some b) l l'.
Proof.
  revert l'. induction l as [|a l IH]; simpl; intros l' H.
  - injection H as <-. constructor.
  - destruct (f a) as [b|] eqn:E; [|discriminate].
    destruct (map_or_throw f l) as [bs|]; [|discriminate].
    injection H as <-. constructor; auto.
Qed.

Lemma map_or_throw_None {A B} (f : A -> option B) (l : list A) :
  Exists (fun a => f a = None) l -> map_or_throw f l = None.
Proof.
  induction 1 as [a l H|a l H IH]; simpl.
  - now rewrite H.
  - destruct (f a); [|reflexivity]. now rewrite IH.
Qed.

Lemma to_match_Some (fwg : list FunderWithGrants) (it : MatchResponseItem)
    (m : Db.FunderMatch) :
  to_match fwg it = Some m ->
  In (funder_org_id it) (map Db.org_id (map funder fwg)) /\
  Db.match_score m = match_score it /\
  Db.org_id (Db.funder m) = funder_org_id it.
Proof.
  unfold to_match, JS.find.
  destruct (List.find _ fwg) as [fd|] eqn:E; [|discriminate].
  intros H. injection H as <-. apply find_some in E as [Hin Heq].
  apply String.eqb_eq in Heq. simpl. repeat split; [|exact Heq].
  rewrite <- Heq. apply in_map, in_map. exact Hin.
Qed.

Lemma to_match_None (fwg : list FunderWithGrants) (it : MatchResponseItem) :
  ~ In (funder_org_id it) (map Db.org_id (map funder fwg)) -> to_match fwg it = None.
Proof.
  intros Hnot. destruct (to_match fwg it) as [m|] eqn:E; [|reflexivity].
  exfalso. apply Hnot. now apply to_match_Some in E.
Qed.

Lemma parseMatchingResponse_cases (env : Env) (text : string)
    (fwg : list FunderWithGrants) :
  parseMatchingResponse env text fwg =
  match JSON_parse env (json_text text) with
  | None => Err PARSE_ERROR
  | Some items =>
      match map_or_throw (to_match fwg) items with
      | None => Err PARSE_ERROR
      | Some l => Ok l
      end
  end.
Proof. reflexivity. Qed.

Lemma app_two_neq {A} (l : list A) (a b : A) : l <> l ++ [a; b].
Proof.
  intros H. apply (f_equal (@List.length A)) in H. rewrite length_app in H.
  simpl in H. lia.
Qed.

End RankingProofs.

(** C7.  From a store whose cached lists are ranked (as every list the
    code caches is), a list that [matchFunders] returns is sorted by
    descending score and has at most twenty matches, and the cache stays
    ranked.  The list is either the cached one, or the first twenty of
    the stably sorted parse of the response: among matches of one score,
    the order of the response is kept. *)
Theorem matchFunders_returns_ranked_matches (env : Matching.Env) (p : CharityProfile)
    (force : bool) (w w' : Matching.World) (ms : list Db.FunderMatch) :
  MatchFacts.cache_ranked (Matching.db w) ->
  Matching.matchFunders env p force w = (Matching.Ok ms, w') ->
  MatchFacts.ranked ms /\
  MatchFacts.cache_ranked (Matching.db w') /\
  ((force = false /\ w' = w /\
    exists row, In row (Db.match_cache (Matching.db w)) /\ ms = Db.matches row)
   \/
   (exists fwg text items parsed,
      map Matching.funder fwg = Matching.select_funders (Matching.db w) /\
      Matching.JSON_parse env (MatchFacts.json_text text) = Some items /\
      Forall2 (fun it m => Matching.to_match fwg it = Some m) items parsed /\
      ms = JS.slice0 20 (JS.sort Matching.by_score_desc parsed) /\
      forall k, of_rank Db.match_score k ms =
                firstn (List.length (of_rank Db.match_score k ms))
                       (of_rank Db.match_score k parsed))).
Proof.
  intros Hcache Hrun. rewrite matchFunders_cases in Hrun.
  destruct (Matching.funders_query env); try discriminate.
  destruct (Matching.select_funders (Matching.db w)) as [|f fs] eqn:Hsel; [discriminate|].
  cbv zeta in Hrun.
  match type of Hrun with
  | context [if force then None else ?x] =>
      destruct (if force then None else x) as [cached|] eqn:Hhit
  end.
  - (* the cached list *)
    injection Hrun as <- <-.
    destruct force; [discriminate|].
    rewrite checkCache_cases in Hhit. cbn [fst] in Hhit.
    destruct (Matching.cache_read env); try discriminate.
    destruct (Matching.single _) as [row|] eqn:Hrow; [|discriminate].
    cbn [Matching.hit Matching.matches] in Hhit. injection Hhit as <-.
    apply single_In in Hrow. unfold Matching.cache_rows in Hrow.
    apply filter_In in Hrow as [Hrow _].
    split; [|split; [exact Hcache|]].
    + unfold MatchFacts.cache_ranked in Hcache. rewrite Forall_forall in Hcache. auto.
    + left. repeat split. now exists row.
  - (* the computed list *)
    destruct (mapM_fetch_sample env (f :: fs) w) as [(m & E)|(fwg & E & Hfwg)];
      rewrite E in Hrun; [discriminate|].
    destruct (Matching.claude env _) as [m|content]; [discriminate|].
    destruct (Matching.first_text content) as [text|]; [|discriminate].
    rewrite parseMatchingResponse_cases in Hrun.
    destruct (Matching.JSON_parse env (MatchFacts.json_text text)) as [items|] eqn:Hitems;
      [|discriminate].
    destruct (Matching.map_or_throw _ items) as [parsed|] eqn:Hparsed; [|discriminate].
    injection Hrun as <- <-.
    split; [apply top_twenty_ranked|]. split.
    + match goal with |- context [Matching.saveToCache env p ?k ?l ?w1] =>
        destruct (saveToCache_cases env p k l w1)
          as (w2 & -> & _ & [Hdb|(row & Hms & _ & _ & _ & _ & Hdb)]) end;
        cbn [snd]; rewrite Hdb; cbn [Matching.db]; [exact Hcache|].
      unfold MatchFacts.cache_ranked. cbn [Db.match_cache Db.set_match_cache].
      apply upsert_entry_Forall; [exact Hcache|]. rewrite Hms. apply top_twenty_ranked.
    + right. exists fwg, text, items, parsed.
      split; [exact Hfwg|]. split; [exact Hitems|].
      split; [now apply map_or_throw_Forall2|]. split; [reflexivity|].
      apply top_twenty_stable.
Qed.

(** C7 on the sample store: two funders scored 70 and 85 come back in
    descending order. *)
Lemma matchFunders_ranks_sample_matches :
  MatchFacts.ranked
    (match fst (Matching.matchFunders
                  (MatchSamples.healthy [MatchSamples.item "GB-CHC-1001" 70;
                                         MatchSamples.item "GB-CHC-2002" 85])
                  Samples.charity false
                  (MatchSamples.world [MatchSamples.northern; MatchSamples.harbour] [])) with
     | Matching.Ok ms => ms
     | Matching.Err _ => []
     end) /\
  map Db.match_score
    (match fst (Matching.matchFunders
                  (MatchSamples.healthy [MatchSamples.item "GB-CHC-1001" 70;
                                         MatchSamples.item "GB-CHC-2002" 85])
                  Samples.charity false
                  (MatchSamples.world [MatchSamples.northern; MatchSamples.harbour] [])) with
     | Matching.Ok ms => ms
     | Matching.Err _ => []
     end) = [85; 70].
Proof.
  destruct (Matching.matchFunders
              (MatchSamples.healthy [MatchSamples.item "GB-CHC-1001" 70;
                                     MatchSamples.item "GB-CHC-2002" 85])
              Samples.charity false
              (MatchSamples.world [MatchSamples.northern; MatchSamples.harbour] []))
    as [[ms|m] w'] eqn:Hrun.
  - cbn [fst]. split.
    + eapply matchFunders_returns_ranked_matches; [|exact Hrun]. constructor.
    + vm_compute in Hrun. injection Hrun as <- _. reflexivity.
  - vm_compute in Hrun. discriminate.
Defined.

(** C6.  Take a call that sent a prompt to the scoring service and got a
    text whose parse is [items].  If an item names no funder of the list
    queried in step 1, the whole call fails with the parse error and
    nothing is cached; and a call that returns a list has resolved every
    item, the list holding one match per item up to the limit of
    twenty. *)
Theorem unknown_funder_fails_the_call (env : Matching.Env) (p : CharityProfile)
    (force : bool) (w w' : Matching.World) (r : Matching.result (list Db.FunderMatch))
    (prompt : string) (content : list Matching.ContentBlock) (text : string)
    (items : list Matching.MatchResponseItem) :
  Matching.matchFunders env p force w = (r, w') ->
  Matching.trace w' =
    Matching.trace w ++ [Matching.PromptBuilt prompt; Matching.ScoringCalled prompt] ->
  Matching.claude env prompt = inr content ->
  Matching.first_text content = Some text ->
  Matching.JSON_parse env (MatchFacts.json_text text) = Some items ->
  (Exists (fun it => ~ MatchFacts.known (Matching.select_funders (Matching.db w)) it) items ->
   r = Matching.Err Matching.PARSE_ERROR /\ Matching.db w' = Matching.db w) /\
  (forall ms, r = Matching.Ok ms ->
     Forall (MatchFacts.known (Matching.select_funders (Matching.db w))) items /\
     List.length ms = Nat.min 20 (List.length items)).
Proof.
  intros Hrun Htrace Hclaude Htext Hitems.
  rewrite matchFunders_cases in Hrun.
  destruct (Matching.funders_query env);
    [|injection Hrun as _ <-; now apply app_two_neq in Htrace..].
  destruct (Matching.select_funders (Matching.db w)) as [|f fs] eqn:Hsel;
    [injection Hrun as _ <-; now apply app_two_neq in Htrace|].
  cbv zeta in Hrun.
  match type of Hrun with
  | context [if force then None else ?x] =>
      destruct (if force then None else x) as [cached|]
  end; [injection Hrun as _ <-; now apply app_two_neq in Htrace|].
  destruct (mapM_fetch_sample env (f :: fs) w) as [(m & E)|(fwg & E & Hfwg)];
    rewrite E in Hrun; [injection Hrun as _ <-; now apply app_two_neq in Htrace|].
  assert (Hprompt : Matching.buildMatchingPrompt env p fwg = prompt).
  { assert (Hw' : Matching.trace w' =
                  Matching.trace w ++
                  [Matching.PromptBuilt (Matching.buildMatchingPrompt env p fwg);
                   Matching.ScoringCalled (Matching.buildMatchingPrompt env p fwg)]).
    { destruct (Matching.claude env _); [now injection Hrun as _ <-|].
      destruct (Matching.first_text _); [|now injection Hrun as _ <-].
      destruct (Matching.parseMatchingResponse env _ fwg); [|now injection Hrun as _ <-].
      injection Hrun as _ <-.
      match goal with |- context [Matching.saveToCache env p ?k ?l ?w1] =>
        destruct (saveToCache_cases env p k l w1) as (w2 & -> & Ht & _) end.
      cbn [snd]. rewrite Ht. reflexivity. }
    rewrite Hw' in Htrace. apply app_inv_head in Htrace. now injection Htrace. }
  rewrite Hprompt, Hclaude, Htext, parseMatchingResponse_cases, Hitems in Hrun.
  assert (Hknown : forall it,
            MatchFacts.known (f :: fs) it <->
            In (Matching.funder_org_id it) (map Db.org_id (map Matching.funder fwg))).
  { intros it. unfold MatchFacts.known. now rewrite Hfwg. }
  split.
  - intros Hex. rewrite map_or_throw_None in Hrun.
    + now injection Hrun as <- <-.
    + eapply Exists_impl; [|exact Hex]. intros it Hnot.
      apply to_match_None. now rewrite <- Hknown.
  - intros ms ->.
    destruct (Matching.map_or_throw _ items) as [parsed|] eqn:Hparsed; [|discriminate].
    assert (Hms : ms = JS.slice0 20 (JS.sort Matching.by_score_desc parsed))
      by congruence.
    subst ms. clear Hrun. apply map_or_throw_Forall2 in Hparsed. split.
    + apply Forall_forall. intros it Hin. apply Hknown.
      apply In_nth_error in Hin as (i & Hi).
      clear -Hparsed Hi. revert i Hi.
      induction Hparsed as [|a b l l' Hab _ IH]; intros [|i] Hi; simpl in Hi;
        try discriminate.
      * injection Hi as <-. now apply to_match_Some in Hab.
      * eapply IH, Hi.
    + unfold JS.slice0. rewrite length_firstn, sort_length.
      now rewrite (Forall2_length Hparsed).
Qed.

(** C6 on the sample store: the response names the unknown funder
    GB-CHC-7777, and the call fails with the parse error. *)
Lemma unknown_funder_fails_sample_call :
  fst (Matching.matchFunders
         (MatchSamples.healthy [MatchSamples.item "GB-CHC-1001" 70;
                                MatchSamples.item "GB-CHC-7777" 90])
         Samples.charity false
         (MatchSamples.world [MatchSamples.northern; MatchSamples.harbour] []))
  = Matching.Err Matching.PARSE_ERROR /\
  Matching.db
    (snd (Matching.matchFunders
            (MatchSamples.healthy [MatchSamples.item "GB-CHC-1001" 70;
                                   MatchSamples.item "GB-CHC-7777" 90])
            Samples.charity false
            (MatchSamples.world [MatchSamples.northern; MatchSamples.harbour] [])))
  = MatchSamples.store [MatchSamples.northern; MatchSamples.harbour] [].
Proof.
  destruct (unknown_funder_fails_the_call
              (MatchSamples.healthy [MatchSamples.item "GB-CHC-1001" 70;
                                     MatchSamples.item "GB-CHC-7777" 90])
              Samples.charity false
              (MatchSamples.world [MatchSamples.northern; MatchSamples.harbour] [])
              _ _ "Riverside Youth Trust" [Matching.TextBlock "scores"] "scores"
              [MatchSamples.item "GB-CHC-1001" 70; MatchSamples.item "GB-CHC-7777" 90]
              (surjective_pairing _)) as [Hfail _].
  - vm_compute. reflexivity.
  - reflexivity.
  - reflexivity.
  - vm_compute. reflexivity.
  - apply Hfail. right. left. intros Hk. vm_compute in Hk.
    destruct Hk as [Hk|[Hk|[]]]; discriminate.
Defined.

(** C9.  When the store holds no organisation flagged as a funder and
    the query for the funders answers, [matchFunders] fails with the
    error of the missing funders, [No funders found in database].  In
    that case no prompt is built and the scoring service is not called:
    the call ends in the world it started in, with nothing added to its
    trace.  The same holds of the world when the query itself fails, a
    failure with an error of its own: the message of an error reply
    behind [Failed to fetch funders: ], the message of a rejection as it
    is. *)
Theorem no_funders_no_scoring (env : Matching.Env) (p : CharityProfile)
    (force : bool) (w : Matching.World) :
  filter Db.is_funder (Db.organisations (Matching.db w)) = [] ->
  (Matching.funders_query env = Db.Succeeds ->
   Matching.matchFunders env p force w
   = (Matching.Err "No funders found in database"%string, w)) /\
  (forall m, Matching.funders_query env = Db.ReturnsError m ->
   Matching.matchFunders env p force w
   = (Matching.Err ("Failed to fetch funders: " ++ m)%string, w)) /\
  (forall m, Matching.funders_query env = Db.Throws m ->
   Matching.matchFunders env p force w = (Matching.Err m, w)) /\
  (forall prompt,
     ~ In (Matching.PromptBuilt prompt)
          (skipn (List.length (Matching.trace w))
                 (Matching.trace (snd (Matching.matchFunders env p force w)))) /\
     ~ In (Matching.ScoringCalled prompt)
          (skipn (List.length (Matching.trace w))
                 (Matching.trace (snd (Matching.matchFunders env p force w))))).
Proof.
  intros Hnone. rewrite matchFunders_cases.
  unfold Matching.select_funders. rewrite Hnone. cbn [JS.sort fold_right firstn].
  assert (Hskip : forall e : Matching.effect,
            ~ In e (skipn (List.length (Matching.trace w)) (Matching.trace w))).
  { intros e. rewrite skipn_all. intros []. }
  destruct (Matching.funders_query env) as [|m|m]; cbn [fst snd].
  - split; [reflexivity|]. split; [discriminate|]. split; [discriminate|].
    intros prompt. split; apply Hskip.
  - split; [discriminate|]. split; [now intros m' [= <-]|]. split; [discriminate|].
    intros prompt. split; apply Hskip.
  - split; [discriminate|]. split; [discriminate|]. split; [now intros m' [= <-]|].
    intros prompt. split; apply Hskip.
Qed.

(** C9 on a store that holds a recipient only. *)
Lemma no_funders_no_scoring_sample :
  Matching.matchFunders (MatchSamples.healthy []) Samples.charity false
    (MatchSamples.world [MatchSamples.shelter] [])
  = (Matching.Err "No funders found in database"%string,
     MatchSamples.world [MatchSamples.shelter] []).
Proof.
  destruct (no_funders_no_scoring (MatchSamples.healthy []) Samples.charity false
              (MatchSamples.world [MatchSamples.shelter] []) eq_refl)
    as (Herr & _).
  apply Herr. reflexivity.
Defined.

Section CacheFailureProofs.

Import Matching MatchFacts.

Lemma failing_read_is_miss (env : Env) (charityNumber : Z) (key : string) (w : World) :
  failing (cache_read env) ->
  checkCache env charityNumber key w = (Ok (miss key), w).
Proof.
  intros Hf. rewrite checkCache_cases.
  destruct (cache_read env); [now contradiction Hf|reflexivity..].
Qed.

Lemma failing_read_is_bypass (env : Env) (p : CharityProfile) (w : World) :
  failing (cache_read env) ->
  matchFunders env p false w = matchFunders env p true w.
Proof.
  intros Hf. rewrite !matchFunders_cases.
  destruct (funders_query env); try reflexivity.
  destruct (select_funders (db w)); [reflexivity|].
  cbv zeta. rewrite failing_read_is_miss by exact Hf. reflexivity.
Qed.

Lemma failing_read_serves_nothing (env : Env) (p : CharityProfile) (force : bool)
    (w : World) :
  failing (cache_read env) -> served env p force w = None.
Proof.
  intros Hf. unfold served. destruct force; [reflexivity|].
  now rewrite failing_read_is_miss by exact Hf.
Qed.

Lemma write_faults_do_not_change_result (env : Env) (l wr : Db.fault)
    (p : CharityProfile) (force : bool) (w : World) :
  fst (matchFunders (with_write_faults env l wr) p force w) =
  fst (matchFunders env p force w).
Proof.
  rewrite !matchFunders_cases.
  change (checkCache (with_write_faults env l wr)) with (checkCache env).
  change (fetch_sample (with_write_faults env l wr)) with (fetch_sample env).
  change (parseMatchingResponse (with_write_faults env l wr))
    with (parseMatchingResponse env).
  cbn [with_write_faults funders_query claude buildMatchingPrompt].
  destruct (funders_query env); try reflexivity.
  destruct (select_funders (db w)); [reflexivity|].
  cbv zeta.
  match goal with
  | |- context [if force then None else ?x] => destruct (if force then None else x)
  end; [reflexivity|].
  destruct (mapM (fetch_sample env) _ w) as [[fwg|m] w1]; [|reflexivity].
  destruct (claude env _); [reflexivity|].
  destruct (first_text _); [|reflexivity].
  destruct (parseMatchingResponse env _ fwg); reflexivity.
Qed.

Lemma computed_under_cache_faults (env : Env) (rd l wr : Db.fault)
    (p : CharityProfile) (force : bool) (w : World) (ms : list Db.FunderMatch) :
  computes env p w ms ->
  fst (matchFunders (with_cache_faults env rd l wr) p force w) =
  Ok match served (with_cache_faults env rd l wr) p force w with
     | Some cached => cached
     | None => top_twenty ms
     end.
Proof.
  intros (Hq & Hsome & fwg & content & text & Hfetch & Hclaude & Htext & Hparse).
  rewrite matchFunders_cases. unfold served, call_key.
  change (fetch_sample (with_cache_faults env rd l wr)) with (fetch_sample env).
  change (parseMatchingResponse (with_cache_faults env rd l wr))
    with (parseMatchingResponse env).
  cbn [with_cache_faults funders_query claude buildMatchingPrompt].
  rewrite Hq.
  destruct (select_funders (db w)) as [|f fs] eqn:Hsel; [now contradiction Hsome|].
  cbv zeta.
  match goal with
  | |- context [if force then None else ?x] => destruct (if force then None else x)
  end; [reflexivity|].
  destruct (mapM (fetch_sample env) (f :: fs) w) as [r w1].
  cbn [fst] in Hfetch. subst r.
  rewrite Hclaude, Htext, Hparse. reflexivity.
Qed.

End CacheFailureProofs.

(** C8 (as amended).  Take a call of [matchFunders] whose computation
    succeeds with the matches [ms]: the funder query answers with a
    funder at least, the samples of grants are fetched, the scoring
    service answers and its text parses to [ms].  Whatever the faults of
    the cache, of its read and of the two queries of its write, the call
    succeeds: it returns the list that a readable cache serves, and
    otherwise the first twenty of the sorted [ms].  A failing read serves
    nothing, as a forced refresh does, so the call then returns the
    computed list; a failing read is a miss that leaves the world alone,
    and the call goes on exactly as a forced refresh does; a store into
    the cache never fails and leaves the trace alone; and what the call
    returns does not depend on the faults of the cache writes. *)
Theorem cache_failures_never_fail_the_computation :
  (forall env read last_sync write p force w ms,
     MatchFacts.computes env p w ms ->
     fst (Matching.matchFunders
            (MatchFacts.with_cache_faults env read last_sync write) p force w)
     = Matching.Ok
         match MatchFacts.served
                 (MatchFacts.with_cache_faults env read last_sync write) p force w with
         | Some cached => cached
         | None => MatchFacts.top_twenty ms
         end) /\
  (forall env p force w,
     MatchFacts.failing (Matching.cache_read env) \/ force = true ->
     MatchFacts.served env p force w = None) /\
  (forall env charityNumber key w,
     MatchFacts.failing (Matching.cache_read env) ->
     Matching.checkCache env charityNumber key w
     = (Matching.Ok (Matching.miss key), w)) /\
  (forall env p w,
     MatchFacts.failing (Matching.cache_read env) ->
     Matching.matchFunders env p false w = Matching.matchFunders env p true w) /\
  (forall env p key ms w,
     exists w', Matching.saveToCache env p key ms w = (Matching.Ok tt, w') /\
                Matching.trace w' = Matching.trace w) /\
  (forall env last_sync write p force w,
     fst (Matching.matchFunders (MatchFacts.with_write_faults env last_sync write) p force w)
     = fst (Matching.matchFunders env p force w)).
Proof.
  split; [intros; now apply computed_under_cache_faults|].
  split. { intros env p force w [Hf| ->]; [now apply failing_read_serves_nothing|reflexivity]. }
  split; [exact failing_read_is_miss|].
  split; [exact failing_read_is_bypass|].
  split; [|exact write_faults_do_not_change_result].
  intros env p key ms w.
  destruct (saveToCache_cases env p key ms w) as (w' & H & Ht & _). eauto.
Qed.

(** C8 on the sample store: with the cache unreadable and its writes
    rejected, the call returns the two funders that the scoring service
    scored 70 and 85, the higher score first. *)
Lemma cache_failures_sample_call :
  exists m1 m2,
    fst (Matching.matchFunders
           (MatchFacts.with_cache_faults
              (MatchSamples.healthy [MatchSamples.item "GB-CHC-1001" 70;
                                     MatchSamples.item "GB-CHC-2002" 85])
              (Db.Throws "cache down") (Db.Throws "cache down")
              (Db.ReturnsError "cache down"))
           Samples.charity false
           (MatchSamples.world [MatchSamples.northern; MatchSamples.harbour] []))
    = Matching.Ok [m2; m1] /\
    Db.funder m1 = MatchSamples.northern /\ Db.match_score m1 = 70 /\
    Db.funder m2 = MatchSamples.harbour /\ Db.match_score m2 = 85.
Proof.
  destruct cache_failures_never_fail_the_computation as (Hcall & Hserved & _).
  pose (m1 := MatchSamples.cached_match MatchSamples.northern 70).
  pose (m2 := MatchSamples.cached_match MatchSamples.harbour 85).
  exists m1, m2. split; [|repeat split].
  rewrite (Hcall _ _ _ _ _ _ _ [m1; m2]).
  - rewrite Hserved; [reflexivity|]. left. discriminate.
  - split; [reflexivity|]. split; [discriminate|].
    exists [ {| Matching.funder := MatchSamples.harbour; Matching.grants := [] |};
             {| Matching.funder := MatchSamples.northern; Matching.grants := [] |} ],
           [Matching.TextBlock "scores"], "scores"%string.
    repeat split; vm_compute; reflexivity.
Defined.

(** C8 (as stated) fails for a call that succeeds by its cache only.  The
    store holds a live entry for the call and the scoring service is
    down: with a readable cache the call returns the cached list, with an
    unreadable one the lookup is a miss, the computation is tried and the
    call fails with the error of the scoring service. *)
Lemma cache_read_failure_loses_a_hit :
  fst (Matching.matchFunders (MatchSamples.scoring_down Db.Succeeds)
         Samples.charity false
         (MatchSamples.world [MatchSamples.northern; MatchSamples.harbour]
                             [MatchSamples.live_entry]))
  = Matching.Ok (Db.matches MatchSamples.live_entry) /\
  fst (Matching.matchFunders (MatchSamples.scoring_down (Db.Throws "cache down"))
         Samples.charity false
         (MatchSamples.world [MatchSamples.northern; MatchSamples.harbour]
                             [MatchSamples.live_entry]))
  = Matching.Err "scoring service unavailable"%string.
Proof. split; vm_compute; reflexivity. Qed.

(** ** More on the match cache: round trips, expiry, invariants *)

Section CacheRoundTrip.

Import Matching MatchFacts CacheFacts.

Lemma same_entry_key (a b : Db.MatchCacheEntry) :
  same_entry a b = true <-> entry_key a = entry_key b.
Proof.
  unfold same_entry, entry_key. rewrite andb_true_iff, Z.eqb_eq, String.eqb_eq.
  split; [intros [-> ->]; reflexivity|intros H; injection H; auto].
Qed.

Lemma pair_key_dec (a b : Z * string) : {a = b} + {a <> b}.
Proof. decide equality; [apply string_dec|apply Z.eq_dec]. Qed.

Lemma upsert_entry_In (row : Db.MatchCacheEntry) (c : list Db.MatchCacheEntry)
    (e : Db.MatchCacheEntry) :
  In e (upsert_entry row c) -> e = row \/ In e c.
Proof.
  induction c as [|x c IH]; simpl.
  - intros [<-|[]]. now left.
  - destruct (same_entry x row); simpl; intros [<-|He]; auto.
    destruct (IH He); auto.
Qed.

Lemma upsert_entry_has_row (row : Db.MatchCacheEntry) (c : list Db.MatchCacheEntry) :
  In row (upsert_entry row c).
Proof.
  induction c as [|x c IH]; simpl; [now left|].
  destruct (same_entry x row); simpl; auto.
Qed.

Lemma upsert_entry_map_keys (row : Db.MatchCacheEntry) (c : list Db.MatchCacheEntry) :
  In (entry_key row) (map entry_key c) ->
  map entry_key (upsert_entry row c) = map entry_key c.
Proof.
  induction c as [|x c IH]; simpl; [intros []|].
  destruct (same_entry x row) eqn:Hs.
  - apply same_entry_key in Hs. simpl. now rewrite Hs.
  - intros [Hx|Hin]; simpl.
    + apply same_entry_key in Hx. congruence.
    + now rewrite IH.
Qed.

Lemma upsert_entry_map_keys_new (row : Db.MatchCacheEntry) (c : list Db.MatchCacheEntry) :
  ~ In (entry_key row) (map entry_key c) ->
  map entry_key (upsert_entry row c) = map entry_key c ++ [entry_key row].
Proof.
  induction c as [|x c IH]; simpl; [reflexivity|].
  intros Hnot. destruct (same_entry x row) eqn:Hs.
  - apply same_entry_key in Hs. exfalso. apply Hnot. now left.
  - simpl. rewrite IH; [reflexivity|]. intros H. apply Hnot. now right.
Qed.

Lemma upsert_entry_unique (row : Db.MatchCacheEntry) (c : list Db.MatchCacheEntry) :
  unique_keys c -> unique_keys (upsert_entry row c).
Proof.
  unfold unique_keys. intros Hu.
  destruct (in_dec pair_key_dec (entry_key row) (map entry_key c)) as [Hin|Hnot].
  - now rewrite upsert_entry_map_keys.
  - rewrite upsert_entry_map_keys_new by exact Hnot.
    apply NoDup_app; [exact Hu|repeat constructor; intros []|].
    intros k Hk [<-|[]]. contradiction.
Qed.

Lemma filter_unique (c : list Db.MatchCacheEntry) :
  unique_keys c -> forall e, unique_keys (filter e c).
Proof.
  unfold unique_keys. intros Hu f. induction c as [|x c IH]; simpl; [constructor|].
  inversion Hu as [|? ? Hx Hc]; subst.
  destruct (f x); simpl; [|auto]. constructor; [|auto].
  intros Hin. apply Hx. apply in_map_iff in Hin as (y & Ey & Hy).
  apply filter_In in Hy as [Hy _]. apply in_map_iff. eauto.
Qed.

(** In a cache with unique pairs, the live rows of a pair are the row
    itself when it is there and live. *)
Lemma cache_rows_of_member (st : Db.Store) (row : Db.MatchCacheEntry) (t : Z) :
  unique_keys (Db.match_cache st) -> In row (Db.match_cache st) ->
  cache_rows st (Db.charity_number row) (Db.cache_key row) t =
  if t <? Db.expires_at row then [row] else [].
Proof.
  unfold cache_rows, unique_keys. intros Hu Hin.
  induction (Db.match_cache st) as [|x c IH]; [contradiction|].
  inversion Hu as [|? ? Hx Hc]; subst. simpl.
  destruct Hin as [->|Hin].
  - rewrite Z.eqb_refl, String.eqb_refl. cbn [andb].
    assert (Hrest : filter (fun e => (Db.charity_number e =? Db.charity_number row)
                                     && String.eqb (Db.cache_key e) (Db.cache_key row)
                                     && (t <? Db.expires_at e)) c = []).
    { destruct (filter _ c) as [|y l] eqn:E; [reflexivity|exfalso].
      assert (Hy : In y (y :: l)) by now left. rewrite <- E in Hy.
      apply filter_In in Hy as [Hy Hk]. apply andb_prop in Hk as [Hk _].
      apply andb_prop in Hk as [Hcn Hck].
      apply Z.eqb_eq in Hcn. apply String.eqb_eq in Hck.
      apply Hx. apply in_map_iff. exists y. split; [|exact Hy].
      unfold entry_key. now rewrite Hcn, Hck. }
    rewrite Hrest. destruct (t <? Db.expires_at row); reflexivity.
  - assert (Hne : (Db.charity_number x =? Db.charity_number row)
                  && String.eqb (Db.cache_key x) (Db.cache_key row) = false).
    { apply not_true_is_false. intros H. apply andb_prop in H as [Hcn Hck].
      apply Z.eqb_eq in Hcn. apply String.eqb_eq in Hck.
      apply Hx. apply in_map_iff. exists row. split; [|exact Hin].
      unfold entry_key. now rewrite Hcn, Hck. }
    rewrite Hne. cbn [andb]. now apply IH.
Qed.

Lemma key_free_not_taken (p : CharityProfile) (key : string)
    (row : Db.MatchCacheEntry) (c : list Db.MatchCacheEntry) :
  Db.charity_number row = reg_charity_number p -> Db.cache_key row = key ->
  key_free p key c -> key_taken row c = false.
Proof.
  intros Hcn Hck Hfree. unfold key_taken. apply not_true_is_false. intros H.
  apply existsb_exists in H as (e & He & Hb). apply andb_prop in Hb as [Hk Hn].
  apply String.eqb_eq in Hk. apply negb_true_iff, Z.eqb_neq in Hn.
  apply Hn. rewrite Hcn. apply Hfree; [exact He|congruence].
Qed.

(** What a store that goes through leaves in the cache. *)
Lemma saveToCache_stores (env : Env) (p : CharityProfile) (key : string)
    (ms : list Db.FunderMatch) (w : World) :
  (forall m, last_sync_query env <> Db.Throws m) ->
  cache_write env = Db.Succeeds ->
  key_free p key (Db.match_cache (db w)) ->
  exists row,
    Db.charity_number row = reg_charity_number p /\ Db.cache_key row = key /\
    Db.matches row = ms /\ Db.created_at row = now env /\
    Db.expires_at row = plus_days env (now env) 7 /\
    Db.last_sync_at row = sync_stamp env (db w) /\
    saveToCache env p key ms w =
    (Ok tt, with_cache w (upsert_entry row (Db.match_cache (db w)))).
Proof.
  intros Hsync Hwrite Hfree. unfold saveToCache, try_catch, bind, sync_stamp.
  pose proof (select_cases (last_sync_query env)
                (fun st => last_completed (Db.sync_logs st)) w) as H.
  destruct (last_sync_query env) as [|m|m]; [| |now contradiction (Hsync m)];
    rewrite H; clear H; rewrite Hwrite; cbn [Db.data get_db].
  all: match goal with
       | |- context [key_taken ?r ?c] =>
           rewrite (key_free_not_taken p key r c eq_refl eq_refl Hfree);
           exists r
       end.
  all: repeat split.
Qed.

End CacheRoundTrip.

Section CacheRows.

Import Matching MatchFacts CacheFacts.

Lemma checkCache_member (env : Env) (w : World) (row : Db.MatchCacheEntry) :
  unique_keys (Db.match_cache (db w)) -> In row (Db.match_cache (db w)) ->
  cache_read env = Db.Succeeds ->
  fst (checkCache env (Db.charity_number row) (Db.cache_key row) w) =
  Ok (if now env <? Db.expires_at row
      then {| hit := true; matches := Some (Db.matches row);
              cacheKey := Some (Db.cache_key row);
              createdAt := Some (Db.created_at row) |}
      else miss (Db.cache_key row)).
Proof.
  intros Hu Hin Hread. rewrite checkCache_cases, Hread. cbn [fst].
  rewrite (cache_rows_of_member _ _ _ Hu Hin).
  destruct (now env <? Db.expires_at row); reflexivity.
Qed.

End CacheRows.

(** Before its expiry, the lookup of a stored pair is a hit that returns
    the stored matches. *)
Lemma stored_row_is_found (env env' : Matching.Env) (p : CharityProfile)
    (key : string) (ms : list Db.FunderMatch) (w : Matching.World) :
  (forall m, Matching.last_sync_query env <> Db.Throws m) ->
  Matching.cache_write env = Db.Succeeds ->
  CacheFacts.key_free p key (Db.match_cache (Matching.db w)) ->
  MatchFacts.unique_keys (Db.match_cache (Matching.db w)) ->
  Matching.cache_read env' = Db.Succeeds ->
  Matching.now env' < Matching.plus_days env (Matching.now env) 7 ->
  fst (Matching.checkCache env' (reg_charity_number p) key
         (snd (Matching.saveToCache env p key ms w)))
  = Matching.Ok {| Matching.hit := true; Matching.matches := Some ms;
                   Matching.cacheKey := Some key;
                   Matching.createdAt := Some (Matching.now env) |}.
Proof.
  intros Hsync Hwrite Hfree Hu Hread Hlive.
  destruct (saveToCache_stores env p key ms w Hsync Hwrite Hfree)
    as (row & Hcn & Hck & Hms & Hcr & Hex & _ & ->).
  cbn [snd]. rewrite <- Hcn, <- Hck.
  rewrite checkCache_member.
  - rewrite Hex. destruct (Z.ltb_spec (Matching.now env') (Matching.plus_days env (Matching.now env) 7));
      [|lia]. now rewrite Hms, Hcr.
  - apply upsert_entry_unique. exact Hu.
  - apply upsert_entry_has_row.
  - exact Hread.
Qed.

(** From its expiry on, the lookup of the pair is a miss. *)
Lemma stored_row_expires (env env' : Matching.Env) (p : CharityProfile)
    (key : string) (ms : list Db.FunderMatch) (w : Matching.World) :
  (forall m, Matching.last_sync_query env <> Db.Throws m) ->
  Matching.cache_write env = Db.Succeeds ->
  CacheFacts.key_free p key (Db.match_cache (Matching.db w)) ->
  MatchFacts.unique_keys (Db.match_cache (Matching.db w)) ->
  Matching.plus_days env (Matching.now env) 7 <= Matching.now env' ->
  fst (Matching.checkCache env' (reg_charity_number p) key
         (snd (Matching.saveToCache env p key ms w)))
  = Matching.Ok (Matching.miss key).
Proof.
  intros Hsync Hwrite Hfree Hu Hlate.
  destruct (saveToCache_stores env p key ms w Hsync Hwrite Hfree)
    as (row & Hcn & Hck & Hms & Hcr & Hex & _ & ->).
  cbn [snd]. rewrite <- Hcn, <- Hck.
  destruct (Matching.cache_read env') eqn:Hread.
  - rewrite checkCache_member; [|now apply upsert_entry_unique
                                 |apply upsert_entry_has_row|exact Hread].
    rewrite Hex.
    destruct (Z.ltb_spec (Matching.now env') (Matching.plus_days env (Matching.now env) 7));
      [lia|reflexivity].
  - rewrite checkCache_cases, Hread. reflexivity.
  - rewrite checkCache_cases, Hread. reflexivity.
Qed.

(** X1.  What [saveToCache] stored lives until its expiry, seven
    calendar days later: when the store goes through, a lookup of the
    same pair is a hit that returns the stored matches as long as the
    instant that [setDate(getDate() + 7)] gave has not come (and the read
    succeeds), and a miss from then on.  In elapsed time: if that
    instant is within [skew] of seven times 24 hours after the store
    (no skew without a change of the clock, an hour across a change to
    or from summer time), the lookup is a hit before seven days less
    the skew and a miss from seven days plus the skew on. *)
Theorem stored_matches_live_seven_days (env env' : Matching.Env) (p : CharityProfile)
    (key : string) (ms : list Db.FunderMatch) (w : Matching.World) :
  (forall m, Matching.last_sync_query env <> Db.Throws m) ->
  Matching.cache_write env = Db.Succeeds ->
  CacheFacts.key_free p key (Db.match_cache (Matching.db w)) ->
  MatchFacts.unique_keys (Db.match_cache (Matching.db w)) ->
  (Matching.cache_read env' = Db.Succeeds ->
   Matching.now env' < Matching.plus_days env (Matching.now env) 7 ->
   fst (Matching.checkCache env' (reg_charity_number p) key
          (snd (Matching.saveToCache env p key ms w)))
   = Matching.Ok {| Matching.hit := true; Matching.matches := Some ms;
                    Matching.cacheKey := Some key;
                    Matching.createdAt := Some (Matching.now env) |}) /\
  (Matching.plus_days env (Matching.now env) 7 <= Matching.now env' ->
   fst (Matching.checkCache env' (reg_charity_number p) key
          (snd (Matching.saveToCache env p key ms w)))
   = Matching.Ok (Matching.miss key)) /\
  (forall skew,
     Matching.now env + 7 * 86400000 - skew
       <= Matching.plus_days env (Matching.now env) 7
       <= Matching.now env + 7 * 86400000 + skew ->
     (Matching.cache_read env' = Db.Succeeds ->
      Matching.now env' < Matching.now env + 7 * 86400000 - skew ->
      fst (Matching.checkCache env' (reg_charity_number p) key
             (snd (Matching.saveToCache env p key ms w)))
      = Matching.Ok {| Matching.hit := true; Matching.matches := Some ms;
                       Matching.cacheKey := Some key;
                       Matching.createdAt := Some (Matching.now env) |}) /\
     (Matching.now env + 7 * 86400000 + skew <= Matching.now env' ->
      fst (Matching.checkCache env' (reg_charity_number p) key
             (snd (Matching.saveToCache env p key ms w)))
      = Matching.Ok (Matching.miss key))).
Proof.
  intros Hsync Hwrite Hfree Hu. split; [|split].
  - intros Hread Hlive. now apply stored_row_is_found.
  - intros Hlate. now apply stored_row_expires.
  - intros skew Hskew. split.
    + intros Hread Hlive. apply stored_row_is_found; try assumption. lia.
    + intros Hlate. apply stored_row_expires; try assumption. lia.
Qed.

Lemma stored_matches_live_sample :
  fst (Matching.checkCache (MatchSamples.summer_time 5000) 1234567 "k"
         (snd (Matching.saveToCache (MatchSamples.summer_time 5000) Samples.charity "k" []
                 (MatchSamples.world [] []))))
  = Matching.Ok {| Matching.hit := true; Matching.matches := Some [];
                   Matching.cacheKey := Some "k"%string;
                   Matching.createdAt := Some 5000 |}.
Proof.
  apply (stored_matches_live_seven_days (MatchSamples.summer_time 5000)
           (MatchSamples.summer_time 5000)
           Samples.charity "k" [] (MatchSamples.world [] [])).
  - discriminate.
  - reflexivity.
  - intros e [].
  - constructor.
  - reflexivity.
  - vm_compute. reflexivity.
Defined.

(** X2.  A hit is sound: the matches it returns are those of a row of
    the cache stored under exactly that charity number and key, and not
    yet expired. *)
Theorem cache_hit_is_a_live_row (env : Matching.Env) (charityNumber : Z)
    (key : string) (w : Matching.World) (c : Matching.CacheResult) :
  fst (Matching.checkCache env charityNumber key w) = Matching.Ok c ->
  Matching.hit c = true ->
  exists row,
    In row (Db.match_cache (Matching.db w)) /\
    Db.charity_number row = charityNumber /\ Db.cache_key row = key /\
    Matching.now env < Db.expires_at row /\
    Matching.matches c = Some (Db.matches row).
Proof.
  rewrite checkCache_cases. cbn [fst]. intros Hc Hhit.
  destruct (Matching.cache_read env);
    [|injection Hc as <-; discriminate..].
  destruct (Matching.single _) as [row|] eqn:Hrow; [|injection Hc as <-; discriminate].
  injection Hc as <-. apply single_In in Hrow.
  apply filter_In in Hrow as [Hin Hk].
  apply andb_prop in Hk as [Hk Hlive]. apply andb_prop in Hk as [Hcn Hck].
  exists row. repeat split; auto.
  - now apply Z.eqb_eq.
  - now apply String.eqb_eq.
  - now apply Z.ltb_lt.
Qed.

Lemma cache_hit_is_a_live_row_sample :
  exists row,
    In row [MatchSamples.entry (Some 100)] /\
    Db.charity_number row = 1234567 /\
    Db.cache_key row = "600a013ddc04b054628f885be3b6aab8"%string /\
    5000 < Db.expires_at row /\
    Some (@nil Db.FunderMatch) = Some (Db.matches row).
Proof.
  apply (cache_hit_is_a_live_row (MatchSamples.healthy []) 1234567
           "600a013ddc04b054628f885be3b6aab8"
           (MatchSamples.world [] [MatchSamples.entry (Some 100)])
           {| Matching.hit := true; Matching.matches := Some [];
              Matching.cacheKey := Some "600a013ddc04b054628f885be3b6aab8"%string;
              Matching.createdAt := Some 150 |}); reflexivity.
Defined.

Section MatchingFrame.

Import Matching MatchFacts CacheFacts.

Lemma upsert_entry_keeps (row e : Db.MatchCacheEntry) (c : list Db.MatchCacheEntry) :
  In e c -> entry_key e <> entry_key row -> In e (upsert_entry row c).
Proof.
  induction c as [|x c IH]; simpl; [intros []|].
  intros [->|Hin] Hne.
  - destruct (same_entry e row) eqn:Hs; [|now left].
    apply same_entry_key in Hs. contradiction.
  - destruct (same_entry x row); simpl; auto.
Qed.

(** What a call leaves in the store: nothing new, or the one row of the
    list it returns, upserted under the pair of the charity and the key
    of the funder list. *)
Lemma matchFunders_world (env : Env) (p : CharityProfile) (force : bool) (w : World) :
  db (snd (matchFunders env p force w)) = db w \/
  exists row ms,
    fst (matchFunders env p force w) = Ok ms /\ Db.matches row = ms /\
    Db.charity_number row = reg_charity_number p /\
    Db.cache_key row =
      CacheKey.generateCacheKey p (map Db.org_id (select_funders (db w))) /\
    db (snd (matchFunders env p force w)) =
      Db.set_match_cache (db w) (upsert_entry row (Db.match_cache (db w))).
Proof.
  rewrite matchFunders_cases.
  destruct (funders_query env); try (left; reflexivity).
  destruct (select_funders (db w)) as [|f fs]; [left; reflexivity|].
  cbv zeta.
  match goal with
  | |- context [if force then None else ?x] => destruct (if force then None else x)
  end; [left; reflexivity|].
  destruct (mapM (fetch_sample env) (f :: fs) w) as [[fwg|m] w1]; [|left; reflexivity].
  destruct (claude env _); [left; reflexivity|].
  destruct (first_text _); [|left; reflexivity].
  destruct (parseMatchingResponse env _ fwg) as [ms|m]; [|left; reflexivity].
  match goal with |- context [saveToCache env p ?k ?l ?w1] =>
    destruct (saveToCache_cases env p k l w1)
      as (w2 & E & _ & [Hdb|(row & Hms & Hcn & Hck & _ & _ & Hdb)]) end;
    rewrite E; cbn [fst snd]; rewrite Hdb; cbn [db]; [left; reflexivity|].
  right. exists row. eexists. repeat split; eauto.
Qed.

Lemma mapM_fetch_sample_grants (env : Env) (funders : list Db.Organisation)
    (w w2 : World) :
  Db.grants (db w) = Db.grants (db w2) ->
  fst (mapM (fetch_sample env) funders w) = fst (mapM (fetch_sample env) funders w2).
Proof.
  intros Hg. induction funders as [|f rest IH]; [reflexivity|].
  simpl. unfold bind. rewrite !fetch_sample_cases.
  unfold select_grants. rewrite Hg.
  destruct (grants_query env (Db.org_id f)); [| |reflexivity].
  - destruct (mapM_fetch_sample env rest w) as [(m & E)|(fwg & E & _)];
      destruct (mapM_fetch_sample env rest w2) as [(m2 & E2)|(fwg2 & E2 & _)];
      rewrite E, E2 in *; unfold ret; cbn [fst] in *; congruence.
  - destruct (mapM_fetch_sample env rest w) as [(m & E)|(fwg & E & _)];
      destruct (mapM_fetch_sample env rest w2) as [(m2 & E2)|(fwg2 & E2 & _)];
      rewrite E, E2 in *; unfold ret; cbn [fst] in *; congruence.
Qed.

End MatchingFrame.

(** X3.  The unique pair [(charity_number, cache_key)] is an invariant of
    the cache: a store, an invalidation and a whole call of
    [matchFunders] keep it. *)
Theorem cache_pairs_stay_unique (env : Matching.Env) (w : Matching.World) :
  MatchFacts.unique_keys (Db.match_cache (Matching.db w)) ->
  (forall p key ms,
     MatchFacts.unique_keys
       (Db.match_cache (Matching.db (snd (Matching.saveToCache env p key ms w))))) /\
  (forall syncDate,
     MatchFacts.unique_keys
       (Db.match_cache
          (Matching.db (snd (Matching.invalidateCacheBeforeSync env syncDate w))))) /\
  (forall p force,
     MatchFacts.unique_keys
       (Db.match_cache (Matching.db (snd (Matching.matchFunders env p force w))))).
Proof.
  intros Hu. split; [|split].
  - intros p key ms.
    destruct (saveToCache_cases env p key ms w)
      as (w' & -> & _ & [Hdb|(row & _ & _ & _ & _ & _ & Hdb)]);
      cbn [snd]; rewrite Hdb; [exact Hu|].
    now apply upsert_entry_unique.
  - intros syncDate. rewrite invalidate_cases.
    destruct (Matching.cache_delete env); cbn [snd Matching.db]; try exact Hu.
    now apply filter_unique.
  - intros p force.
    destruct (matchFunders_world env p force w) as [->|(row & ms & _ & _ & _ & _ & ->)];
      [exact Hu|now apply upsert_entry_unique].
Qed.

Lemma cache_pairs_stay_unique_sample :
  MatchFacts.unique_keys
    (Db.match_cache
       (Matching.db (snd (Matching.saveToCache (MatchSamples.healthy []) Samples.charity
                            "600a013ddc04b054628f885be3b6aab8" []
                            (MatchSamples.world [] [MatchSamples.entry (Some 100)]))))).
Proof.
  apply (cache_pairs_stay_unique (MatchSamples.healthy [])
           (MatchSamples.world [] [MatchSamples.entry (Some 100)])).
  repeat constructor. intros [].
Defined.

(** X4.  [matchFunders] writes nothing but its own cache row: the tables
    of organisations, grants and synchronisation logs are as before, the
    cache rows of other pairs are still there, and a call that fails
    leaves the whole store as it was. *)
Theorem matchFunders_touches_its_row_only (env : Matching.Env) (p : CharityProfile)
    (force : bool) (w : Matching.World) :
  Db.organisations (Matching.db (snd (Matching.matchFunders env p force w)))
  = Db.organisations (Matching.db w) /\
  Db.grants (Matching.db (snd (Matching.matchFunders env p force w)))
  = Db.grants (Matching.db w) /\
  Db.sync_logs (Matching.db (snd (Matching.matchFunders env p force w)))
  = Db.sync_logs (Matching.db w) /\
  (forall e,
     In e (Db.match_cache (Matching.db w)) ->
     MatchFacts.entry_key e <>
       (reg_charity_number p,
        CacheKey.generateCacheKey p
          (map Db.org_id (Matching.select_funders (Matching.db w)))) ->
     In e (Db.match_cache (Matching.db (snd (Matching.matchFunders env p force w))))) /\
  (forall m, fst (Matching.matchFunders env p force w) = Matching.Err m ->
             Matching.db (snd (Matching.matchFunders env p force w)) = Matching.db w).
Proof.
  destruct (matchFunders_world env p force w)
    as [->|(row & ms & Hok & _ & Hcn & Hck & ->)].
  - repeat split; auto.
  - cbn [Db.organisations Db.grants Db.sync_logs Db.match_cache Db.set_match_cache].
    repeat split.
    + intros e Hin Hne. apply upsert_entry_keeps; [exact Hin|].
      unfold MatchFacts.entry_key in *. now rewrite Hcn, Hck.
    + intros m Herr. rewrite Hok in Herr. discriminate.
Qed.

(** X5.  A forced refresh does not read the cache: what it returns is the
    same whatever the cache holds. *)
Theorem forced_refresh_ignores_the_cache (env : Matching.Env) (p : CharityProfile)
    (w : Matching.World) (c : list Db.MatchCacheEntry) :
  fst (Matching.matchFunders env p true (CacheFacts.with_cache w c))
  = fst (Matching.matchFunders env p true w).
Proof.
  rewrite !matchFunders_cases.
  destruct (Matching.funders_query env); try reflexivity.
  change (Matching.select_funders (Matching.db (CacheFacts.with_cache w c)))
    with (Matching.select_funders (Matching.db w)).
  destruct (Matching.select_funders (Matching.db w)) as [|f fs]; [reflexivity|].
  cbv zeta.
  pose proof (mapM_fetch_sample_grants env (f :: fs) (CacheFacts.with_cache w c) w eq_refl)
    as Hsame.
  destruct (Matching.mapM _ (f :: fs) (CacheFacts.with_cache w c)) as [r1 w1].
  destruct (Matching.mapM _ (f :: fs) w) as [r2 w2].
  cbn [fst] in Hsame. subst r2.
  destruct r1 as [fwg|m]; [|reflexivity].
  destruct (Matching.claude env _); [reflexivity|].
  destruct (Matching.first_text _); [|reflexivity].
  destruct (Matching.parseMatchingResponse env _ fwg); reflexivity.
Qed.

(** X6.  Read-through after write-through: when a call has computed and
    stored a list, the next call for the same charity, made with the
    cache readable before the expiry of the entry (the instant that
    [setDate(getDate() + 7)] made of the instant of the store, seven
    calendar days later), returns that list from the cache: it builds no
    prompt, calls no scoring service and writes nothing. *)
Theorem second_call_is_served_from_the_cache (env env2 : Matching.Env)
    (p : CharityProfile) (force : bool) (w w1 : Matching.World)
    (ms : list Db.FunderMatch) :
  Matching.matchFunders env p force w = (Matching.Ok ms, w1) ->
  Matching.trace w1 <> Matching.trace w ->
  (forall m, Matching.last_sync_query env <> Db.Throws m) ->
  Matching.cache_write env = Db.Succeeds ->
  MatchFacts.unique_keys (Db.match_cache (Matching.db w)) ->
  CacheFacts.key_free p
    (CacheKey.generateCacheKey p (map Db.org_id (Matching.select_funders (Matching.db w))))
    (Db.match_cache (Matching.db w)) ->
  Matching.funders_query env2 = Db.Succeeds ->
  Matching.cache_read env2 = Db.Succeeds ->
  Matching.now env2 < Matching.plus_days env (Matching.now env) 7 ->
  Matching.matchFunders env2 p false w1 = (Matching.Ok ms, w1).
Proof.
  intros Hrun Htrace Hsync Hwrite Hu Hfree Hq2 Hread2 Hlive.
  rewrite matchFunders_cases in Hrun.
  destruct (Matching.funders_query env); try discriminate.
  destruct (Matching.select_funders (Matching.db w)) as [|f fs] eqn:Hsel; [discriminate|].
  cbv zeta in Hrun.
  match type of Hrun with
  | context [if force then None else ?x] => destruct (if force then None else x)
  end; [injection Hrun as _ <-; now contradiction Htrace|].
  destruct (mapM_fetch_sample env (f :: fs) w) as [(m & E)|(fwg & E & _)];
    rewrite E in Hrun; [discriminate|].
  destruct (Matching.claude env _); [discriminate|].
  destruct (Matching.first_text _); [|discriminate].
  destruct (Matching.parseMatchingResponse env _ fwg) as [parsed|]; [|discriminate].
  remember (JS.slice0 20 (JS.sort Matching.by_score_desc parsed)) as sorted.
  match type of Hrun with context [Matching.saveToCache env p ?k ?l ?w0] =>
    destruct (saveToCache_stores env p k l w0 Hsync Hwrite Hfree)
      as (row & Hcn & Hck & Hms & _ & Hex & _ & Hsave) end.
  rewrite Hsave in Hrun. cbn [snd] in Hrun. injection Hrun as Hms' <-.
  rewrite matchFunders_cases, Hq2.
  change (Matching.select_funders (Matching.db (CacheFacts.with_cache _ _)))
    with (Matching.select_funders (Matching.db w)).
  rewrite Hsel. cbv zeta.
  rewrite <- Hcn, <- Hck.
  rewrite checkCache_member.
  - rewrite Hex.
    destruct (Z.ltb_spec (Matching.now env2) (Matching.plus_days env (Matching.now env) 7)); [|lia].
    cbn [Matching.hit Matching.matches]. now rewrite Hms, Hms'.
  - now apply upsert_entry_unique.
  - apply upsert_entry_has_row.
  - exact Hread2.
Qed.

Lemma second_call_sample :
  Matching.matchFunders
    (MatchSamples.healthy [MatchSamples.item "GB-CHC-1001" 70;
                           MatchSamples.item "GB-CHC-2002" 85])
    Samples.charity false
    (snd (Matching.matchFunders
            (MatchSamples.healthy [MatchSamples.item "GB-CHC-1001" 70;
                                   MatchSamples.item "GB-CHC-2002" 85])
            Samples.charity false
            (MatchSamples.world [MatchSamples.northern; MatchSamples.harbour] [])))
  = Matching.matchFunders
      (MatchSamples.healthy [MatchSamples.item "GB-CHC-1001" 70;
                             MatchSamples.item "GB-CHC-2002" 85])
      Samples.charity false
      (MatchSamples.world [MatchSamples.northern; MatchSamples.harbour] []).
Proof.
  destruct (Matching.matchFunders
              (MatchSamples.healthy [MatchSamples.item "GB-CHC-1001" 70;
                                     MatchSamples.item "GB-CHC-2002" 85])
              Samples.charity false
              (MatchSamples.world [MatchSamples.northern; MatchSamples.harbour] []))
    as [[ms|m] w1] eqn:Hrun.
  - cbn [snd].
    apply (second_call_is_served_from_the_cache _ _ _ _ _ _ _ Hrun).
    + vm_compute in Hrun. injection Hrun as _ <-. discriminate.
    + discriminate.
    + reflexivity.
    + constructor.
    + intros e [].
    + reflexivity.
    + reflexivity.
    + simpl. lia.
  - vm_compute in Hrun. discriminate.
Defined.

Section CacheComposition.

Import Matching MatchFacts CacheFacts.

Lemma cache_rows_of_stale (c : list Db.MatchCacheEntry) (e : Db.MatchCacheEntry)
    (st : Db.Store) (d t : Z) :
  unique_keys c -> In e c -> stale d e = true ->
  cache_rows (Db.set_match_cache st (filter (fun x => negb (stale d x)) c))
    (Db.charity_number e) (Db.cache_key e) t = [].
Proof.
  intros Hu Hin Hs. unfold cache_rows. cbn [Db.match_cache Db.set_match_cache].
  destruct (filter _ (filter _ c)) as [|x l] eqn:E; [reflexivity|exfalso].
  assert (Hx : In x (x :: l)) by now left. rewrite <- E in Hx.
  apply filter_In in Hx as [Hx Hk]. apply filter_In in Hx as [Hx Hfresh].
  apply andb_prop in Hk as [Hk _]. apply andb_prop in Hk as [Hcn Hck].
  apply Z.eqb_eq in Hcn. apply String.eqb_eq in Hck.
  assert (x = e) as ->.
  { apply (unique_keys_inj _ _ _ Hu Hx Hin). unfold entry_key. now rewrite Hcn, Hck. }
  rewrite Hs in Hfresh. discriminate.
Qed.



End CacheComposition.

(** An entry stored before any synchronisation completed outlives every
    invalidation. *)
Lemma unsynced_entry_survives (env env2 env' : Matching.Env)
    (p : CharityProfile) (key : string) (ms : list Db.FunderMatch)
    (w : Matching.World) (syncDate : Z) :
  (forall m, Matching.last_sync_query env <> Db.Throws m) ->
  Matching.cache_write env = Db.Succeeds ->
  CacheFacts.key_free p key (Db.match_cache (Matching.db w)) ->
  MatchFacts.unique_keys (Db.match_cache (Matching.db w)) ->
  CacheFacts.sync_stamp env (Matching.db w) = None ->
  Matching.cache_read env' = Db.Succeeds ->
  Matching.now env' < Matching.plus_days env (Matching.now env) 7 ->
  fst (Matching.checkCache env' (reg_charity_number p) key
         (snd (Matching.invalidateCacheBeforeSync env2 syncDate
                 (snd (Matching.saveToCache env p key ms w)))))
  = Matching.Ok {| Matching.hit := true; Matching.matches := Some ms;
                   Matching.cacheKey := Some key;
                   Matching.createdAt := Some (Matching.now env) |}.
Proof.
  intros Hsync Hwrite Hfree Hu Hstamp Hread Hlive.
  destruct (saveToCache_stores env p key ms w Hsync Hwrite Hfree)
    as (row & Hcn & Hck & Hms & Hcr & Hex & Hls & ->).
  cbn [snd]. rewrite <- Hcn, <- Hck.
  assert (Hu1 : MatchFacts.unique_keys
                  (Matching.upsert_entry row (Db.match_cache (Matching.db w))))
    by now apply upsert_entry_unique.
  pose proof (upsert_entry_has_row row (Db.match_cache (Matching.db w))) as Hin.
  rewrite invalidate_cases.
  assert (Hhit : forall w2,
            MatchFacts.unique_keys (Db.match_cache (Matching.db w2)) ->
            In row (Db.match_cache (Matching.db w2)) ->
            fst (Matching.checkCache env' (Db.charity_number row) (Db.cache_key row) w2)
            = Matching.Ok {| Matching.hit := true; Matching.matches := Some ms;
                             Matching.cacheKey := Some (Db.cache_key row);
                             Matching.createdAt := Some (Matching.now env) |}).
  { intros w2 Hu2 Hin2. rewrite checkCache_member by assumption. rewrite Hex.
    destruct (Z.ltb_spec (Matching.now env') (Matching.plus_days env (Matching.now env) 7)); [|lia].
    now rewrite Hms, Hcr. }
  destruct (Matching.cache_delete env2); cbn [snd]; apply Hhit;
    cbn [Matching.db CacheFacts.with_cache Db.match_cache Db.set_match_cache];
    try assumption.
  - now apply filter_unique.
  - apply filter_In. split; [exact Hin|].
    unfold Matching.stale. rewrite Hls, Hstamp. reflexivity.
Qed.

(** An entry computed against a superseded synchronisation is dropped. *)
Lemma superseded_entry_is_dropped (env env2 env' : Matching.Env)
    (p : CharityProfile) (key : string) (ms : list Db.FunderMatch)
    (w : Matching.World) (T T2 : Z) :
  (forall m, Matching.last_sync_query env <> Db.Throws m) ->
  Matching.cache_write env = Db.Succeeds ->
  CacheFacts.key_free p key (Db.match_cache (Matching.db w)) ->
  MatchFacts.unique_keys (Db.match_cache (Matching.db w)) ->
  CacheFacts.sync_stamp env (Matching.db w) = Some T ->
  T < T2 ->
  Matching.cache_delete env2 = Db.Succeeds ->
  fst (Matching.checkCache env' (reg_charity_number p) key
         (snd (Matching.invalidateCacheBeforeSync env2 T2
                 (snd (Matching.saveToCache env p key ms w)))))
  = Matching.Ok (Matching.miss key).
Proof.
  intros Hsync Hwrite Hfree Hu Hstamp Hlt Hdel.
  destruct (saveToCache_stores env p key ms w Hsync Hwrite Hfree)
    as (row & Hcn & Hck & Hms & Hcr & Hex & Hls & ->).
  cbn [snd]. rewrite invalidate_cases, Hdel. cbn [snd].
  rewrite <- Hcn, <- Hck.
  rewrite checkCache_cases. cbn [fst Matching.db CacheFacts.with_cache Db.match_cache
                                  Db.set_match_cache].
  change (Db.set_match_cache
            (Db.set_match_cache (Matching.db w)
               (Matching.upsert_entry row (Db.match_cache (Matching.db w))))
            (filter (fun e => negb (Matching.stale T2 e))
               (Matching.upsert_entry row (Db.match_cache (Matching.db w)))))
    with (Db.set_match_cache (Matching.db w)
            (filter (fun e => negb (Matching.stale T2 e))
               (Matching.upsert_entry row (Db.match_cache (Matching.db w))))).
  rewrite cache_rows_of_stale.
  - destruct (Matching.cache_read env'); reflexivity.
  - now apply upsert_entry_unique.
  - apply upsert_entry_has_row.
  - unfold Matching.stale. rewrite Hls, Hstamp. now apply Z.ltb_lt.
Qed.

(** X7.  A stored entry across an invalidation.  Stored before any
    synchronisation completed, it outlives every invalidation: whatever
    the date and the faults, the lookup is still a hit with the stored
    matches.  Stored while the latest completed synchronisation is [T],
    it is dropped by an invalidation for a later date whose delete
    succeeds: the lookup is a miss whether its expiry has come or not.
    The expiry is the instant that [setDate(getDate() + 7)] made of the
    instant of the store, seven calendar days later. *)
Theorem stored_entry_across_an_invalidation (env env' : Matching.Env)
    (p : CharityProfile) (key : string) (ms : list Db.FunderMatch)
    (w : Matching.World) :
  (forall m, Matching.last_sync_query env <> Db.Throws m) ->
  Matching.cache_write env = Db.Succeeds ->
  CacheFacts.key_free p key (Db.match_cache (Matching.db w)) ->
  MatchFacts.unique_keys (Db.match_cache (Matching.db w)) ->
  (CacheFacts.sync_stamp env (Matching.db w) = None ->
   Matching.cache_read env' = Db.Succeeds ->
   Matching.now env' < Matching.plus_days env (Matching.now env) 7 ->
   forall env2 syncDate,
     fst (Matching.checkCache env' (reg_charity_number p) key
            (snd (Matching.invalidateCacheBeforeSync env2 syncDate
                    (snd (Matching.saveToCache env p key ms w)))))
     = Matching.Ok {| Matching.hit := true; Matching.matches := Some ms;
                      Matching.cacheKey := Some key;
                      Matching.createdAt := Some (Matching.now env) |}) /\
  (forall env2 T T2,
     CacheFacts.sync_stamp env (Matching.db w) = Some T ->
     T < T2 ->
     Matching.cache_delete env2 = Db.Succeeds ->
     fst (Matching.checkCache env' (reg_charity_number p) key
            (snd (Matching.invalidateCacheBeforeSync env2 T2
                    (snd (Matching.saveToCache env p key ms w)))))
     = Matching.Ok (Matching.miss key)).
Proof.
  intros Hsync Hwrite Hfree Hu. split.
  - intros Hstamp Hread Hlive env2 syncDate. now apply unsynced_entry_survives.
  - intros env2 T T2 Hstamp Hlt Hdel. now apply superseded_entry_is_dropped with (T := T).
Qed.

Lemma stored_entry_across_an_invalidation_sample :
  fst (Matching.checkCache (MatchSamples.healthy []) 1234567 "k"
         (snd (Matching.invalidateCacheBeforeSync (MatchSamples.healthy []) 200
                 (snd (Matching.saveToCache (MatchSamples.healthy []) Samples.charity "k" []
                         (MatchSamples.world [] []))))))
  = Matching.Ok (Matching.miss "k").
Proof.
  refine (proj2 (stored_entry_across_an_invalidation (MatchSamples.healthy [])
                   (MatchSamples.healthy []) Samples.charity "k" []
                   (MatchSamples.world [] []) _ _ _ _)
            (MatchSamples.healthy []) 100 200 _ _ _).
  - discriminate.
  - reflexivity.
  - intros e [].
  - constructor.
  - reflexivity.
  - lia.
  - reflexivity.
Defined.



(** ** More on the cache key: its shape and what it depends on *)

Section KeyShapeProofs.

Lemma round_length (s : list Z) (kw : Z * Z) :
  List.length (SHA256.round s kw) = List.length s.
Proof.
  unfold SHA256.round.
  destruct s as [|a [|b [|c [|d [|e [|f [|g [|h [|i s]]]]]]]]]; reflexivity.
Qed.

Lemma rounds_length (l : list (Z * Z)) (s : list Z) :
  List.length (fold_left SHA256.round l s) = List.length s.
Proof.
  revert s. induction l as [|kw l IH]; intros s; simpl; [reflexivity|].
  now rewrite IH, round_length.
Qed.

Lemma compress_length (h block : list Z) :
  List.length (SHA256.compress h block) = List.length h.
Proof.
  unfold SHA256.compress. rewrite length_map, length_combine, rounds_length. lia.
Qed.

Lemma digest_length (msg : list Z) : List.length (SHA256.digest msg) = 8%nat.
Proof.
  unfold SHA256.digest. cbv zeta.
  generalize (SHA256.blocks (List.length (SHA256.words (SHA256.pad msg)))
                (SHA256.words (SHA256.pad msg))).
  assert (H : List.length SHA256.H0 = 8%nat) by (vm_compute; reflexivity).
  revert H. generalize SHA256.H0.
  intros h Hh l. revert h Hh. induction l as [|b l IH]; intros h Hh; simpl; [exact Hh|].
  apply IH. now rewrite compress_length.
Qed.

Lemma hex_words_length (ws : list Z) :
  List.length (flat_map SHA256.hex_word ws) = (8 * List.length ws)%nat.
Proof.
  induction ws as [|w ws IH]; [reflexivity|].
  cbn [flat_map]. rewrite length_app, IH.
  unfold SHA256.hex_word. rewrite length_map, length_rev, length_seq.
  cbn [List.length]. lia.
Qed.

Lemma string_of_list_length (l : list ascii) :
  String.length (string_of_list_ascii l) = List.length l.
Proof. induction l as [|c l IH]; simpl; [reflexivity|now rewrite IH]. Qed.

Lemma hex_length (s : string) : String.length (SHA256.hex s) = 64%nat.
Proof.
  unfold SHA256.hex. now rewrite string_of_list_length, hex_words_length, digest_length.
Qed.

Lemma substring0_length (n : nat) (s : string) :
  (n <= String.length s)%nat -> String.length (JS.substring0 n s) = n.
Proof.
  unfold JS.substring0. revert s. induction n as [|n IH]; intros s Hn.
  - destruct s; reflexivity.
  - destruct s as [|c s]; simpl in *; [lia|]. rewrite IH; [reflexivity|lia].
Qed.

Lemma substring0_chars (n : nat) (s : string) (c : ascii) :
  In c (list_ascii_of_string (JS.substring0 n s)) -> In c (list_ascii_of_string s).
Proof.
  unfold JS.substring0. revert s. induction n as [|n IH]; intros s.
  - destruct s; simpl; intros [].
  - destruct s as [|d s]; simpl; [intros []|].
    intros [->|H]; [now left|right; now apply IH].
Qed.

Lemma hex_digit_is_hex (d : Z) : KeyShape.is_hex (SHA256.hex_digit d) = true.
Proof.
  unfold SHA256.hex_digit.
  assert (Hall : forallb KeyShape.is_hex (list_ascii_of_string "0123456789abcdef") = true)
    by reflexivity.
  rewrite forallb_forall in Hall.
  destruct (nth_in_or_default (Z.to_nat d) (list_ascii_of_string "0123456789abcdef")
              "0"%char) as [Hin| ->]; [now apply Hall|reflexivity].
Qed.

Lemma hex_chars (s : string) (c : ascii) :
  In c (list_ascii_of_string (SHA256.hex s)) -> KeyShape.is_hex c = true.
Proof.
  unfold SHA256.hex. rewrite list_ascii_of_string_of_list_ascii.
  intros H. apply in_flat_map in H as (w & _ & H).
  unfold SHA256.hex_word in H. apply in_map_iff in H as (i & <- & _).
  apply hex_digit_is_hex.
Qed.

End KeyShapeProofs.

(** X9.  A cache key is always 32 lowercase hexadecimal digits. *)
Theorem generateCacheKey_is_32_hex_digits (p : CharityProfile) (ids : list string) :
  String.length (CacheKey.generateCacheKey p ids) = 32%nat /\
  forall c, In c (list_ascii_of_string (CacheKey.generateCacheKey p ids)) ->
            KeyShape.is_hex c = true.
Proof.
  unfold CacheKey.generateCacheKey. split.
  - apply substring0_length. rewrite hex_length. lia.
  - intros c H. apply substring0_chars in H. now apply hex_chars in H.
Qed.

Section KeyDependence.

Lemma joined_codes_codes (ty : string) (p : CharityProfile) :
  CacheKey.joined_codes ty (who_what_where p) =
  JS.join "," (JS.sort_strings (KeyShape.codes ty p)).
Proof.
  unfold CacheKey.joined_codes, KeyShape.codes.
  destruct (who_what_where p); [apply str_or_empty|reflexivity].
Qed.

Lemma joined_regions_regions (p : CharityProfile) :
  CacheKey.joined_regions (CharityAoORegion p) =
  JS.join "," (JS.sort_strings (KeyShape.regions p)).
Proof.
  unfold CacheKey.joined_regions, KeyShape.regions.
  destruct (CharityAoORegion p); [apply str_or_empty|reflexivity].
Qed.

End KeyDependence.

(** X10.  The key depends on the registration number, the income bucket,
    the What codes, the Who codes, the regions and the funder ids, each
    list up to the order of its elements, and on nothing else: neither on
    the order of the classifications and regions, nor on the name of the
    charity or the descriptions, nor on whether an income is absent or
    zero. *)
Theorem generateCacheKey_depends_on_normalised_fields (p p' : CharityProfile)
    (ids ids' : list string) :
  reg_charity_number p = reg_charity_number p' ->
  CacheKey.getIncomeBucket (CacheKey.income_or_0 (latest_income p)) =
  CacheKey.getIncomeBucket (CacheKey.income_or_0 (latest_income p')) ->
  Permutation (KeyShape.codes "What" p) (KeyShape.codes "What" p') ->
  Permutation (KeyShape.codes "Who" p) (KeyShape.codes "Who" p') ->
  Permutation (KeyShape.regions p) (KeyShape.regions p') ->
  Permutation ids ids' ->
  CacheKey.generateCacheKey p ids = CacheKey.generateCacheKey p' ids'.
Proof.
  intros Hreg Hbucket Hwhat Hwho Hregions Hids.
  unfold CacheKey.generateCacheKey, CacheKey.dataToHash, CacheKey.charityDetails,
    CacheKey.sortedFunderIds.
  rewrite !joined_codes_codes, !joined_regions_regions, Hreg, Hbucket.
  rewrite (sort_strings_permutation _ _ Hwhat), (sort_strings_permutation _ _ Hwho),
    (sort_strings_permutation _ _ Hregions), (sort_strings_permutation _ _ Hids).
  reflexivity.
Qed.

Lemma generateCacheKey_depends_sample :
  CacheKey.generateCacheKey Samples.charity Samples.funder_ids =
  CacheKey.generateCacheKey
    {| reg_charity_number := 1234567;
       charity_name := "RIVERSIDE YOUTH TRUST LTD";
       latest_income := Some 99999;
       who_what_where := Some [Samples.who "201"; Samples.what "101"; Samples.what "102"];
       CharityAoORegion := Some [ {| region := "London" |} ] |}
    (rev Samples.funder_ids).
Proof.
  apply generateCacheKey_depends_on_normalised_fields; try reflexivity.
  - apply perm_swap.
  - apply Permutation_rev.
Defined.

(** ** More on the grant phase: the cap, the modes, the tables *)

Section SyncInvariants.

Import Sync SyncFacts SyncShape.

Variable env : Env.
Variable options : SyncOptions.

(** Induction over a run: a property of the state that every branch of
    the inner loop and the update of the funder keep holds at the end. *)
Section RunInduction.

Variable P : Progress -> Prop.

Hypothesis skip_older :
  forall st g, P st -> JS.geq (synced st) (maxGrants options) = false ->
    older_than_last_sync env options (Api.awardDate (Api.data g)) = true ->
    P (record st g SkippedOlder (synced st) (skipped st + 1) (store st)).

Hypothesis skip_existing :
  forall st g, P st -> JS.geq (synced st) (maxGrants options) = false ->
    incremental options = true ->
    existing env (store st) (Api.grant_id g) = true ->
    P (record st g SkippedExisting (synced st) (skipped st + 1) (store st)).

Hypothesis upsert_failed :
  forall st g, P st -> JS.geq (synced st) (maxGrants options) = false ->
    P (record st g UpsertFailed (synced st) (skipped st) (store st)).

Hypothesis threw :
  forall st g, P st -> JS.geq (synced st) (maxGrants options) = false ->
    P (record st g Threw (synced st) (skipped st) (store st)).

Hypothesis upserted :
  forall st g funder, P st -> JS.geq (synced st) (maxGrants options) = false ->
    older_than_last_sync env options (Api.awardDate (Api.data g)) = false ->
    incremental options && existing env (store st) (Api.grant_id g) = false ->
    P (record st g (Upserted (grant_row funder g)) (synced st + 1) (skipped st)
         (Db.set_grants (store st)
            (Db.upsert_grant (grant_row funder g) (Db.grants (store st))))).

Hypothesis touch : forall st id d, P st -> P (touched st id d).

Lemma sync_page_keeps (funder : Db.Organisation) (results : list Api.GrantData)
    (st : Progress) :
  P st -> P (snd (sync_page env options funder results st)).
Proof.
  revert st. induction results as [|g rest IH]; intros st HP; [exact HP|].
  cbn [sync_page].
  destruct (JS.geq (synced st) (maxGrants options)) eqn:Hcap; [exact HP|].
  destruct (older_than_last_sync env options (Api.awardDate (Api.data g))) eqn:Hold.
  { apply IH. now apply skip_older. }
  destruct (incremental options && rejects (probe env (Api.grant_id g))).
  { cbn [snd]. now apply threw. }
  destruct (incremental options && existing env (store st) (Api.grant_id g)) eqn:Hex.
  { apply IH. apply andb_prop in Hex as [Hi He]. now apply skip_existing. }
  cbv zeta. destruct (upsert env (grant_row funder g)).
  - apply IH. now apply upserted.
  - apply IH. now apply upsert_failed.
  - cbn [snd]. now apply threw.
Qed.

Lemma sync_funder_keeps (funder : Db.Organisation) (st : Progress) :
  P st -> P (sync_funder env options funder st).
Proof.
  intros HP. unfold sync_funder.
  destruct (getGrantsMade env (Db.org_id funder)) as [resp|]; [|exact HP].
  pose proof (sync_page_keeps funder (Api.results resp) st HP) as HP'.
  destruct (sync_page env options funder (Api.results resp) st) as [[|] st'];
    cbn [snd] in HP'; [|exact HP'].
  unfold touch_funder. destruct (Api.results resp) as [|g ?]; [exact HP'|].
  destruct (Api.awardDate (Api.data g)) as [| |d]; [exact HP'| |];
    (destruct (update_error env (Db.org_id funder)); [exact HP'|]);
    apply (touch _ (Db.org_id funder) _ HP').
Qed.

Lemma sync_funders_keeps (funders : list Db.Organisation) (st : Progress) :
  P st -> P (sync_funders env options funders st).
Proof.
  revert st. induction funders as [|f rest IH]; intros st HP; [exact HP|].
  cbn [sync_funders]. destruct (JS.geq (synced st) (maxGrants options)); [exact HP|].
  apply IH. now apply sync_funder_keeps.
Qed.

Lemma syncGrantsForFunders_keeps (st : Db.Store) :
  P (start st) -> P (snd (syncGrantsForFunders env options st)).
Proof.
  intros HP. unfold syncGrantsForFunders.
  destruct (funders_query env); try exact HP.
  destruct (select_funders st) as [|f fs] eqn:E; [exact HP|].
  cbn [snd]. now apply sync_funders_keeps.
Qed.

End RunInduction.

Lemma upsert_grant_ids_present (row : Db.Grant) (gs : list Db.Grant) :
  In (Db.grant_id row) (map Db.grant_id gs) ->
  map Db.grant_id (Db.upsert_grant row gs) = map Db.grant_id gs.
Proof.
  induction gs as [|g gs IH]; simpl; [intros []|].
  destruct (String.eqb_spec (Db.grant_id g) (Db.grant_id row)) as [E|Hne]; simpl.
  - now rewrite E.
  - intros [H|H]; [contradiction|]. now rewrite IH.
Qed.

Lemma upsert_grant_ids_new (row : Db.Grant) (gs : list Db.Grant) :
  ~ In (Db.grant_id row) (map Db.grant_id gs) ->
  map Db.grant_id (Db.upsert_grant row gs) = map Db.grant_id gs ++ [Db.grant_id row].
Proof.
  induction gs as [|g gs IH]; simpl; [reflexivity|].
  intros Hnot. destruct (String.eqb_spec (Db.grant_id g) (Db.grant_id row)) as [E|Hne]; simpl.
  - exfalso. apply Hnot. now left.
  - rewrite IH; [reflexivity|]. intros H. apply Hnot. now right.
Qed.

Lemma upsert_grant_NoDup (row : Db.Grant) (gs : list Db.Grant) :
  NoDup (map Db.grant_id gs) -> NoDup (map Db.grant_id (Db.upsert_grant row gs)).
Proof.
  intros Hnd.
  destruct (in_dec string_dec (Db.grant_id row) (map Db.grant_id gs)) as [Hin|Hnot].
  - now rewrite upsert_grant_ids_present.
  - rewrite upsert_grant_ids_new by exact Hnot.
    apply NoDup_app; [exact Hnd|repeat constructor; intros []|].
    intros k Hk [<-|[]]. contradiction.
Qed.

Lemma upsert_grant_ids_incl (row : Db.Grant) (gs : list Db.Grant) (id : string) :
  In id (map Db.grant_id gs) -> In id (map Db.grant_id (Db.upsert_grant row gs)).
Proof.
  intros Hin.
  destruct (in_dec string_dec (Db.grant_id row) (map Db.grant_id gs)) as [Hp|Hn].
  - now rewrite upsert_grant_ids_present.
  - rewrite upsert_grant_ids_new by exact Hn. apply in_or_app. now left.
Qed.

Lemma existing_of_stored (st : Db.Store) (id : string) :
  NoDup (map Db.grant_id (Db.grants st)) -> In id (map Db.grant_id (Db.grants st)) ->
  probe_error env id = false ->
  existing env st id = true.
Proof.
  intros Hnd Hin Hprobe. unfold existing. rewrite Hprobe.
  induction (Db.grants st) as [|g gs IH]; [contradiction|].
  simpl in *. inversion Hnd as [|? ? Hg Hgs]; subst.
  destruct (String.eqb_spec (Db.grant_id g) id) as [E|Hne].
  - subst id.
    assert (Hrest : filter (fun x => String.eqb (Db.grant_id x) (Db.grant_id g)) gs = []).
    { destruct (filter _ gs) as [|y l] eqn:Ef; [reflexivity|exfalso].
      assert (Hy : In y (y :: l)) by now left. rewrite <- Ef in Hy.
      apply filter_In in Hy as [Hy Hk]. apply String.eqb_eq in Hk.
      apply Hg. rewrite <- Hk. now apply in_map. }
    now rewrite Hrest.
  - destruct Hin as [H|H]; [contradiction|]. now apply IH.
Qed.

End SyncInvariants.

(** X11.  The cap holds when there is one.  If [maxGrants] is a number,
    the grants a run upserts are never more than it (and none when it is
    not positive).  If it is [NaN], as [parseInt] gives for a value
    that is not numeric, no cap applies: unless a call to the store
    rejects, the run reaches every grant of every page it fetched.  Both
    counters are never negative. *)
Theorem synced_never_exceeds_the_cap (env : Sync.Env) (options : Sync.SyncOptions)
    (st : Db.Store) :
  (forall cap, Sync.maxGrants options = JS.Int cap ->
     Sync.synced (snd (Sync.syncGrantsForFunders env options st)) <= Z.max 0 cap) /\
  (Sync.maxGrants options = JS.NaN ->
   Sync.funders_query env = Db.Succeeds ->
   (forall g, ~ In (g, Sync.Threw)
                (Sync.journal (snd (Sync.syncGrantsForFunders env options st)))) ->
   forall f resp g,
     In f (Sync.select_funders st) ->
     Sync.getGrantsMade env (Db.org_id f) = Some resp ->
     In g (Api.results resp) ->
     In g (map fst (Sync.journal (snd (Sync.syncGrantsForFunders env options st))))) /\
  0 <= Sync.synced (snd (Sync.syncGrantsForFunders env options st)) /\
  0 <= Sync.skipped (snd (Sync.syncGrantsForFunders env options st)).
Proof.
  split; [|split].
  - intros cap Hcap.
    apply (syncGrantsForFunders_keeps env options
             (fun s => Sync.synced s <= Z.max 0 cap)); simpl; try (intros; lia).
    intros s g f H Hlt _ _. rewrite Hcap in Hlt. simpl in Hlt.
    destruct (Z.geb_spec (Sync.synced s) cap); [discriminate|lia].
  - intros Hnan Hq Hno f resp g Hf Hresp Hg.
    unfold Sync.syncGrantsForFunders in *. rewrite Hq in *.
    destruct (Sync.select_funders st) as [|f0 fs] eqn:Hsel; [destruct Hf|].
    cbn [snd] in *.
    destruct (sync_funders_advanced env options (f0 :: fs) (Sync.start st))
      as (j & (Hj & _) & Hall).
    cbn [Sync.journal Sync.start app] in Hj. rewrite Hj in *.
    apply (Hall ltac:(rewrite Hnan; reflexivity) Hno f resp g Hf Hresp Hg).
  - apply (syncGrantsForFunders_keeps env options
             (fun s => 0 <= Sync.synced s /\ 0 <= Sync.skipped s));
      simpl; intros; lia.
Qed.

(** With a cap of one the sample run stops after one grant; with the
    cap [NaN] it takes both grants of the page. *)
Lemma synced_cap_sample :
  Sync.synced (snd (Sync.syncGrantsForFunders (SyncSamples.env SyncSamples.page)
                      (SyncSamples.full 1) SyncSamples.store)) <= Z.max 0 1 /\
  Sync.synced (snd (Sync.syncGrantsForFunders (SyncSamples.env SyncSamples.page)
                      {| Sync.maxOrgs := 50; Sync.maxGrants := JS.NaN; Sync.offset := 0;
                         Sync.incremental := false; Sync.lastSyncDate := None |}
                      SyncSamples.store)) = 2.
Proof.
  split; [|vm_compute; reflexivity].
  apply (proj1 (synced_never_exceeds_the_cap (SyncSamples.env SyncSamples.page)
                  (SyncSamples.full 1) SyncSamples.store) 1 eq_refl).
Defined.

(** X12.  A full synchronisation skips nothing: [grants_skipped] is 0 and
    every grant the loop reaches is sent to the store. *)
Theorem full_sync_skips_nothing (env : Sync.Env) (options : Sync.SyncOptions)
    (st : Db.Store) :
  Sync.incremental options = false ->
  Sync.skipped (snd (Sync.syncGrantsForFunders env options st)) = 0 /\
  forall g d, In (g, d) (Sync.journal (snd (Sync.syncGrantsForFunders env options st))) ->
              SyncFacts.is_skip d = false.
Proof.
  intros Hfull.
  apply (syncGrantsForFunders_keeps env options
           (fun s => Sync.skipped s = 0 /\
                     forall g d, In (g, d) (Sync.journal s) -> SyncFacts.is_skip d = false)).
  - intros s g _ _ Hold. unfold Sync.older_than_last_sync in Hold.
    rewrite Hfull in Hold. discriminate.
  - intros s g _ _ Hinc. congruence.
  - intros s g [Hk Hj] _. simpl. split; [exact Hk|].
    intros g' d Hin. apply in_app_or in Hin as [Hin|[Hin|[]]]; [eauto|].
    now injection Hin as _ <-.
  - intros s g [Hk Hj] _. simpl. split; [exact Hk|].
    intros g' d Hin. apply in_app_or in Hin as [Hin|[Hin|[]]]; [eauto|].
    now injection Hin as _ <-.
  - intros s g f [Hk Hj] _ _ _. simpl. split; [exact Hk|].
    intros g' d Hin. apply in_app_or in Hin as [Hin|[Hin|[]]]; [eauto|].
    now injection Hin as _ <-.
  - intros s id d H. exact H.
  - simpl. split; [reflexivity|intros ? ? []].
Qed.

Lemma full_sync_skips_nothing_sample :
  Sync.skipped (snd (Sync.syncGrantsForFunders (SyncSamples.env SyncSamples.page)
                       (SyncSamples.full 500) SyncSamples.store)) = 0.
Proof.
  apply (full_sync_skips_nothing (SyncSamples.env SyncSamples.page)
           (SyncSamples.full 500) SyncSamples.store eq_refl).
Defined.

(** X13.  The grants table keeps one row per [grant_id]: if the ids are
    unique before a run they are unique after it, and no id is lost. *)
Theorem grant_ids_stay_unique (env : Sync.Env) (options : Sync.SyncOptions)
    (st : Db.Store) :
  NoDup (SyncShape.grant_ids st) ->
  NoDup (SyncShape.grant_ids
           (Sync.store (snd (Sync.syncGrantsForFunders env options st)))) /\
  forall id, In id (SyncShape.grant_ids st) ->
             In id (SyncShape.grant_ids
                      (Sync.store (snd (Sync.syncGrantsForFunders env options st)))).
Proof.
  intros Hnd.
  apply (syncGrantsForFunders_keeps env options
           (fun s => NoDup (SyncShape.grant_ids (Sync.store s)) /\
                     forall id, In id (SyncShape.grant_ids st) ->
                                In id (SyncShape.grant_ids (Sync.store s))));
    try (intros; assumption).
  - intros s g f [Hu Hin] _ _ _. unfold SyncShape.grant_ids in *. simpl. split.
    + now apply upsert_grant_NoDup.
    + intros id Hid. apply upsert_grant_ids_incl. auto.
  - split; [exact Hnd|auto].
Qed.

Lemma grant_ids_stay_unique_sample :
  NoDup (SyncShape.grant_ids
           (Sync.store (snd (Sync.syncGrantsForFunders (SyncSamples.env SyncSamples.page)
                               (SyncSamples.full 500) SyncSamples.store)))).
Proof.
  apply (grant_ids_stay_unique (SyncSamples.env SyncSamples.page)
           (SyncSamples.full 500) SyncSamples.store). constructor.
Defined.

(** X14.  An incremental run does not write a grant again: when the probe
    for an existing row does not fail, a grant whose [grant_id] is in the
    table is never upserted, neither one that was there before the run
    nor one the run has just written. *)
Theorem incremental_run_does_not_rewrite_stored_grants (env : Sync.Env)
    (options : Sync.SyncOptions) (st : Db.Store) :
  Sync.incremental options = true ->
  (forall id, Sync.probe_error env id = false) ->
  NoDup (SyncShape.grant_ids st) ->
  (forall g row,
     In (g, Sync.Upserted row)
        (Sync.journal (snd (Sync.syncGrantsForFunders env options st))) ->
     ~ In (Api.grant_id g) (SyncShape.grant_ids st)) /\
  NoDup (map Db.grant_id
           (SyncFacts.upserted_rows
              (Sync.journal (snd (Sync.syncGrantsForFunders env options st))))).
Proof.
  intros Hinc Hprobe Hnd.
  pose (ids_of := fun s : Sync.Progress =>
                    map Db.grant_id (SyncFacts.upserted_rows (Sync.journal s))).
  assert (H : let s := snd (Sync.syncGrantsForFunders env options st) in
              NoDup (SyncShape.grant_ids (Sync.store s)) /\
              (forall id, In id (SyncShape.grant_ids st) ->
                          In id (SyncShape.grant_ids (Sync.store s))) /\
              (forall id, In id (ids_of s) -> In id (SyncShape.grant_ids (Sync.store s))) /\
              (forall g row, In (g, Sync.Upserted row) (Sync.journal s) ->
                             ~ In (Api.grant_id g) (SyncShape.grant_ids st)) /\
              NoDup (ids_of s)).
  { apply (syncGrantsForFunders_keeps env options
             (fun s => NoDup (SyncShape.grant_ids (Sync.store s)) /\
                (forall id, In id (SyncShape.grant_ids st) ->
                            In id (SyncShape.grant_ids (Sync.store s))) /\
                (forall id, In id (ids_of s) -> In id (SyncShape.grant_ids (Sync.store s))) /\
                (forall g row, In (g, Sync.Upserted row) (Sync.journal s) ->
                               ~ In (Api.grant_id g) (SyncShape.grant_ids st)) /\
                NoDup (ids_of s))).
    - intros s g (Hu & Hin & Hup & Hj & Hnew) _ _. unfold ids_of in *. simpl.
      rewrite upserted_rows_app. simpl. rewrite app_nil_r.
      repeat split; auto.
      intros g' row H. apply in_app_or in H as [H|[H|[]]]; [eauto|discriminate].
    - intros s g (Hu & Hin & Hup & Hj & Hnew) _ _ _. unfold ids_of in *. simpl.
      rewrite upserted_rows_app. simpl. rewrite app_nil_r.
      repeat split; auto.
      intros g' row H. apply in_app_or in H as [H|[H|[]]]; [eauto|discriminate].
    - intros s g (Hu & Hin & Hup & Hj & Hnew) _. unfold ids_of in *. simpl.
      rewrite upserted_rows_app. simpl. rewrite app_nil_r.
      repeat split; auto.
      intros g' row H. apply in_app_or in H as [H|[H|[]]]; [eauto|discriminate].
    - intros s g (Hu & Hin & Hup & Hj & Hnew) _. unfold ids_of in *. simpl.
      rewrite upserted_rows_app. simpl. rewrite app_nil_r.
      repeat split; auto.
      intros g' row H. apply in_app_or in H as [H|[H|[]]]; [eauto|discriminate].
    - intros s g f (Hu & Hin & Hup & Hj & Hnew) _ _ Hex.
      rewrite Hinc in Hex. cbn [andb] in Hex.
      assert (Hfresh : ~ In (Api.grant_id g) (SyncShape.grant_ids (Sync.store s))).
      { intros Hstored.
        rewrite (existing_of_stored env _ _ Hu Hstored (Hprobe _)) in Hex. discriminate. }
      unfold ids_of, SyncShape.grant_ids in *. simpl.
      rewrite upserted_rows_app, map_app. simpl.
      split; [now apply upsert_grant_NoDup|].
      split; [intros id Hid; apply upsert_grant_ids_incl; auto|].
      split; [|split].
      + intros id Hid. apply in_app_or in Hid as [Hid|[<-|[]]].
        * apply upsert_grant_ids_incl. auto.
        * rewrite upsert_grant_ids_new by exact Hfresh. apply in_or_app. right. now left.
      + intros g' row H. apply in_app_or in H as [H|[H|[]]]; [eauto|].
        injection H as <- _. intros Hst. apply Hfresh. auto.
      + apply NoDup_app; [exact Hnew|repeat constructor; intros []|].
        intros id Hid [<-|[]]. apply Hfresh. auto.
    - intros s id d H. exact H.
    - unfold ids_of. simpl. repeat split; auto; try constructor; intros ? [].
  }
  cbv zeta in H. destruct H as (_ & _ & _ & Hj & Hnew). split; assumption.
Qed.

Lemma incremental_run_does_not_rewrite_sample :
  NoDup (map Db.grant_id
           (SyncFacts.upserted_rows
              (Sync.journal (snd (Sync.syncGrantsForFunders
                                    (SyncSamples.env SyncSamples.page)
                                    (SyncSamples.incremental_since SyncSamples.since 10)
                                    SyncSamples.store))))).
Proof.
  apply (incremental_run_does_not_rewrite_stored_grants
           (SyncSamples.env SyncSamples.page)
           (SyncSamples.incremental_since SyncSamples.since 10) SyncSamples.store).
  - reflexivity.
  - reflexivity.
  - constructor.
Defined.

Lemma grant_phase_frame (env : Sync.Env) (options : Sync.SyncOptions) (st : Db.Store) :
  map SyncShape.undated
    (Db.organisations (Sync.store (snd (Sync.syncGrantsForFunders env options st))))
  = map SyncShape.undated (Db.organisations st) /\
  Db.sync_logs (Sync.store (snd (Sync.syncGrantsForFunders env options st)))
  = Db.sync_logs st /\
  Db.match_cache (Sync.store (snd (Sync.syncGrantsForFunders env options st)))
  = Db.match_cache st.
Proof.
  apply (syncGrantsForFunders_keeps env options
           (fun s => map SyncShape.undated (Db.organisations (Sync.store s))
                     = map SyncShape.undated (Db.organisations st) /\
                     Db.sync_logs (Sync.store s) = Db.sync_logs st /\
                     Db.match_cache (Sync.store s) = Db.match_cache st));
    try (intros; assumption).
  - intros s id d (Ho & Hl & Hc). simpl. repeat split; try assumption.
    rewrite <- Ho. unfold Db.update_last_grant_made_date. rewrite map_map.
    apply map_ext. intros o. destruct (String.eqb (Db.org_id o) id); reflexivity.
  - repeat split.
Qed.

(** X15.  The grant phase leaves the organisations in place: it adds and
    removes none and changes no field but [last_grant_made_date]; the
    synchronisation log and the match cache are not written at all. *)
Theorem grant_phase_only_dates_organisations (env : Sync.Env)
    (options : Sync.SyncOptions) (st : Db.Store) :
  List.length (Db.organisations (Sync.store (snd (Sync.syncGrantsForFunders env options st))))
  = List.length (Db.organisations st) /\
  map SyncShape.undated
    (Db.organisations (Sync.store (snd (Sync.syncGrantsForFunders env options st))))
  = map SyncShape.undated (Db.organisations st) /\
  Db.sync_logs (Sync.store (snd (Sync.syncGrantsForFunders env options st)))
  = Db.sync_logs st /\
  Db.match_cache (Sync.store (snd (Sync.syncGrantsForFunders env options st)))
  = Db.match_cache st.
Proof.
  destruct (grant_phase_frame env options st) as (Ho & Hl & Hc).
  split; [|repeat split; assumption].
  rewrite <- (length_map SyncShape.undated), Ho. apply length_map.
Qed.

(** ** A full run stops at the cap, and run again it changes nothing *)

Section FullRun.

Import Sync SyncFacts SyncShape Rerun.

Variable env : Env.
Variable options : SyncOptions.
Hypothesis full : incremental options = false.

Lemma full_never_older (d : JS.field string) :
  older_than_last_sync env options d = false.
Proof. unfold older_than_last_sync. now rewrite full. Qed.

Lemma upsert_goes_through (row : Db.Grant) :
  upsert_error env row = false -> upsert env row = Db.Succeeds.
Proof. unfold upsert_error, fails. now destruct (upsert env row). Qed.

(** Without upsert errors a full run takes the grants of a page in turn
    until the cap. *)
Lemma sync_page_full (cap : Z) (funder : Db.Organisation) (results : list Api.GrantData)
    (st : Progress) :
  maxGrants options = JS.Int cap ->
  (forall row, upsert_error env row = false) ->
  synced st <= cap ->
  let n := Z.to_nat (cap - synced st) in
  fst (sync_page env options funder results st) = Finished /\
  synced (snd (sync_page env options funder results st))
    = synced st + Z.of_nat (List.length (firstn n results)) /\
  skipped (snd (sync_page env options funder results st)) = skipped st /\
  map fst (journal (snd (sync_page env options funder results st)))
    = map fst (journal st) ++ firstn n results.
Proof.
  intros Hmax Hok. revert st. induction results as [|g rest IH]; intros st Hle n.
  - simpl. rewrite firstn_nil, app_nil_r. simpl. repeat split; lia.
  - cbn [sync_page]. rewrite Hmax. cbn [JS.geq].
    destruct (Z.geb_spec (synced st) cap) as [Hcap|Hcap].
    + assert (n = 0%nat) as -> by (unfold n; lia). simpl. rewrite app_nil_r.
      repeat split; lia.
    + rewrite full_never_older, full. cbn [andb]. cbv zeta.
      rewrite (upsert_goes_through _ (Hok _)).
      match goal with |- context [sync_page _ _ _ rest ?s] =>
        destruct (IH s) as (Hf & Hs & Hk & Hj); [simpl; lia|] end.
      cbn [synced skipped journal record] in *.
      assert (Hn : n = S (Z.to_nat (cap - (synced st + 1))))
        by (unfold n; lia).
      rewrite Hn. cbn [firstn List.length]. rewrite Hf, Hs, Hk, Hj.
      rewrite map_app. cbn [map fst]. rewrite <- app_assoc. cbn [app].
      repeat split. lia.
Qed.









End FullRun.

Section UpsertTwice.

Import Sync SyncFacts SyncShape Rerun.










End UpsertTwice.

(** X16.  The run takes exactly [maxGrants] grants when a funder has that
    many: in a full synchronisation without upsert errors, if the page of
    the first funder holds at least [maxGrants] grants, the run upserts
    the first [maxGrants] of them in order, skips none, and leaves the
    rest for a later run. *)
Theorem full_sync_takes_exactly_the_cap (env : Sync.Env) (options : Sync.SyncOptions)
    (st : Db.Store) (f : Db.Organisation) (fs : list Db.Organisation)
    (resp : Api.GrantsResponse) (cap : Z) :
  Sync.incremental options = false ->
  (forall row, Sync.upsert_error env row = false) ->
  Sync.funders_query env = Db.Succeeds ->
  Sync.select_funders st = f :: fs ->
  Sync.getGrantsMade env (Db.org_id f) = Some resp ->
  Sync.maxGrants options = JS.Int cap ->
  0 <= cap <= Z.of_nat (List.length (Api.results resp)) ->
  fst (Sync.syncGrantsForFunders env options st) = inr (cap, 0) /\
  map fst (Sync.journal (snd (Sync.syncGrantsForFunders env options st)))
    = firstn (Z.to_nat cap) (Api.results resp).
Proof.
  intros Hfull Hok Hq Hsel Hresp Hmax Hcap.
  unfold Sync.syncGrantsForFunders. rewrite Hq, Hsel. cbn [fst snd Sync.sync_funders].
  cbn [Sync.synced Sync.start]. rewrite Hmax. cbn [JS.geq].
  destruct (Z.geb_spec 0 cap) as [Hzero|Hpos].
  - assert (cap = 0) as -> by lia. split; reflexivity.
  - unfold Sync.sync_funder. rewrite Hresp.
    destruct (sync_page_full env options Hfull cap f (Api.results resp) (Sync.start st)
                Hmax Hok) as (Hf & Hs & Hk & Hj); [simpl; lia|].
    destruct (Sync.sync_page env options f (Api.results resp) (Sync.start st))
      as [e s1]. cbn [fst snd] in *. subst e.
    destruct (touch_funder_frame env f (Api.results resp) s1) as (Ts & Tk & Tj & _).
    cbn [Sync.synced Sync.skipped Sync.journal Sync.start] in Hs, Hk, Hj.
    rewrite Z.sub_0_r in Hs, Hj. rewrite length_firstn in Hs.
    assert (Hend : Sync.synced (Sync.touch_funder env f (Api.results resp) s1) = cap)
      by lia.
    assert (Hstop : forall rest s, Sync.synced s = cap ->
                      Sync.sync_funders env options rest s = s).
    { intros [|x rest] s Hsx; [reflexivity|]. cbn [Sync.sync_funders].
      rewrite Hmax. cbn [JS.geq].
      destruct (Z.geb_spec (Sync.synced s) cap); [reflexivity|lia]. }
    rewrite (Hstop fs _ Hend), Hend, Tk, Hk, Tj, Hj. split; reflexivity.
Qed.

(** The scenario of a cap of ten against a funder with fifteen grants. *)
Lemma full_sync_cap_of_ten :
  fst (Sync.syncGrantsForFunders
         (SyncSamples.env (map (fun i => SyncSamples.grant (String (ascii_of_nat (97 + i)) EmptyString)
                                           "2024-02-02") (seq 0 15)))
         (SyncSamples.full 10) SyncSamples.store)
  = inr (10, 0).
Proof.
  apply (full_sync_takes_exactly_the_cap
           (SyncSamples.env (map (fun i => SyncSamples.grant
                                             (String (ascii_of_nat (97 + i)) EmptyString)
                                             "2024-02-02") (seq 0 15)))
           (SyncSamples.full 10) SyncSamples.store SyncSamples.funder []
           {| Api.count := 15; Api.next := None;
              Api.results := map (fun i => SyncSamples.grant
                                             (String (ascii_of_nat (97 + i)) EmptyString)
                                             "2024-02-02") (seq 0 15) |} 10).
  - reflexivity.
  - reflexivity.
  - reflexivity.
  - reflexivity.
  - reflexivity.
  - reflexivity.
  - simpl. lia.
Defined.



(** ** The rate limiter: throughput, conservation and progress *)

Section LimiterProgress.

Import RateLimiter LimiterFacts LimiterShape.

Ltac limiter_fields :=
  cbn [queue processing running timers clock submitted started settled] in *.

Lemma paced_far (l : list (nat * Z)) (k i : nat) (a b : nat * Z) :
  paced l -> nth_error l i = Some a -> nth_error l (i + k) = Some b ->
  snd a + RATE_LIMIT_DELAY * Z.of_nat k <= snd b.
Proof.
  intros Hp. revert i a b. induction k as [|k IH]; intros i a b Ha Hb.
  - rewrite Nat.add_0_r, Ha in Hb. injection Hb as <-. lia.
  - replace (i + S k)%nat with (S (i + k)) in Hb by lia.
    destruct (nth_error l (i + k)) as [c|] eqn:Hc.
    + pose proof (IH i a c Ha Hc). pose proof (paced_nth l (i + k) c b Hp Hc Hb).
      unfold RATE_LIMIT_DELAY in *. lia.
    + apply nth_error_None in Hc.
      assert (nth_error l (S (i + k)) = None) by (apply nth_error_None; lia).
      congruence.
Qed.

Lemma step_submitted (s s' : state) (ev : Z * action) :
  step s ev = Some s' -> submitted s' = (submitted s + adds [ev])%nat.
Proof.
  destruct ev as [now a]. unfold step, adds.
  destruct (now <? clock s); [discriminate|].
  destruct a as [|u o|d]; simpl.
  - intros H. injection H as <-. unfold process. simpl.
    destruct (processing s); simpl; [lia|].
    destruct (queue s ++ [submitted s])%list; simpl; lia.
  - destruct (mem Nat.eqb u (running s)); [|discriminate].
    intros H. injection H as <-. simpl. lia.
  - destruct (mem Z.eqb d (timers s) && (d <=? now)); [|discriminate].
    intros H. injection H as <-. unfold process. simpl.
    destruct (queue s); simpl; lia.
Qed.

Lemma run_submitted (evs : list (Z * action)) (s s' : state) :
  run s evs = Some s' -> submitted s' = (submitted s + adds evs)%nat.
Proof.
  revert s. induction evs as [|ev evs IH]; simpl; intros s Hr.
  - injection Hr as <-. unfold adds. simpl. lia.
  - destruct (step s ev) as [s1|] eqn:Hs; [|discriminate].
    rewrite (IH _ Hr), (step_submitted _ _ _ Hs).
    unfold adds. simpl. destruct (snd ev); simpl; lia.
Qed.

Lemma run_app (evs more : list (Z * action)) (s s' : state) :
  run s evs = Some s' -> run s (evs ++ more) = run s' more.
Proof.
  revert s. induction evs as [|ev evs IH]; simpl; intros s Hr.
  - now injection Hr as <-.
  - destruct (step s ev) as [s1|]; [|discriminate]. now apply IH.
Qed.

Lemma inv_accounts (s : state) :
  inv s ->
  (map fst (started s) ++ queue s)%list = seq 0 (submitted s) /\
  List.length (started s) = (List.length (settled s) + List.length (running s))%nat.
Proof.
  intros (Hst & Hq & Hle & _ & _ & _ & Hph). split.
  - rewrite Hst, Hq, <- seq_app. f_equal. lia.
  - unfold phase in Hph. destruct (processing s).
    + destruct Hph as [(-> & _ & ->)|(d & -> & _ & -> & _)]; simpl; lia.
    + destruct Hph as (-> & _ & _ & -> & _). simpl. lia.
Qed.

(** The pacing timer fires: [process] is released and takes the next
    queued unit, if there is one. *)
Lemma timer_fires (s : state) (d : Z) :
  inv s -> processing s = true -> running s = [] -> timers s = [d] ->
  exists s2,
    step s (Z.max (clock s) d, Timeout d) = Some s2 /\
    match queue s with
    | [] => idle s2
    | u :: q => queue s2 = q /\ processing s2 = true /\ running s2 = [u] /\ timers s2 = []
    end.
Proof.
  intros _ Hpr Hrun Htim. unfold step.
  destruct (Z.ltb_spec (Z.max (clock s) d) (clock s)) as [|_]; [lia|].
  cbv beta iota zeta. unfold set_clock. limiter_fields.
  rewrite Htim. cbn [mem existsb]. rewrite Z.eqb_refl. cbn [orb andb].
  destruct (Z.leb_spec d (Z.max (clock s) d)) as [_|]; [|lia].
  eexists. split; [reflexivity|].
  unfold process, idle. limiter_fields. cbn [remove1]. rewrite Z.eqb_refl.
  destruct (queue s); limiter_fields; rewrite ?Hrun; repeat split; reflexivity.
Qed.

(** The thunk in flight settles: the pacing timer is armed. *)
Lemma thunk_settles (s : state) (u : nat) :
  processing s = true -> running s = [u] -> timers s = [] ->
  exists s1,
    step s (clock s, Settle u (Fulfilled 0)) = Some s1 /\
    queue s1 = queue s /\ processing s1 = true /\ running s1 = [] /\
    timers s1 = [clock s + RATE_LIMIT_DELAY].
Proof.
  intros Hpr Hrun Htim. unfold step.
  rewrite Z.ltb_irrefl. cbv beta iota zeta. unfold set_clock. limiter_fields.
  rewrite Hrun, Htim. cbn [mem existsb]. rewrite Nat.eqb_refl. cbn [orb].
  eexists. split; [reflexivity|]. limiter_fields. cbn [remove1].
  rewrite Nat.eqb_refl. repeat split; assumption.
Qed.

Lemma drains (n : nat) (s : state) :
  inv s -> List.length (queue s) = n ->
  exists more s', run s more = Some s' /\ adds more = 0%nat /\ idle s'.
Proof.
  revert s. induction n as [|n IH]; intros s Hi Hn.
  - (* nothing waits: at most one settlement and one timer remain *)
    apply length_zero_iff_nil in Hn.
    pose proof Hi as (_ & _ & _ & _ & _ & _ & Hph). unfold phase in Hph.
    destruct (processing s) eqn:Hpr.
    + destruct Hph as [(Hrun & Htim & _)|(d & Hrun & Htim & _)].
      * destruct (thunk_settles s _ Hpr Hrun Htim) as (s1 & H1 & Hq1 & Hp1 & Hr1 & Ht1).
        pose proof (step_inv _ _ _ Hi H1) as Hi1.
        destruct (timer_fires s1 _ Hi1 Hp1 Hr1 Ht1) as (s2 & H2 & Hidle).
        rewrite Hq1, Hn in Hidle.
        eexists [_; _], s2. cbn [run]. rewrite H1, H2.
        repeat split; try reflexivity; apply Hidle.
      * destruct (timer_fires s d Hi Hpr Hrun Htim) as (s2 & H2 & Hidle).
        rewrite Hn in Hidle.
        eexists [_], s2. cbn [run]. rewrite H2.
        repeat split; try reflexivity; apply Hidle.
    + destruct Hph as (Hrun & Htim & _).
      exists [], s. repeat split; try reflexivity; assumption.
  - destruct (queue s) as [|u q] eqn:Hq; [discriminate|].
    injection Hn as Hn.
    pose proof Hi as (_ & _ & _ & _ & _ & _ & Hph). unfold phase in Hph.
    destruct (processing s) eqn:Hpr.
    + destruct Hph as [(Hrun & Htim & _)|(d & Hrun & Htim & _)].
      * destruct (thunk_settles s _ Hpr Hrun Htim) as (s1 & H1 & Hq1 & Hp1 & Hr1 & Ht1).
        pose proof (step_inv _ _ _ Hi H1) as Hi1.
        destruct (timer_fires s1 _ Hi1 Hp1 Hr1 Ht1) as (s2 & H2 & Hnext).
        rewrite Hq1, Hq in Hnext. destruct Hnext as (Hq2 & _).
        pose proof (step_inv _ _ _ Hi1 H2) as Hi2.
        destruct (IH s2 Hi2) as (more & s' & Hr & Ha & Hidle); [now rewrite Hq2|].
        eexists (_ :: _ :: more), s'. cbn [run]. rewrite H1, H2.
        repeat split; try apply Hidle; [exact Hr|].
        unfold adds in *. cbn [filter snd]. exact Ha.
      * destruct (timer_fires s d Hi Hpr Hrun Htim) as (s2 & H2 & Hnext).
        rewrite Hq in Hnext. destruct Hnext as (Hq2 & _).
        pose proof (step_inv _ _ _ Hi H2) as Hi2.
        destruct (IH s2 Hi2) as (more & s' & Hr & Ha & Hidle); [now rewrite Hq2|].
        eexists (_ :: more), s'. cbn [run]. rewrite H2.
        repeat split; try apply Hidle; [exact Hr|].
        unfold adds in *. cbn [filter snd]. exact Ha.
    + destruct Hph as (_ & _ & Hqe & _). congruence.
Qed.

End LimiterProgress.

(** X18.  The limiter keeps to two requests a second: whatever the
    events, the thunk started [k] places after another one starts at
    least [500 * k] ms after it. *)
Theorem rate_limiter_bounds_throughput (evs : list (Z * RateLimiter.action))
    (s : RateLimiter.state) (i k : nat) (a b : nat * Z) :
  RateLimiter.run RateLimiter.init evs = Some s ->
  nth_error (RateLimiter.started s) i = Some a ->
  nth_error (RateLimiter.started s) (i + k) = Some b ->
  snd a + 500 * Z.of_nat k <= snd b.
Proof.
  intros Hrun Ha Hb.
  pose proof (run_inv _ _ _ init_inv Hrun) as (_ & _ & _ & _ & Hp & _).
  exact (paced_far _ k i a b Hp Ha Hb).
Qed.

Lemma rate_limiter_bounds_throughput_sample :
  snd (0%nat, 0) + 500 * Z.of_nat 2 <= snd (2%nat, 1200).
Proof.
  apply (rate_limiter_bounds_throughput LimiterSamples.events LimiterSamples.final
           0 2 (0%nat, 0) (2%nat, 1200)).
  - vm_compute. reflexivity.
  - reflexivity.
  - reflexivity.
Defined.

(** X19.  The limiter loses no unit and runs none twice: the units
    started, followed by the units waiting, are the units submitted, in
    the order of submission; their number is the number of calls to
    [add]; and every started unit has settled or is the one in flight. *)
Theorem rate_limiter_loses_no_unit (evs : list (Z * RateLimiter.action))
    (s : RateLimiter.state) :
  RateLimiter.run RateLimiter.init evs = Some s ->
  (map fst (RateLimiter.started s) ++ RateLimiter.queue s)%list
    = seq 0 (LimiterShape.adds evs) /\
  List.length (RateLimiter.started s)
    = (List.length (RateLimiter.settled s) + List.length (RateLimiter.running s))%nat.
Proof.
  intros Hrun.
  pose proof (run_inv _ _ _ init_inv Hrun) as Hi.
  destruct (inv_accounts s Hi) as (Hall & Hlen).
  rewrite (run_submitted _ _ _ Hrun) in Hall. split; assumption.
Qed.

Lemma rate_limiter_loses_no_unit_sample :
  (map fst (RateLimiter.started LimiterSamples.final)
     ++ RateLimiter.queue LimiterSamples.final)%list
  = seq 0 (LimiterShape.adds LimiterSamples.events).
Proof.
  apply (rate_limiter_loses_no_unit LimiterSamples.events LimiterSamples.final).
  vm_compute. reflexivity.
Defined.

(** X20.  The limiter cannot get stuck: from any state it can reach,
    once the thunks in flight settle and the pacing timers fire, with no
    further call to [add], every submitted unit has been started and
    settled and the limiter is idle. *)
Theorem rate_limiter_drains_its_queue (evs : list (Z * RateLimiter.action))
    (s : RateLimiter.state) :
  RateLimiter.run RateLimiter.init evs = Some s ->
  exists more s',
    RateLimiter.run RateLimiter.init (evs ++ more) = Some s' /\
    LimiterShape.adds more = 0%nat /\
    LimiterShape.idle s' /\
    map fst (RateLimiter.started s') = seq 0 (LimiterShape.adds evs) /\
    map fst (RateLimiter.settled s') = seq 0 (LimiterShape.adds evs).
Proof.
  intros Hrun.
  pose proof (run_inv _ _ _ init_inv Hrun) as Hi.
  destruct (drains _ s Hi eq_refl) as (more & s' & Hmore & Hadds & Hidle).
  exists more, s'.
  pose proof (run_inv _ _ _ Hi Hmore) as Hi'.
  destruct (inv_accounts s' Hi') as (Hall & Hlen).
  pose proof Hidle as (Hq & Hr & _).
  rewrite Hq, app_nil_r in Hall. rewrite Hr in Hlen. simpl in Hlen.
  rewrite (run_submitted _ _ _ Hmore), (run_submitted _ _ _ Hrun), Hadds in Hall.
  simpl in Hall. rewrite Nat.add_0_r in Hall.
  repeat split; try apply Hidle.
  - rewrite (run_app _ _ _ _ Hrun). exact Hmore.
  - exact Hadds.
  - exact Hall.
  - destruct Hi' as (_ & _ & _ & Hse & _). rewrite Hse.
    assert (List.length (RateLimiter.started s') = LimiterShape.adds evs).
    { rewrite <- (length_map fst), Hall. apply length_seq. }
    f_equal. lia.
Qed.

Lemma rate_limiter_drains_sample :
  exists more s',
    RateLimiter.run RateLimiter.init (LimiterSamples.events ++ more) = Some s' /\
    LimiterShape.adds more = 0%nat /\
    LimiterShape.idle s' /\
    map fst (RateLimiter.started s') = seq 0 (LimiterShape.adds LimiterSamples.events) /\
    map fst (RateLimiter.settled s') = seq 0 (LimiterShape.adds LimiterSamples.events).
Proof.
  apply (rate_limiter_drains_its_queue LimiterSamples.events LimiterSamples.final).
  vm_compute. reflexivity.
Defined.

(** ** The organisation phase and the route handlers *)

Section OrganisationPhase.

Import Route RouteFacts.

Variable env : Env.

Lemma upsert_org_kept_present (org : OrgApi.OrgSummary)
    (detail : OrgApi.OrganisationDetailResponse) (os : list Db.Organisation) :
  In (OrgApi.org_id org) (map Db.org_id os) ->
  map kept (upsert_org org detail os) = map kept os.
Proof.
  induction os as [|o os IH]; simpl; [intros []|].
  destruct (String.eqb_spec (Db.org_id o) (OrgApi.org_id org)) as [E|Hne]; simpl.
  - intros _. unfold kept at 1 3. simpl. now rewrite E.
  - intros [H|H]; [contradiction|]. now rewrite IH.
Qed.

Lemma upsert_org_kept_new (org : OrgApi.OrgSummary)
    (detail : OrgApi.OrganisationDetailResponse) (os : list Db.Organisation) :
  ~ In (OrgApi.org_id org) (map Db.org_id os) ->
  map kept (upsert_org org detail os) = map kept os ++ [(OrgApi.org_id org, None)].
Proof.
  induction os as [|o os IH]; simpl; [reflexivity|].
  intros Hnot.
  destruct (String.eqb_spec (Db.org_id o) (OrgApi.org_id org)) as [E|Hne]; simpl.
  - exfalso. apply Hnot. now left.
  - rewrite IH; [reflexivity|]. intros H. apply Hnot. now right.
Qed.

Lemma org_ids_of_kept (os : list Db.Organisation) :
  map Db.org_id os = map fst (map kept os).
Proof. rewrite map_map. reflexivity. Qed.

(** What one upsert of an organisation does to the ids and the dates. *)
Lemma upsert_org_grows (org : OrgApi.OrgSummary)
    (detail : OrgApi.OrganisationDetailResponse) (os : list Db.Organisation) :
  (exists added, map kept (upsert_org org detail os) = map kept os ++ added) /\
  (NoDup (map Db.org_id os) -> NoDup (map Db.org_id (upsert_org org detail os))).
Proof.
  destruct (in_dec string_dec (OrgApi.org_id org) (map Db.org_id os)) as [Hin|Hnot].
  - split.
    + exists []. now rewrite app_nil_r, upsert_org_kept_present.
    + rewrite !org_ids_of_kept, upsert_org_kept_present by exact Hin. auto.
  - split.
    + eexists. now apply upsert_org_kept_new.
    + rewrite (org_ids_of_kept (upsert_org _ _ _)), upsert_org_kept_new by exact Hnot.
      rewrite map_app, <- org_ids_of_kept. simpl. intros Hnd.
      apply NoDup_app; [exact Hnd|repeat constructor; intros []|].
      intros k Hk [<-|[]]. contradiction.
Qed.

Lemma sync_org_inv (st : Db.Store) (done : nat) (acc : Z * Db.Store)
    (org : OrgApi.OrgSummary) :
  org_loop_inv st done acc -> org_loop_inv st (S done) (sync_org env acc org).
Proof.
  intros (Hk & Hnd & Hg & Hl & Hc & Hn). unfold sync_org.
  assert (Hskip : org_loop_inv st (S done) acc)
    by (repeat split; try assumption; lia).
  destruct (getOrganisationDetail env (OrgApi.org_id org)) as [detail|]; [|exact Hskip].
  destruct (org_upsert_error env (OrgApi.org_id org)); [exact Hskip|].
  destruct (upsert_org_grows org detail (Db.organisations (snd acc))) as ((more & Hm) & Hu).
  destruct Hk as (added & Hk).
  unfold org_loop_inv, org_ids in *. cbn [fst snd Db.set_organisations Db.organisations
    Db.grants Db.sync_logs Db.match_cache].
  repeat split; try assumption; try lia.
  - exists (added ++ more). now rewrite Hm, Hk, app_assoc.
  - auto.
Qed.

Lemma org_loop (st : Db.Store) (l : list OrgApi.OrgSummary) (done : nat)
    (acc : Z * Db.Store) :
  org_loop_inv st done acc ->
  org_loop_inv st (done + List.length l) (fold_left (sync_org env) l acc).
Proof.
  revert done acc. induction l as [|org l IH]; intros done acc H; simpl.
  - now rewrite Nat.add_0_r.
  - replace (done + S (List.length l))%nat with (S done + List.length l)%nat by lia.
    apply IH. now apply sync_org_inv.
Qed.

Lemma slice_to_length {A} (n : Z) (l : list A) :
  (List.length (slice_to n l) <= List.length l)%nat /\
  (0 <= n -> Z.of_nat (List.length (slice_to n l)) <= n).
Proof.
  unfold slice_to. destruct (Z.ltb_spec n 0); rewrite length_firstn; split; lia.
Qed.

Lemma syncOrganisations_inv (maxOrgs offset : Z) (st : Db.Store) :
  (forall m, fst (syncOrganisations env maxOrgs offset st) = inl m ->
             snd (syncOrganisations env maxOrgs offset st) = st) /\
  exists done,
    org_loop_inv st done
      (match fst (syncOrganisations env maxOrgs offset st) with
       | inr n => n
       | inl _ => 0
       end, snd (syncOrganisations env maxOrgs offset st)) /\
    (0 <= maxOrgs -> Z.of_nat done <= maxOrgs) /\
    forall response, getOrganisations env maxOrgs offset = inr response ->
                     (done <= List.length (OrgApi.results response))%nat.
Proof.
  assert (H0 : org_loop_inv st 0 (0, st)).
  { unfold org_loop_inv. cbn [fst snd]. repeat split; auto; try lia.
    exists []. now rewrite app_nil_r. }
  unfold syncOrganisations.
  destruct (getOrganisations env maxOrgs offset) as [m|response]; cbn [fst snd].
  - split; [reflexivity|]. exists 0%nat. repeat split; try apply H0; try lia.
  - split; [intros ? [=]|].
    exists (List.length (slice_to maxOrgs (OrgApi.results response))).
    pose proof (org_loop st (slice_to maxOrgs (OrgApi.results response)) 0 (0, st) H0) as H.
    cbn [Nat.add] in H.
    destruct (fold_left (sync_org env) (slice_to maxOrgs (OrgApi.results response)) (0, st))
      as [n st'] eqn:E.
    cbn [fst snd]. split; [exact H|].
    destruct (slice_to_length maxOrgs (OrgApi.results response)) as [Hl Hn].
    split; [exact Hn|]. intros r [= <-]. exact Hl.
Qed.

End OrganisationPhase.

(** X21.  [syncOrganisations] only adds to the organisations: the rows
    that were there keep their place, their [org_id] and their
    [last_grant_made_date]; the ids stay unique; the other tables are not
    written.  The number it returns is at most the number of
    organisations of the page, and at most [maxOrgs] when that is not
    negative; if the listing call rejects, nothing is written. *)
Theorem syncOrganisations_only_adds (env : Route.Env) (maxOrgs offset : Z)
    (st : Db.Store) :
  (exists added,
     map RouteFacts.kept
       (Db.organisations (snd (Route.syncOrganisations env maxOrgs offset st)))
     = map RouteFacts.kept (Db.organisations st) ++ added) /\
  (NoDup (RouteFacts.org_ids st) ->
   NoDup (RouteFacts.org_ids (snd (Route.syncOrganisations env maxOrgs offset st)))) /\
  Db.grants (snd (Route.syncOrganisations env maxOrgs offset st)) = Db.grants st /\
  Db.sync_logs (snd (Route.syncOrganisations env maxOrgs offset st)) = Db.sync_logs st /\
  Db.match_cache (snd (Route.syncOrganisations env maxOrgs offset st))
  = Db.match_cache st /\
  (forall n, fst (Route.syncOrganisations env maxOrgs offset st) = inr n ->
     0 <= n /\ (0 <= maxOrgs -> n <= maxOrgs) /\
     exists response,
       Route.getOrganisations env maxOrgs offset = inr response /\
       n <= Z.of_nat (List.length (OrgApi.results response))) /\
  (forall m, fst (Route.syncOrganisations env maxOrgs offset st) = inl m ->
     snd (Route.syncOrganisations env maxOrgs offset st) = st).
Proof.
  destruct (syncOrganisations_inv env maxOrgs offset st)
    as (Hrej & done & (Hk & Hnd & Hg & Hl & Hc & Hn) & Hmax & Hres).
  cbn [fst snd] in *.
  repeat split; try assumption.
  - rewrite H in Hn. lia.
  - intros Hm. rewrite H in Hn. specialize (Hmax Hm). lia.
  - rewrite H in Hn. unfold Route.syncOrganisations in H.
    destruct (Route.getOrganisations env maxOrgs offset) as [m|response] eqn:E;
      [discriminate|].
    exists response. split; [reflexivity|].
    specialize (Hres response eq_refl). lia.
Qed.

Section PostHandler.

Import Route RouteFacts.

Variable env : Env.

Lemma grant_phase_ids (o : Sync.SyncOptions) (st : Db.Store) :
  forall id, In id (SyncShape.grant_ids st) ->
             In id (SyncShape.grant_ids
                      (Sync.store (snd (Sync.syncGrantsForFunders (sync env) o st)))).
Proof.
  apply (syncGrantsForFunders_keeps (sync env) o
           (fun s => forall id, In id (SyncShape.grant_ids st) ->
                                In id (SyncShape.grant_ids (Sync.store s))));
    try (intros; assumption); try (intros; auto; fail).
  intros s g f Hin _ _ _ id Hid. unfold SyncShape.grant_ids in *. simpl.
  apply upsert_grant_ids_incl. auto.
Qed.

Lemma undated_org_ids (a b : list Db.Organisation) :
  map SyncShape.undated a = map SyncShape.undated b -> map Db.org_id a = map Db.org_id b.
Proof.
  intros H. apply (f_equal (map Db.org_id)) in H. rewrite !map_map in H. exact H.
Qed.

(** What the two phases do to the tables. *)
Lemma phases_frame (o : Sync.SyncOptions) (st : Db.Store) :
  Db.sync_logs (snd (phases env o st)) = Db.sync_logs st /\
  Db.match_cache (snd (phases env o st)) = Db.match_cache st /\
  (forall id, In id (org_ids st) -> In id (org_ids (snd (phases env o st)))) /\
  (forall id, In id (SyncShape.grant_ids st) ->
              In id (SyncShape.grant_ids (snd (phases env o st)))) /\
  (Sync.incremental o = true -> Sync.offset o <= 0 ->
   map SyncShape.undated (Db.organisations (snd (phases env o st)))
   = map SyncShape.undated (Db.organisations st) /\
   forall a b c, fst (phases env o st) = inr (a, b, c) -> a = 0).
Proof.
  unfold phases.
  set (orgs := if negb (Sync.incremental o) || (Sync.offset o >? 0)
               then syncOrganisations env (Sync.maxOrgs o) (Sync.offset o) st
               else (inr 0, st)).
  assert (Horgs :
    Db.sync_logs (snd orgs) = Db.sync_logs st /\
    Db.match_cache (snd orgs) = Db.match_cache st /\
    Db.grants (snd orgs) = Db.grants st /\
    (forall id, In id (org_ids st) -> In id (org_ids (snd orgs))) /\
    (Sync.incremental o = true -> Sync.offset o <= 0 -> orgs = (inr 0, st))).
  { subst orgs.
    destruct (negb (Sync.incremental o) || (Sync.offset o >? 0)) eqn:G.
    - destruct (syncOrganisations_inv env (Sync.maxOrgs o) (Sync.offset o) st)
        as (_ & done & ((added & Hk) & _ & Hg & Hl & Hc & _) & _).
      cbn [fst snd] in *. repeat split; try assumption.
      + intros id Hid. unfold org_ids in *. rewrite org_ids_of_kept, Hk, map_app.
        apply in_or_app. left. now rewrite <- org_ids_of_kept.
      + intros Hi Ho. rewrite Hi in G. simpl in G.
        destruct (Z.gtb_spec (Sync.offset o) 0); [lia|discriminate].
    - cbn [fst snd]. repeat split; auto. }
  destruct Horgs as (Hl & Hc & Hg & Hids & Hskip).
  destruct orgs as [[m|n] st1] eqn:E; cbn [fst snd] in *.
  - split; [assumption|]. split; [assumption|]. split; [assumption|]. split.
    + intros id Hid. unfold SyncShape.grant_ids in *. now rewrite Hg.
    + intros Hi Ho. specialize (Hskip Hi Ho). discriminate.
  - destruct (grant_phase_frame (sync env) o st1) as (Fo & Fl & Fc).
    pose proof (grant_phase_ids o st1) as Fg.
    destruct (Sync.syncGrantsForFunders (sync env) o st1) as [[m|[g k]] final];
      cbn [fst snd] in *.
    all: split; [congruence|]; split; [congruence|]; split;
      [intros id Hid; unfold org_ids in *;
       rewrite (undated_org_ids _ _ Fo); now apply Hids|]; split;
      [intros id Hid; apply Fg; unfold SyncShape.grant_ids in *; now rewrite Hg|].
    all: intros Hi Ho; specialize (Hskip Hi Ho); injection Hskip as -> ->;
      split; [exact Fo|intros a b c H; congruence].
Qed.

Lemma update_log_last (logs : list Db.SyncLog) (r : Db.SyncLog) (status : string) (t : Z) :
  update_log (List.length logs) status t (logs ++ [r])
  = logs ++ [ {| Db.sync_type := Db.sync_type r; Db.status := status;
                 Db.completed_at := Some t |} ].
Proof. induction logs as [|l logs IH]; simpl; [reflexivity|now rewrite IH]. Qed.

Lemma last_completed_app (logs tail : list Db.SyncLog) :
  Forall (fun l => Matching.is_completed l = false) tail ->
  Matching.last_completed (logs ++ tail) = Matching.last_completed logs.
Proof.
  intros H. unfold Matching.last_completed. rewrite filter_app.
  replace (filter Matching.is_completed tail) with (@nil Db.SyncLog);
    [now rewrite app_nil_r|].
  induction H as [|l tail Hl _ IH]; simpl; [reflexivity|]. now rewrite Hl.
Qed.

Lemma later_fold_snoc (l : list (option Z)) (u t : Z) :
  u <= t -> Forall (fun x => exists y, x = Some y /\ y <= t) l ->
  fold_left Matching.later (l ++ [Some t]) (Some u) = Some t.
Proof.
  revert u. induction l as [|x l IH]; intros u Hu H; simpl.
  - f_equal. lia.
  - inversion H as [|? ? (y & -> & Hy) Hl]; subst. simpl. apply IH; [lia|exact Hl].
Qed.

Lemma last_completed_snoc (logs : list Db.SyncLog) (ty : string) (t : Z) :
  completed_by t logs ->
  Matching.last_completed
    (logs ++ [ {| Db.sync_type := ty; Db.status := "completed";
                  Db.completed_at := Some t |} ])
  = Some (Some t).
Proof.
  intros H. unfold Matching.last_completed. rewrite filter_app, map_app.
  cbn [filter Matching.is_completed Db.status String.eqb Ascii.eqb Bool.eqb map
       Db.completed_at].
  assert (Hall : Forall (fun x => exists y, x = Some y /\ y <= t)
                   (map Db.completed_at (filter Matching.is_completed logs))).
  { apply Forall_forall. intros x Hx. apply in_map_iff in Hx as (l & <- & Hl).
    apply filter_In in Hl as [Hin Hc]. exact (H l Hin Hc). }
  destruct (map Db.completed_at (filter Matching.is_completed logs)) as [|a rest];
    simpl; [reflexivity|].
  inversion Hall as [|? ? (y & -> & Hy) Hrest]; subst.
  f_equal. now apply later_fold_snoc.
Qed.

Lemma log_tail_not_completed (fin : Z) (tail : list Db.SyncLog) :
  log_tail fin tail -> Forall (fun l => Matching.is_completed l = false) tail.
Proof.
  intros [->|[(ty & ->)|(ty & ->)]]; repeat constructor.
Qed.

(** The store a request leaves: the log grows by at most one row, which
    is completed exactly when the answer is a success and both writes of
    the log went through; the other tables are those the two phases
    leave, run on a store with the tables of [st]. *)
Lemma POST_store (req : Request) (st : Db.Store) :
  exists tail,
    Db.sync_logs (snd (POST env req st)) = Db.sync_logs st ++ tail /\
    ((log_tail (finished_at env) tail /\
      ((forall body, fst (POST env req st) <> Responds 200 body) \/
       log_insert env <> Db.Succeeds \/ log_complete env <> Db.Succeeds))
     \/
     (completed_tail (finished_at env) tail /\
      (exists body, fst (POST env req st) = Responds 200 body) /\
      log_insert env = Db.Succeeds /\ log_complete env = Db.Succeeds)) /\
    (snd (POST env req st) = st \/
     exists o st0,
       options env req st = inr o /\
       Db.organisations st0 = Db.organisations st /\
       Db.grants st0 = Db.grants st /\
       Db.match_cache st0 = Db.match_cache st /\
       Db.organisations (snd (POST env req st)) = Db.organisations (snd (phases env o st0)) /\
       Db.grants (snd (POST env req st)) = Db.grants (snd (phases env o st0)) /\
       Db.match_cache (snd (POST env req st)) = Db.match_cache (snd (phases env o st0)) /\
       (forall body, fst (POST env req st) = Responds 200 body ->
          exists g k, fst (phases env o st0) = inr (organisations_synced body, g, k))).
Proof.
  unfold POST.
  destruct (options env req st) as [m|o] eqn:Ho.
  { exists []. rewrite app_nil_r. cbn [fst snd]. split; [reflexivity|]. split.
    - left. split; [now left|]. left. intros body [=].
    - now left. }
  unfold log_start.
  destruct (log_insert env) eqn:Hins.
  - (* the row is inserted *)
    set (st0 := set_sync_logs st _).
    destruct (phases_frame o st0) as (Hl & _).
    assert (Hlogs : Db.sync_logs (snd (phases env o st0))
                    = Db.sync_logs st ++
                      [ {| Db.sync_type := syncType o; Db.status := "running";
                           Db.completed_at := None |} ]) by (rewrite Hl; reflexivity).
    assert (Htables :
      forall out st', 
        Db.organisations st' = Db.organisations (snd (phases env o st0)) ->
        Db.grants st' = Db.grants (snd (phases env o st0)) ->
        Db.match_cache st' = Db.match_cache (snd (phases env o st0)) ->
        (forall body, out = Responds 200 body ->
           exists g k, fst (phases env o st0) = inr (organisations_synced body, g, k)) ->
        (st' = st \/
         exists o' st0',
           @inr string Sync.SyncOptions o = inr o' /\
           Db.organisations st0' = Db.organisations st /\
           Db.grants st0' = Db.grants st /\
           Db.match_cache st0' = Db.match_cache st /\
           Db.organisations st' = Db.organisations (snd (phases env o' st0')) /\
           Db.grants st' = Db.grants (snd (phases env o' st0')) /\
           Db.match_cache st' = Db.match_cache (snd (phases env o' st0')) /\
           (forall body, out = Responds 200 body ->
              exists g k, fst (phases env o' st0') = inr (organisations_synced body, g, k)))).
    { intros out st' H1 H2 H3 H4. right. exists o, st0. repeat split; assumption. }
    destruct (phases env o st0) as [[m|[[a g] k]] st1] eqn:Hph; cbn [fst snd] in *.
    + (* a phase throws *)
      unfold fail, log_end.
      destruct (log_fail env); cbn [fst snd].
      * eexists. split; [cbn [set_sync_logs Db.sync_logs]; rewrite Hlogs;
                         apply update_log_last|].
        split; [left; split; [right; right; eexists; reflexivity|left; intros b [=]]|].
        apply (Htables (failure o m)); try reflexivity. intros b [=].
      * eexists. split; [exact Hlogs|].
        split; [left; split; [right; left; eexists; reflexivity|left; intros b [=]]|].
        apply (Htables (failure o m)); try reflexivity. intros b [=].
      * eexists. split; [exact Hlogs|].
        split; [left; split; [right; left; eexists; reflexivity|left; intros b [=]]|].
        apply (Htables (failure o message)); try reflexivity. intros b [=].
    + unfold log_end at 1.
      destruct (log_complete env) eqn:Hcomp; cbn [fst snd].
      * eexists. split; [cbn [set_sync_logs Db.sync_logs]; rewrite Hlogs;
                         apply update_log_last|].
        split; [right; repeat split; eexists; reflexivity|].
        apply (Htables (Responds 200 _)); try reflexivity.
        intros b [= <-]. cbn [organisations_synced]. eauto.
      * eexists. split; [exact Hlogs|].
        split; [left; split; [right; left; eexists; reflexivity|right; right; discriminate]|].
        apply (Htables (Responds 200 _)); try reflexivity.
        intros b [= <-]. cbn [organisations_synced]. eauto.
      * unfold fail, log_end.
        destruct (log_fail env); cbn [fst snd].
        -- eexists. split; [cbn [set_sync_logs Db.sync_logs]; rewrite Hlogs;
                            apply update_log_last|].
           split; [left; split; [right; right; eexists; reflexivity|left; intros b [=]]|].
           apply (Htables (failure o message)); try reflexivity. intros b [=].
        -- eexists. split; [exact Hlogs|].
           split; [left; split; [right; left; eexists; reflexivity|left; intros b [=]]|].
           apply (Htables (failure o message)); try reflexivity. intros b [=].
        -- eexists. split; [exact Hlogs|].
           split; [left; split; [right; left; eexists; reflexivity|left; intros b [=]]|].
           apply (Htables (failure o message0)); try reflexivity. intros b [=].
  - (* the insert returns an error: no row, no id *)
    destruct (phases_frame o st) as (Hl & _).
    assert (Htables :
      forall out st', 
        Db.organisations st' = Db.organisations (snd (phases env o st)) ->
        Db.grants st' = Db.grants (snd (phases env o st)) ->
        Db.match_cache st' = Db.match_cache (snd (phases env o st)) ->
        (forall body, out = Responds 200 body ->
           exists g k, fst (phases env o st) = inr (organisations_synced body, g, k)) ->
        (st' = st \/
         exists o' st0',
           @inr string Sync.SyncOptions o = inr o' /\
           Db.organisations st0' = Db.organisations st /\
           Db.grants st0' = Db.grants st /\
           Db.match_cache st0' = Db.match_cache st /\
           Db.organisations st' = Db.organisations (snd (phases env o' st0')) /\
           Db.grants st' = Db.grants (snd (phases env o' st0')) /\
           Db.match_cache st' = Db.match_cache (snd (phases env o' st0')) /\
           (forall body, out = Responds 200 body ->
              exists g k, fst (phases env o' st0') = inr (organisations_synced body, g, k)))).
    { intros out st' H1 H2 H3 H4. right. exists o, st. repeat split; assumption. }
    destruct (phases env o st) as [[m|[[a g] k]] st1] eqn:Hph; cbn [fst snd] in *.
    + unfold fail, log_end. cbn [fst snd].
      exists []. rewrite app_nil_r. split; [exact Hl|].
      split; [left; split; [now left|left; intros b [=]]|].
      apply (Htables (failure o m)); try reflexivity. intros b [=].
    + unfold log_end. cbn [fst snd].
      exists []. rewrite app_nil_r. split; [exact Hl|].
      split; [left; split; [now left|right; left; discriminate]|].
      apply (Htables (Responds 200 _)); try reflexivity.
      intros b [= <-]. cbn [organisations_synced]. eauto.
  - (* the insert rejects *)
    exists []. rewrite app_nil_r. cbn [fst snd]. split; [reflexivity|]. split.
    + left. split; [now left|]. left. intros body [=].
    + now left.
Qed.

End PostHandler.

Section NextRequest.

Import Route RouteFacts.

Lemma options_of_logs (env : Env) (req : Request) (st st' : Db.Store) :
  Matching.last_completed (Db.sync_logs st') = Matching.last_completed (Db.sync_logs st) ->
  options env req st' = options env req st.
Proof. intros H. unfold options, last_sync. now rewrite H. Qed.

Lemma options_fields (env : Env) (req : Request) (st : Db.Store) (o : Sync.SyncOptions) :
  options env req st = inr o ->
  Sync.maxOrgs o = maxOrgs req /\ Sync.maxGrants o = maxGrants req /\
  Sync.offset o = offset req /\
  (Sync.incremental o = true -> forceFullSync req = false).
Proof.
  unfold options. destruct (forceFullSync req).
  - intros [= <-]. repeat split; discriminate.
  - destruct (last_sync env st) as [m|[d|]]; [discriminate| |];
      intros [= <-]; repeat split.
Qed.

End NextRequest.

(** X22.  A request that does not end in a success does not move the
    date of the last completed synchronisation: the log row it leaves,
    if any, is running or failed, so the next request decides between
    full and incremental, and with which date, as if this one had not
    happened. *)
Theorem failed_sync_keeps_the_watermark (env : Route.Env) (req : Route.Request)
    (st : Db.Store) :
  (forall body, fst (Route.POST env req st) <> Route.Responds 200 body) ->
  Matching.last_completed (Db.sync_logs (snd (Route.POST env req st)))
  = Matching.last_completed (Db.sync_logs st) /\
  (forall env2 req2,
     Route.options env2 req2 (snd (Route.POST env req st)) = Route.options env2 req2 st) /\
  (forall status body, fst (Route.POST env req st) = Route.Responds status body ->
     status = 500 /\ Route.success body = false /\
     Route.organisations_synced body = 0 /\ Route.grants_synced body = 0 /\
     Route.grants_skipped body = 0).
Proof.
  intros Hfail.
  destruct (POST_store env req st) as (tail & Hlogs & Htail & _).
  assert (Hsame : Matching.last_completed (Db.sync_logs (snd (Route.POST env req st)))
                  = Matching.last_completed (Db.sync_logs st)).
  { rewrite Hlogs. apply last_completed_app.
    destruct Htail as [(Ht & _)|(_ & (body & Hb) & _)].
    - now apply log_tail_not_completed with (fin := Route.finished_at env).
    - exfalso. exact (Hfail body Hb). }
  split; [exact Hsame|]. split.
  - intros env2 req2. now apply options_of_logs.
  - intros status body Hres. revert Hres Hfail. unfold Route.POST, Route.fail, Route.failure.
    destruct (Route.options env req st) as [m|o]; [discriminate|].
    destruct (Route.log_start env o st) as [m|[logId st0]];
      [intros [= <- <-]; repeat split|].
    destruct (Route.phases env o st0) as [[m|[[a g] k]] st1].
    + destruct (Route.log_end env logId "failed" (Route.log_fail env) st1) as [[m'|] st2];
        intros [= <- <-]; repeat split.
    + destruct (Route.log_end env logId "completed" (Route.log_complete env) st1)
        as [[m'|] st2].
      * destruct (Route.log_end env logId "failed" (Route.log_fail env) st2) as [[m2|] st3];
          intros [= <- <-]; repeat split.
      * cbn [fst]. intros [= <- <-] H. exfalso. exact (H _ eq_refl).
Qed.

Lemma failed_sync_sample :
  Matching.last_completed
    (Db.sync_logs (snd (Route.POST RouteSamples.failing RouteSamples.request
                          RouteSamples.synced_store)))
  = Some (Some 1716000000000).
Proof.
  apply (failed_sync_keeps_the_watermark RouteSamples.failing RouteSamples.request
           RouteSamples.synced_store).
  intros body. vm_compute. discriminate.
Defined.

(** X23.  A request that ends in a success, its two writes of the log
    having gone through, moves the date of the last completed
    synchronisation to its own completion time (no completed row being
    later); the next request that is not forced is then incremental from
    that time. *)
Theorem successful_sync_moves_the_watermark (env : Route.Env) (req : Route.Request)
    (st : Db.Store) (body : Route.SyncResult) :
  fst (Route.POST env req st) = Route.Responds 200 body ->
  Route.log_insert env = Db.Succeeds ->
  Route.log_complete env = Db.Succeeds ->
  RouteFacts.completed_by (Route.finished_at env) (Db.sync_logs st) ->
  Matching.last_completed (Db.sync_logs (snd (Route.POST env req st)))
  = Some (Some (Route.finished_at env)) /\
  forall env2 req2,
    Route.forceFullSync req2 = false ->
    Route.last_sync_query env2 = Db.Succeeds ->
    Route.timestamp_text env2 (Route.finished_at env) <> EmptyString ->
    Route.options env2 req2 (snd (Route.POST env req st))
    = inr {| Sync.maxOrgs := Route.maxOrgs req2; Sync.maxGrants := Route.maxGrants req2;
             Sync.offset := Route.offset req2; Sync.incremental := true;
             Sync.lastSyncDate :=
               Some (Route.timestamp_text env2 (Route.finished_at env)) |}.
Proof.
  intros Hok Hins Hcomp Hby.
  destruct (POST_store env req st) as (tail & Hlogs & Htail & _).
  assert (Hmark : Matching.last_completed (Db.sync_logs (snd (Route.POST env req st)))
                  = Some (Some (Route.finished_at env))).
  { rewrite Hlogs.
    destruct Htail as [(_ & [Hno|[Hno|Hno]])|((ty & ->) & _)].
    - exfalso. exact (Hno body Hok).
    - contradiction.
    - contradiction.
    - now apply last_completed_snoc. }
  split; [exact Hmark|].
  intros env2 req2 Hforce Hq Htext.
  unfold Route.options, Route.last_sync. rewrite Hforce, Hq, Hmark.
  unfold Sync.truthy.
  destruct (String.eqb_spec (Route.timestamp_text env2 (Route.finished_at env)) EmptyString)
    as [E|_]; [contradiction|reflexivity].
Qed.

Lemma successful_sync_sample :
  Matching.last_completed
    (Db.sync_logs (snd (Route.POST RouteSamples.env RouteSamples.request
                          RouteSamples.synced_store)))
  = Some (Some RouteSamples.finished).
Proof.
  eapply (successful_sync_moves_the_watermark RouteSamples.env RouteSamples.request
            RouteSamples.synced_store).
  - vm_compute. reflexivity.
  - reflexivity.
  - reflexivity.
  - intros l [<-|[]] _. eexists. split; [reflexivity|]. vm_compute. discriminate.
Defined.

(** X24.  An incremental request without a positive offset does not
    run the organisation phase: it reports no organisation synced, and
    the organisations are those of before, up to the
    [last_grant_made_date] that the grant phase sets. *)
Theorem incremental_sync_skips_the_organisations (env : Route.Env)
    (req : Route.Request) (st : Db.Store) (o : Sync.SyncOptions) :
  Route.options env req st = inr o ->
  Sync.incremental o = true ->
  Route.offset req <= 0 ->
  map SyncShape.undated (Db.organisations (snd (Route.POST env req st)))
  = map SyncShape.undated (Db.organisations st) /\
  forall status body, fst (Route.POST env req st) = Route.Responds status body ->
                      Route.organisations_synced body = 0.
Proof.
  intros Ho Hinc Hoff.
  destruct (options_fields env req st o Ho) as (_ & _ & Hof & _).
  destruct (POST_store env req st) as (tail & _ & _ & Htables).
  destruct Htables as [->|(o' & st0 & Ho' & Eo & _ & _ & Po & _ & _ & Hbody)].
  - split; [reflexivity|].
    intros status body. unfold Route.POST, Route.fail, Route.failure. rewrite Ho.
    destruct (Route.log_start env o st) as [m|[logId st0]];
      [intros [= <- <-]; reflexivity|].
    destruct (phases_frame env o st0) as (_ & _ & _ & _ & Hskip).
    rewrite Hof in Hskip. destruct (Hskip Hinc Hoff) as (_ & Hzero).
    destruct (Route.phases env o st0) as [[m|[[a g] k]] st1].
    + destruct (Route.log_end env logId "failed" (Route.log_fail env) st1) as [[m'|] st2];
        intros [= <- <-]; reflexivity.
    + destruct (Route.log_end env logId "completed" (Route.log_complete env) st1)
        as [[m'|] st2].
      * destruct (Route.log_end env logId "failed" (Route.log_fail env) st2) as [[m2|] st3];
          intros [= <- <-]; reflexivity.
      * intros [= <- <-]. cbn [Route.organisations_synced]. exact (Hzero a g k eq_refl).
  - rewrite Ho in Ho'. injection Ho' as <-.
    destruct (phases_frame env o st0) as (_ & _ & _ & _ & Hskip).
    rewrite Hof in Hskip. destruct (Hskip Hinc Hoff) as (Hu & Hzero).
    split; [now rewrite Po, Hu, Eo|].
    intros status body Hres.
    destruct (Z.eq_dec status 200) as [->|Hne].
    + destruct (Hbody body Hres) as (g & k & Hph). exact (Hzero _ _ _ Hph).
    + revert Hres. unfold Route.POST, Route.fail, Route.failure. rewrite Ho.
      destruct (Route.log_start env o st) as [m|[logId st0']];
        [intros [= <- <-]; reflexivity|].
      destruct (Route.phases env o st0') as [[m|[[a g] k]] st1].
      * destruct (Route.log_end env logId "failed" (Route.log_fail env) st1) as [[m'|] st2];
          intros [= <- <-]; reflexivity.
      * destruct (Route.log_end env logId "completed" (Route.log_complete env) st1)
          as [[m'|] st2].
        -- destruct (Route.log_end env logId "failed" (Route.log_fail env) st2)
             as [[m2|] st3]; intros [= <- <-]; reflexivity.
        -- intros [= <- <-]. contradiction.
Qed.

Lemma incremental_sync_sample :
  map SyncShape.undated
    (Db.organisations (snd (Route.POST RouteSamples.env RouteSamples.request
                              RouteSamples.synced_store)))
  = map SyncShape.undated (Db.organisations RouteSamples.synced_store).
Proof.
  eapply (incremental_sync_skips_the_organisations RouteSamples.env RouteSamples.request
            RouteSamples.synced_store).
  - vm_compute. reflexivity.
  - reflexivity.
  - vm_compute. discriminate.
Defined.

(** X25.  The synchronisation never deletes: whatever the request and
    the faults, every organisation and every grant that was stored is
    still stored, the earlier rows of the log are as they were with at
    most one row after them, and the match cache is not touched. *)
Theorem synchronisation_never_deletes (env : Route.Env) (req : Route.Request)
    (st : Db.Store) :
  (forall id, In id (RouteFacts.org_ids st) ->
              In id (RouteFacts.org_ids (snd (Route.POST env req st)))) /\
  (forall id, In id (SyncShape.grant_ids st) ->
              In id (SyncShape.grant_ids (snd (Route.POST env req st)))) /\
  Db.match_cache (snd (Route.POST env req st)) = Db.match_cache st /\
  exists tail,
    Db.sync_logs (snd (Route.POST env req st)) = Db.sync_logs st ++ tail /\
    (List.length tail <= 1)%nat.
Proof.
  destruct (POST_store env req st) as (tail & Hlogs & Htail & Htables).
  assert (Hlen : (List.length tail <= 1)%nat).
  { destruct Htail as [([->|[(ty & ->)|(ty & ->)]] & _)|((ty & ->) & _)]; simpl; lia. }
  destruct Htables as [E|(o & st0 & _ & Eo & Eg & Ec & Po & Pg & Pc & _)].
  - rewrite E in *. repeat split; auto. exists tail. split; assumption.
  - destruct (phases_frame env o st0) as (_ & Fc & Fo & Fg & _).
    split; [|split; [|split]].
    + intros id Hid. unfold RouteFacts.org_ids in *. rewrite Po. apply Fo.
      now rewrite Eo.
    + intros id Hid. unfold SyncShape.grant_ids in *. rewrite Pg. apply Fg.
      now rewrite Eg.
    + now rewrite Pc, Fc.
    + exists tail. split; assumption.
Qed.

(** X26.  The guard of the scheduled route: the answer is 401 exactly
    when the guard refuses, and then nothing is written; with a secret
    configured, the guard lets through exactly the requests that carry
    the header [x-vercel-cron: 1] or the bearer token made of the
    secret; without one it lets every request through.  A request let
    through is the synchronisation request with offset 0, and answers
    200 exactly when that one succeeds. *)
Theorem scheduled_sync_is_guarded (env : Route.Env) (cronSecret : option string)
    (req : Route.CronRequest) (st : Db.Store) :
  (fst (Route.GET env cronSecret req st) = 401 <-> Route.unauthorized cronSecret req = true) /\
  (Route.unauthorized cronSecret req = true -> snd (Route.GET env cronSecret req st) = st) /\
  (forall secret, cronSecret = Some secret -> secret <> EmptyString ->
     (Route.unauthorized cronSecret req = false <->
      Route.x_vercel_cron req = Some "1"%string \/
      Route.authorization req = Some ("Bearer " ++ secret)%string)) /\
  (Sync.truthy cronSecret = false -> Route.unauthorized cronSecret req = false) /\
  (Route.unauthorized cronSecret req = false ->
   snd (Route.GET env cronSecret req st)
   = snd (Route.POST env {| Route.maxOrgs := Route.cron_maxOrgs req;
                            Route.maxGrants := Route.cron_maxGrants req;
                            Route.offset := 0;
                            Route.forceFullSync := Route.force req |} st) /\
   (fst (Route.GET env cronSecret req st) = 200 <->
    exists body,
      fst (Route.POST env {| Route.maxOrgs := Route.cron_maxOrgs req;
                             Route.maxGrants := Route.cron_maxGrants req;
                             Route.offset := 0;
                             Route.forceFullSync := Route.force req |} st)
      = Route.Responds 200 body)).
Proof.
  assert (Hhdr : forall h v, Route.header_is h v = true <-> h = Some v).
  { intros [x|] v; simpl; [|split; discriminate].
    destruct (String.eqb_spec x v); split; congruence. }
  split; [|split; [|split; [|split]]].
  - unfold Route.GET. destruct (Route.unauthorized cronSecret req).
    + split; reflexivity.
    + split; [|discriminate].
      destruct (Route.POST env _ st) as [[m|status body] st']; cbn [fst].
      * discriminate.
      * destruct (status =? 200); discriminate.
  - unfold Route.GET. now intros ->.
  - intros secret -> Hne. unfold Route.unauthorized.
    assert (Ht : Sync.truthy (Some secret) = true).
    { unfold Sync.truthy. now destruct (String.eqb_spec secret EmptyString). }
    rewrite Ht. cbn [andb].
    destruct (Route.header_is (Route.x_vercel_cron req) "1") eqn:Hv;
      destruct (Route.header_is (Route.authorization req) ("Bearer " ++ secret)) eqn:Ha;
      cbn [negb andb]; split; try discriminate; try reflexivity.
    + intros _. left. now apply Hhdr.
    + intros _. left. now apply Hhdr.
    + intros _. right. now apply Hhdr.
    + intros [H|H]; apply Hhdr in H; congruence.
  - unfold Route.unauthorized. now intros ->.
  - unfold Route.GET. intros ->.
    destruct (Route.POST env _ st) as [[m|status body] st']; cbn [fst snd].
    + split; [reflexivity|]. split; [discriminate|]. intros (b & [=]).
    + split; [reflexivity|].
      destruct (Z.eqb_spec status 200) as [->|Hne]; split; try discriminate.
      * intros _. now exists body.
      * reflexivity.
      * intros (b & [= E _]). contradiction.
Qed.

(** ** The code fence of the scoring response *)

Section Fence.

Import Matching FenceFacts.

Local Open Scope string_scope.

Lemma length_append (a b : string) :
  String.length (a ++ b) = (String.length a + String.length b)%nat.
Proof. induction a as [|c a IH]; simpl; [reflexivity|now rewrite IH]. Qed.

Lemma prefix_append (p s : string) : String.prefix p (p ++ s) = true.
Proof.
  induction p as [|c p IH]; simpl; [now destruct s|].
  destruct (ascii_dec c c); [exact IH|contradiction].
Qed.

Lemma drop_append (a s : string) : JS.drop (String.length a) (a ++ s) = s.
Proof. induction a as [|c a IH]; simpl; [now destruct s|exact IH]. Qed.

Lemma substring0_append (a s : string) : String.substring 0 (String.length a) (a ++ s) = a.
Proof.
  induction a as [|c a IH]; simpl; [now destruct s|now rewrite IH].
Qed.

(** [indexOf] finds the occurrence behind [a] when none starts in [a]. *)
Lemma indexOf_behind (pat rest a : string) (fuel : nat) :
  (String.length a <= fuel)%nat ->
  (forall x c y, a = x ++ String c y ->
                 String.prefix pat (String c y ++ pat ++ rest) = false) ->
  JS.indexOf fuel pat (a ++ pat ++ rest) = Some (String.length a).
Proof.
  revert fuel. induction a as [|c a IH]; intros fuel Hfuel Hno.
  - change (EmptyString ++ pat ++ rest) with (pat ++ rest).
    destruct fuel; cbn [JS.indexOf]; now rewrite prefix_append.
  - destruct fuel as [|fuel]; [simpl in Hfuel; lia|].
    pose proof (Hno EmptyString c a eq_refl) as H0.
    change (String c a ++ pat ++ rest) with (String c (a ++ pat ++ rest)) in *.
    cbn [JS.indexOf]. rewrite H0.
    rewrite IH; [reflexivity|simpl in Hfuel; lia|].
    intros x d y E. apply (Hno (String c x) d y). simpl. now rewrite E.
Qed.

Lemma indexOf_absent (pat s : string) (fuel : nat) :
  (forall x y, s = x ++ y -> String.prefix pat y = false) ->
  JS.indexOf fuel pat s = None.
Proof.
  revert fuel. induction s as [|c s IH]; intros fuel Hno.
  - destruct fuel; cbn [JS.indexOf]; now rewrite (Hno EmptyString EmptyString eq_refl).
  - destruct fuel as [|fuel]; cbn [JS.indexOf];
      rewrite (Hno EmptyString (String c s) eq_refl); [reflexivity|].
    rewrite IH; [reflexivity|].
    intros x y E. apply (Hno (String c x) y). simpl. now rewrite E.
Qed.

Lemma plain_split (x y : string) : plain (x ++ y) = plain x && plain y.
Proof.
  unfold plain. induction x as [|c x IH]; simpl; [reflexivity|].
  now rewrite IH, andb_assoc.
Qed.

Lemma plain_head (c : ascii) (y : string) :
  plain (String c y) = true -> c <> "`"%char /\ plain y = true.
Proof.
  unfold plain. simpl. intros H. apply andb_prop in H as [Hc Hy]. split; [|exact Hy].
  intros ->. discriminate.
Qed.

Lemma prefix_cons (a c : ascii) (p s : string) :
  String.prefix (String a p) (String c s)
  = if ascii_dec a c then String.prefix p s else false.
Proof. reflexivity. Qed.

(** No fence opens in a text without a backtick. *)
Lemma no_open_in_plain (y s : string) :
  plain y = true -> y <> EmptyString -> String.prefix fence_open (y ++ s) = false.
Proof.
  destruct y as [|c y]; [contradiction|]. intros Hp _.
  apply plain_head in Hp as [Hc _].
  change (String.prefix (String "`" ("``json" ++ nl)) (String c (y ++ s)) = false).
  rewrite prefix_cons.
  destruct (ascii_dec "`" c) as [E|_]; [now subst c|reflexivity].
Qed.

(** No fence closes inside a text without a backtick, nor astride its
    end and the closing fence. *)
Lemma no_close_in_plain (c : ascii) (y s : string) :
  plain (String c y) = true ->
  String.prefix fence_close (String c y ++ fence_close ++ s) = false.
Proof.
  intros Hp. apply plain_head in Hp as [_ Hy].
  change (String.prefix (String (ascii_of_nat 10) "```")
            (String c (y ++ fence_close ++ s)) = false).
  rewrite prefix_cons.
  destruct (ascii_dec (ascii_of_nat 10) c) as [_|_]; [|reflexivity].
  destruct y as [|d y].
  - change (String.prefix (String "`" "``")
              (String (ascii_of_nat 10) ("```" ++ s)) = false).
    rewrite prefix_cons.
    destruct (ascii_dec "`" (ascii_of_nat 10)) as [E|_]; [discriminate E|reflexivity].
  - apply plain_head in Hy as [Hd _].
    change (String.prefix (String "`" "``") (String d (y ++ fence_close ++ s)) = false).
    rewrite prefix_cons.
    destruct (ascii_dec "`" d) as [E|_]; [now subst d|reflexivity].
Qed.

Lemma fenced_wrapped (before body after : string) :
  plain before = true -> plain body = true ->
  fenced (wrapped before body after) = Some body.
Proof.
  intros Hb Hbody. unfold fenced, wrapped.
  rewrite indexOf_behind.
  - replace (before ++ fence_open ++ body ++ fence_close ++ after)
      with ((before ++ fence_open) ++ body ++ fence_close ++ after)
      by now rewrite append_assoc.
    rewrite <- length_append, drop_append.
    rewrite indexOf_behind.
    + now rewrite substring0_append.
    + rewrite length_append. lia.
    + intros x c y E. apply no_close_in_plain.
      rewrite E, plain_split in Hbody. now apply andb_prop in Hbody as [_ ?].
  - rewrite length_append. lia.
  - intros x c y E.
    replace (String c y ++ fence_open ++ body ++ fence_close ++ after)
      with (String c y ++ (fence_open ++ body ++ fence_close ++ after)) by reflexivity.
    apply no_open_in_plain; [|discriminate].
    rewrite E, plain_split in Hb. now apply andb_prop in Hb as [_ ?].
Qed.

Lemma fenced_plain (body : string) : plain body = true -> fenced body = None.
Proof.
  intros Hp. unfold fenced. rewrite indexOf_absent; [reflexivity|].
  intros x y E. destruct y as [|c y]; [reflexivity|].
  rewrite <- (append_nil_r (String c y)).
  apply no_open_in_plain; [|discriminate].
  rewrite E, plain_split in Hp. now apply andb_prop in Hp as [_ ?].
Qed.

End Fence.

(** X27.  The code fence is transparent: a response that wraps the
    scores in a [json] code fence, with any text before and after it,
    is parsed as the scores alone are, provided the text before the
    fence and the scores hold no backtick. *)
Theorem fenced_response_parses_as_its_body (env : Matching.Env)
    (before body after : string) (fundersWithGrants : list Matching.FunderWithGrants) :
  FenceFacts.plain before = true ->
  FenceFacts.plain body = true ->
  Matching.fenced (FenceFacts.wrapped before body after) = Some body /\
  Matching.parseMatchingResponse env (FenceFacts.wrapped before body after)
    fundersWithGrants
  = Matching.parseMatchingResponse env body fundersWithGrants.
Proof.
  intros Hb Hbody. split; [now apply fenced_wrapped|].
  unfold Matching.parseMatchingResponse.
  now rewrite fenced_wrapped, fenced_plain.
Qed.

Lemma fenced_response_sample :
  Matching.fenced
    (FenceFacts.wrapped "Here are the matches: " "[1, 2]" " Let me know.")
  = Some "[1, 2]"%string.
Proof.
  apply (fenced_response_parses_as_its_body
           (MatchSamples.env [] Db.Succeeds Db.Succeeds Db.Succeeds)
           "Here are the matches: " "[1, 2]" " Let me know." []); reflexivity.
Defined.

(** ** The freshness indicator *)

(** X28.  The warning starts on the fifteenth day: the indicator shows
    the alert exactly when the read of the log succeeds and the last
    completed synchronisation is 15 whole days old or more, and the
    date alone exactly when it is less than that; up to the end of the
    fifteenth day after a synchronisation no alert is shown. *)
Theorem warning_starts_on_the_fifteenth_day (query : Db.fault) (now : Z) (st : Db.Store) :
  (Freshness.DataFreshnessIndicator query now st = Freshness.Outdated <->
   query = Db.Succeeds /\
   exists t, Matching.last_completed (Db.sync_logs st) = Some (Some t) /\
             t + 15 * 86400000 <= now) /\
  (Freshness.DataFreshnessIndicator query now st = Freshness.UpToDate <->
   query = Db.Succeeds /\
   exists t, Matching.last_completed (Db.sync_logs st) = Some (Some t) /\
             now < t + 15 * 86400000).
Proof.
  assert (Hdays : forall t, (Freshness.daysSinceSync now t >? 14) = true
                            <-> t + 15 * 86400000 <= now).
  { intros t. unfold Freshness.daysSinceSync, Freshness.DAY_MS.
    change (1000 * 60 * 60 * 24) with 86400000.
    rewrite Z.gtb_lt. split; intros H.
    - assert (15 <= (now - t) / 86400000) by lia.
      pose proof (Z.mul_div_le (now - t) 86400000 ltac:(lia)). lia.
    - assert (15 <= (now - t) / 86400000); [|lia].
      apply Z.div_le_lower_bound; lia. }
  unfold Freshness.DataFreshnessIndicator.
  destruct query as [|m|m].
  - destruct (Matching.last_completed (Db.sync_logs st)) as [[t|]|].
    + pose proof (Hdays t) as Ht.
      destruct (Freshness.daysSinceSync now t >? 14) eqn:E.
      * assert (Hle : t + 15 * 86400000 <= now) by (apply Ht; reflexivity).
        split; split.
        -- intros _. split; [reflexivity|]. exists t. split; [reflexivity|exact Hle].
        -- reflexivity.
        -- discriminate.
        -- intros (_ & t' & [= <-] & Hlt). lia.
      * assert (Hlt : now < t + 15 * 86400000).
        { destruct (Z.lt_ge_cases now (t + 15 * 86400000)) as [|Hge]; [assumption|].
          apply Ht in Hge. discriminate. }
        split; split.
        -- discriminate.
        -- intros (_ & t' & [= <-] & Hle). lia.
        -- intros _. split; [reflexivity|]. exists t. split; [reflexivity|exact Hlt].
        -- reflexivity.
    + split; split; try discriminate; intros (_ & t & [=] & _).
    + split; split; try discriminate; intros (_ & t & [=] & _).
  - split; split; try discriminate; intros ([=] & _).
  - split; split; try discriminate; intros ([=] & _).
Qed.

(** ** The details of a funder *)

Section FunderDetails.

Import Details.

Lemma str_or_self (d : string) : JS.str_or d EmptyString = d.
Proof. unfold JS.str_or. now destruct (String.eqb_spec d EmptyString). Qed.

Lemma last_In {A} (l : list A) (d : A) : l <> [] -> In (List.last l d) l.
Proof.
  induction l as [|a l IH]; [contradiction|]. intros _.
  destruct l as [|b l]; [now left|]. right. apply IH. discriminate.
Qed.

Lemma sorted_last {A} (R : A -> A -> Prop) (l : list A) (d x : A) :
  StronglySorted R l -> In x l -> x = List.last l d \/ R x (List.last l d).
Proof.
  intros Hs. induction Hs as [|a l Hs IH Ha]; [intros []|].
  intros [<-|Hx].
  - destruct l as [|b l]; [now left|]. right.
    rewrite Forall_forall in Ha. apply Ha.
    apply (last_In (b :: l) d). discriminate.
  - destruct l as [|b l]; [destruct Hx|]. now apply IH.
Qed.

Lemma leb_refl (a : string) : String.leb a a = true.
Proof. now destruct (String.leb_total a a). Qed.

Lemma firstn_incl {A} (n : nat) (l : list A) (x : A) : In x (firstn n l) -> In x l.
Proof.
  intros H. rewrite <- (firstn_skipn n l). apply in_or_app. now left.
Qed.

Lemma funder_grants_In (env : Env) (id : string) (st : Db.Store) (g : Db.Grant) :
  In g (funder_grants env id st) ->
  In g (Db.grants st) /\ Db.funder_org_id g = Some id.
Proof.
  unfold funder_grants. intros H. apply firstn_incl in H.
  apply (Permutation_in _ (sort_perm _ _)) in H.
  apply filter_In in H as [Hin Hf]. split; [exact Hin|].
  destruct (Db.funder_org_id g) as [f|]; [|discriminate].
  apply String.eqb_eq in Hf. now subst.
Qed.

(** The two ends of the sorted dates bound every date. *)
Lemma dates_span (l : list string) (v : string) :
  In v l ->
  match JS.sort_strings l with
  | [] => False
  | d :: _ => String.leb d v = true /\ In d l
  end /\
  String.leb v (List.last (JS.sort_strings l) EmptyString) = true /\
  In (List.last (JS.sort_strings l) EmptyString) l.
Proof.
  intros Hv.
  pose proof (sort_strings_sorted l) as Hs.
  assert (Hp : Permutation (JS.sort_strings l) l) by apply sort_perm.
  assert (Hin : In v (JS.sort_strings l)) by now apply (Permutation_in _ (Permutation_sym Hp)).
  split; [|split].
  - destruct (JS.sort_strings l) as [|d rest]; [destruct Hin|].
    split; [|apply (Permutation_in _ Hp); now left].
    inversion Hs as [|? ? _ Hall]; subst. destruct Hin as [<-|Hin]; [apply leb_refl|].
    rewrite Forall_forall in Hall. now apply string_before_leb, Hall.
  - destruct (sorted_last _ _ EmptyString v Hs Hin) as [<-|H]; [apply leb_refl|].
    now apply string_before_leb.
  - apply (Permutation_in _ Hp). apply last_In. intros E. now rewrite E in Hin.
Qed.

End FunderDetails.

(** X29.  The statistics of a funder span its valid grants: of the at
    most 100 grants returned, all of the funder, those with a date and a
    non-zero amount are counted; [earliest] and [latest] are dates of
    such grants and bound the date of every one of them in the order of
    the strings; without such a grant the count and the mean are 0 and
    both dates are empty. *)
Theorem funder_stats_span_the_valid_grants (env : Details.Env) (id : string)
    (st : Db.Store) (d : Details.FunderDetails) :
  Details.getFunderDetails env id st = inr d ->
  (List.length (Details.grants d) <= 100)%nat /\
  (forall g, In g (Details.grants d) ->
             In g (Db.grants st) /\ Db.funder_org_id g = Some id) /\
  (In (Details.funder d) (Db.organisations st) /\ Db.org_id (Details.funder d) = id) /\
  Details.total_grants (Details.stats d)
  = Z.of_nat (List.length (filter Details.valid (Details.grants d))) /\
  (filter Details.valid (Details.grants d) = [] ->
   Details.stats d
   = {| Details.total_grants := 0; Details.avg_amount := 0%Q;
        Details.earliest := EmptyString; Details.latest := EmptyString |}) /\
  (forall g, In g (Details.grants d) -> Details.valid g = true ->
     String.leb (Details.earliest (Details.stats d)) (Details.date_of g) = true /\
     String.leb (Details.date_of g) (Details.latest (Details.stats d)) = true /\
     (exists a, In a (Details.grants d) /\ Details.valid a = true /\
                Details.date_of a = Details.earliest (Details.stats d)) /\
     (exists b, In b (Details.grants d) /\ Details.valid b = true /\
                Details.date_of b = Details.latest (Details.stats d))).
Proof.
  unfold Details.getFunderDetails.
  destruct (Details.funder_query env); try discriminate.
  destruct (Matching.single _) as [f|] eqn:Hf; [|discriminate].
  destruct (Details.grants_query env); try discriminate.
  intros [= <-]. cbn [Details.grants Details.funder Details.stats].
  split; [|split; [|split; [|split; [|split]]]].
  - unfold Details.funder_grants. rewrite length_firstn. lia.
  - intros g. apply funder_grants_In.
  - apply single_In in Hf. apply filter_In in Hf as [Hin He].
    split; [exact Hin|]. now apply String.eqb_eq.
  - reflexivity.
  - intros E. unfold Details.stats_of. rewrite E. reflexivity.
  - intros g Hg Hv.
    assert (Hin : In (Details.date_of g)
                    (map Details.date_of
                       (filter Details.valid (Details.funder_grants env id st)))).
    { apply in_map. apply filter_In. now split. }
    destruct (dates_span _ _ Hin) as (Hfirst & Hlast & Hlin).
    unfold Details.stats_of. cbn [Details.earliest Details.latest].
    rewrite str_or_self.
    destruct (JS.sort_strings
                (map Details.date_of
                   (filter Details.valid (Details.funder_grants env id st))))
      as [|d0 rest] eqn:Hd; [destruct Hfirst|].
    rewrite str_or_self. destruct Hfirst as (Hle & Hdin).
    split; [exact Hle|]. split; [exact Hlast|]. split.
    + apply in_map_iff in Hdin as (a & Ha & Hain).
      apply filter_In in Hain as [? ?]. now exists a.
    + apply in_map_iff in Hlin as (b & Hb & Hbin).
      apply filter_In in Hbin as [? ?]. now exists b.
Qed.

Lemma funder_stats_sample :
  Details.total_grants
    (Details.stats_of (Details.funder_grants DetailsSamples.env "GB-CHC-1001"
                         DetailsSamples.store))
  = Z.of_nat (List.length
                (filter Details.valid
                   (Details.funder_grants DetailsSamples.env "GB-CHC-1001"
                      DetailsSamples.store))).
Proof.
  apply (funder_stats_span_the_valid_grants DetailsSamples.env "GB-CHC-1001"
           DetailsSamples.store
           {| Details.funder := SyncSamples.funder;
              Details.grants := Details.funder_grants DetailsSamples.env "GB-CHC-1001"
                                  DetailsSamples.store;
              Details.stats := Details.stats_of
                                 (Details.funder_grants DetailsSamples.env "GB-CHC-1001"
                                    DetailsSamples.store) |}).
  reflexivity.
Defined.

(** ** The pagination helpers of the client *)

Section Pagination.

Import Client Paging.

Context {R A : Type}.
Variable get : Z -> Z -> string + R.
Variable results : R -> list A.
Variable next : R -> option string.
Variable limit : Z.
Variable items : list A.

Hypothesis limit_pos : 0 < limit.
Hypothesis served : serves get results next limit items.

Lemma skipn_page (n o : nat) :
  firstn n (skipn o items) ++ skipn (o + n) items = skipn o items.
Proof.
  rewrite Nat.add_comm, <- skipn_skipn. apply firstn_skipn.
Qed.

(** From any page on, enough resumptions exhaust the generator, and the
    pages received are the items from that page on. *)
Lemma consume_from (fuel k : nat) :
  (List.length items <= Z.to_nat limit * (k + fuel - 1))%nat -> (2 <= fuel)%nat ->
  exists pages,
    consume fuel (turn get results next limit)
      {| offset := limit * Z.of_nat k; hasMore := true |}
    = Some (pages, None) /\
    List.concat pages = skipn (Z.to_nat limit * k) items /\
    Forall (fun page => Z.of_nat (List.length page) <= limit) pages.
Proof.
  revert k. induction fuel as [|fuel IH]; intros k Hrem Hfuel; [lia|].
  destruct (served k) as (response & Hget & Hres & Hnext).
  cbn [consume]. unfold turn at 1. cbn [hasMore offset]. rewrite Hget.
  assert (Hpage : Z.of_nat (List.length (results response)) <= limit).
  { rewrite Hres, length_firstn. lia. }
  destruct (next response) as [url|] eqn:En.
  - (* a next page *)
    assert (Hmore : (Z.to_nat limit * S k < List.length items)%nat).
    { destruct (Nat.lt_ge_cases (Z.to_nat limit * S k) (List.length items)) as [|Hge];
        [assumption|]. apply Hnext in Hge. discriminate. }
    replace (limit * Z.of_nat k + limit) with (limit * Z.of_nat (S k)) by lia.
    destruct (IH (S k)) as (pages & Hc & Hcat & Hall).
    + replace (S k + fuel - 1)%nat with (k + S fuel - 1)%nat by lia. exact Hrem.
    + destruct fuel as [|[|fuel]]; try lia.
    + rewrite Hc. eexists. split; [reflexivity|]. split.
      * cbn [List.concat]. rewrite Hcat, Hres.
        replace (Z.to_nat limit * S k)%nat with (Z.to_nat limit * k + Z.to_nat limit)%nat
          by lia.
        apply skipn_page.
      * constructor; assumption.
  - (* the last page *)
    assert (Hlast : (List.length items <= Z.to_nat limit * S k)%nat) by now apply Hnext.
    destruct fuel as [|fuel]; [lia|]. cbn [consume]. unfold turn. cbn [hasMore].
    eexists. split; [reflexivity|]. split.
    + cbn [List.concat]. rewrite app_nil_r, Hres. apply firstn_all2.
      rewrite length_skipn. lia.
    + repeat constructor. exact Hpage.
Qed.

Lemma consume_all (fuel : nat) :
  (2 <= fuel)%nat ->
  Z.of_nat (List.length items) <= limit * (Z.of_nat fuel - 1) ->
  exists pages,
    consume fuel (turn get results next limit) start = Some (pages, None) /\
    List.concat pages = items /\
    Forall (fun page => Z.of_nat (List.length page) <= limit) pages.
Proof.
  intros Hfuel Hlen.
  destruct (consume_from fuel 0) as (pages & Hc & Hcat & Hall); try nia.
  exists pages. rewrite Z.mul_0_r in Hc. rewrite Nat.mul_0_r in Hcat.
  repeat split; assumption.
Qed.

End Pagination.

Section Urls.

Lemma number_inj (a b : Z) : Json.number a = Json.number b -> a = b.
Proof.
  unfold Json.number. intros H.
  assert (Hnil : forall z, Z.to_int z <> Decimal.Pos Decimal.Nil /\
                           Z.to_int z <> Decimal.Neg Decimal.Nil).
  { intros z. split; intros E; pose proof (f_equal Z.of_int E) as E';
      rewrite DecimalZ.of_to in E'; simpl in E'; subst z; discriminate E. }
  apply (f_equal NilZero.int_of_string) in H.
  rewrite !NilZero.isi in H by apply Hnil.
  injection H as H. now apply DecimalZ.to_int_inj.
Qed.

Lemma grants_made_url_inj (encode : string -> string) (orgId : string) (limit a b : Z) :
  Client.grants_made_url encode orgId limit a = Client.grants_made_url encode orgId limit b ->
  a = b.
Proof.
  unfold Client.grants_made_url. intros H.
  repeat (apply append_inv_head in H). now apply number_inj.
Qed.

Lemma sample_serves :
  Paging.serves (Client.getGrantsMade (fun s => s) PagingSamples.fetch PagingSamples.orgId)
    Api.results Api.next 100 PagingSamples.grants.
Proof.
  intros k. unfold Client.getGrantsMade, PagingSamples.fetch.
  destruct k as [|[|k]].
  - eexists. split; [vm_compute; reflexivity|]. split; [reflexivity|].
    split; [discriminate|]. vm_compute. intros H. exfalso.
    repeat (apply le_S_n in H). inversion H.
  - eexists. split; [vm_compute; reflexivity|]. split; [reflexivity|].
    split; [intros _; vm_compute; repeat constructor|reflexivity].
  - destruct (String.eqb_spec
                (Client.grants_made_url (fun s => s) PagingSamples.orgId 100
                   (100 * Z.of_nat (S (S k))))
                (Client.grants_made_url (fun s => s) PagingSamples.orgId 100 0)) as [E|_];
      [apply grants_made_url_inj in E; lia|].
    destruct (String.eqb_spec
                (Client.grants_made_url (fun s => s) PagingSamples.orgId 100
                   (100 * Z.of_nat (S (S k))))
                (Client.grants_made_url (fun s => s) PagingSamples.orgId 100 100)) as [E|_];
      [apply grants_made_url_inj in E; lia|].
    exists (Client.json (PagingSamples.page 2)). split; [reflexivity|]. split.
    + cbn [Client.json PagingSamples.page Api.results].
      rewrite !skipn_all2; [reflexivity| |];
        unfold PagingSamples.grants; rewrite length_map, length_seq;
        change (Z.to_nat 100) with 100%nat; lia.
    + split; [intros _|reflexivity].
      unfold PagingSamples.grants. rewrite length_map, length_seq.
      change (Z.to_nat 100) with 100%nat. lia.
Qed.

End Urls.

(** X30.  The pagination helpers receive every item once: against an
    endpoint that serves a list in pages, [fetchAllGrantsMade] (pages of
    100) and [fetchAllOrganisations] (pages of 1000) end after finitely
    many requests without an error, and the pages they yield, each
    within the page size, make up the list, in order.  An answer that is
    not a success ends the generator with the error of the call: for
    the grants, [Organisation not found] on a 404. *)
Theorem pagination_yields_every_item (encode : string -> string)
    (fetchGrants : string -> string + Client.HttpResponse Api.GrantsResponse)
    (fetchOrgs : string -> string + Client.HttpResponse OrgApi.OrganisationListResponse)
    (orgId : string) :
  (forall grants fuel,
     Paging.serves (Client.getGrantsMade encode fetchGrants orgId)
       Api.results Api.next 100 grants ->
     (2 <= fuel)%nat ->
     Z.of_nat (List.length grants) <= 100 * (Z.of_nat fuel - 1) ->
     exists pages,
       Client.consume fuel (Client.fetchAllGrantsMade encode fetchGrants orgId) Client.start
       = Some (pages, None) /\
       List.concat pages = grants /\
       Forall (fun page => Z.of_nat (List.length page) <= 100) pages) /\
  (forall orgs fuel,
     Paging.serves (Client.getOrganisations fetchOrgs)
       OrgApi.results OrgApi.next 1000 orgs ->
     (2 <= fuel)%nat ->
     Z.of_nat (List.length orgs) <= 1000 * (Z.of_nat fuel - 1) ->
     exists pages,
       Client.consume fuel (Client.fetchAllOrganisations fetchOrgs) Client.start
       = Some (pages, None) /\
       List.concat pages = orgs /\
       Forall (fun page => Z.of_nat (List.length page) <= 1000) pages) /\
  (forall body fuel,
     fetchGrants (Client.grants_made_url encode orgId 100 0)
     = inr {| Client.status := 404; Client.json := body |} ->
     Client.consume (S fuel) (Client.fetchAllGrantsMade encode fetchGrants orgId) Client.start
     = Some ([], Some "Organisation not found"%string)).
Proof.
  split; [|split].
  - intros grants fuel Hs Hf Hl.
    apply (consume_all _ Api.results Api.next 100 grants ltac:(lia) Hs fuel Hf Hl).
  - intros orgs fuel Hs Hf Hl.
    apply (consume_all _ OrgApi.results OrgApi.next 1000 orgs ltac:(lia) Hs fuel Hf Hl).
  - intros body fuel H. cbn [Client.consume].
    unfold Client.fetchAllGrantsMade, Client.turn, Client.getGrantsMade.
    cbn [Client.hasMore Client.offset Client.start]. rewrite H. reflexivity.
Qed.

Lemma pagination_sample :
  exists pages,
    Client.consume 3
      (Client.fetchAllGrantsMade (fun s => s) PagingSamples.fetch PagingSamples.orgId)
      Client.start
    = Some (pages, None) /\
    List.concat pages = PagingSamples.grants /\
    Forall (fun page => Z.of_nat (List.length page) <= 100) pages.
Proof.
  apply (proj1 (pagination_yields_every_item (fun s => s) PagingSamples.fetch
                  (fun _ => inl EmptyString) PagingSamples.orgId)
           PagingSamples.grants 3%nat sample_serves).
  - lia.
  - vm_compute. discriminate.
Defined.
